(** * An inverted-index builder, a word counter and a generator of text

    [inverted_index.py] cuts a text file into documents of [lines_per_doc]
    lines, tokenizes every document, counts term frequencies per document,
    spills one sorted run per batch of documents, and merges the runs into
    size-bounded shards.  [wordcount.py] reads a text file block by block, has
    a pool of workers count the words of every block, and adds the counts up
    into a report.  [gen_20gb_parallel.py] has every process write a part of
    generated text, and joins the parts into one file.  This file embeds the
    functions of the three programs and proves properties of the embedding.

    Conventions of the embedding:
    - a Python [str] is the list of its Unicode code points, a code point is a
      [Z]; a Python [int] is a [Z];
    - a [dict] ([Counter], [defaultdict]) is an association list in insertion
      order, as Python iterates it;
    - a text file is the [str] it holds: UTF-8 coding and decoding are the
      identity on it, writing leaves line feeds as they are (as on POSIX),
      reading turns carriage returns into line feeds; a text UTF-8 cannot
      encode (one with a lone surrogate) is outside the embedding, and a
      property of a file written from rows of any kind is stated for
      rows Python can write ([writable_row]);
    - a file opened in binary mode is the bytes it holds, read and written
      as they are;
    - a file system is its directories and its files, a file being named by
      its directory and its name;
    - an exception is a value of [outcome];
    - the order in which the map workers finish, or the processes of the
      generator report, is a parameter ([as_completed]), and the properties
      hold for every such order;
    - the texts a [Faker] hands out are a parameter ([fake]), and the
      properties hold for every such text. *)

From Stdlib Require Import Ascii String.
From Stdlib Require Import ZArith List Lia Bool Permutation Sorted FinFun.
From Stdlib Require Decimal DecimalFacts DecimalPos DecimalZ.
From Equations Require Import Equations.
Import ListNotations.
Local Open Scope Z_scope.

(** ** Text *)

Definition char := Z.
Definition str := list char.

(** A literal of the source, as code points. *)
Definition lit (s : string) : str :=
  map (fun a => Z.of_N (N_of_ascii a)) (list_ascii_of_string s).

Definition TAB : char := 9.
Definition LF : char := 10.
Definition CR : char := 13.
Definition APOSTROPHE : char := 39.

Definition str_eq_dec : forall a b : str, {a = b} + {a <> b} :=
  list_eq_dec Z.eq_dec.

(** [len(x)] *)
Definition len {A : Type} (l : list A) : Z := Z.of_nat (length l).

(** [a < b] and [a == b] on [str]: code point by code point, a proper prefix
    is smaller. *)
Fixpoint str_compare (a b : str) : comparison :=
  match a, b with
  | [], [] => Eq
  | [], _ :: _ => Lt
  | _ :: _, [] => Gt
  | x :: a', y :: b' =>
      match x ?= y with
      | Eq => str_compare a' b'
      | c => c
      end
  end.

(** ** Exceptions *)

Inductive exn : Type :=
| ValueError
| TypeError
| FileNotFoundError
| OSError.

(** What a call does: it returns a value or it raises. *)
Inductive outcome (A : Type) : Type :=
| Ok (a : A)
| Raise (e : exn).

Arguments Ok {A} a.
Arguments Raise {A} e.

Definition bind {A B : Type} (m : outcome A) (k : A -> outcome B) : outcome B :=
  match m with
  | Ok a => k a
  | Raise e => Raise e
  end.

Notation "x <- m ;; k" := (bind m (fun x => k))
  (at level 61, m at next level, right associativity).
Notation "' p <- m ;; k" := (bind m (fun x => match x with p => k end))
  (at level 61, p pattern, m at next level, right associativity).

(** ** [dict]: insertion-ordered association lists *)

Section Dict.
Context {K V : Type}.
Variable eq_dec : forall a b : K, {a = b} + {a <> b}.

(** [d[k] = f(d.get(k))]: an existing key keeps its place, a new key goes last. *)
Fixpoint dict_update (d : list (K * V)) (k : K) (f : option V -> V) : list (K * V) :=
  match d with
  | [] => [(k, f None)]
  | (k', v) :: r =>
      if eq_dec k k' then (k', f (Some v)) :: r
      else (k', v) :: dict_update r k f
  end.

Fixpoint dict_get (d : list (K * V)) (k : K) : option V :=
  match d with
  | [] => None
  | (k', v) :: r => if eq_dec k k' then Some v else dict_get r k
  end.

End Dict.

(** [Counter]: a dict of counts; [c[k] += n] starts a missing key at 0. *)
Definition counter_add {K : Type} (eq_dec : forall a b : K, {a = b} + {a <> b})
  (c : list (K * Z)) (k : K) (n : Z) : list (K * Z) :=
  dict_update eq_dec c k (fun o => match o with Some v => v + n | None => 0 + n end).

(** [Counter(iterable)] *)
Definition Counter (toks : list str) : list (str * Z) :=
  fold_left (fun c t => counter_add str_eq_dec c t 1) toks [].

(** [sum(l)] *)
Definition sum (l : list Z) : Z := fold_right Z.add 0 l.

(** ** Tokenizer (lines 5-9) *)

Definition in_range (lo hi c : Z) : bool := (lo <=? c) && (c <=? hi).

(** The character class of [TOKEN_RE]: [A-Za-zÀ-ÖØ-öø-ÿ0-9']. *)
Definition token_char (c : char) : bool :=
  in_range 65 90 c || in_range 97 122 c
  || in_range 192 214 c || in_range 216 246 c || in_range 248 255 c
  || in_range 48 57 c || (c =? APOSTROPHE).

Definition flush (cur : str) : list str :=
  match cur with
  | [] => []
  | _ => [cur]
  end.

(** [TOKEN_RE.finditer(s)] for the pattern [[class]+]: the scanner extends the
    current match [cur] greedily while the next character is in the class, and
    restarts after the first character that is not. *)
Fixpoint finditer (cur : str) (s : str) : list str :=
  match s with
  | [] => flush cur
  | c :: s' =>
      if token_char c then finditer (cur ++ [c]) s'
      else flush cur ++ finditer [] s'
  end.

(** [str.lower()] on the characters of the class: the upper-case letters of
    ASCII and of Latin-1 ([À-Ö], [Ø-Þ]) move up by 32; every other character
    of the class is its own lower case.  [tokenize] lowers matches only. *)
Definition lower_char (c : char) : char :=
  if in_range 65 90 c || in_range 192 214 c || in_range 216 222 c then c + 32
  else c.

Definition lower (s : str) : str := map lower_char s.

Definition tokenize (s : str) : list str :=
  map lower (finditer [] s).

(** ** Map worker (lines 11-23) *)

(** [defaultdict(Counter)]: term -> (doc id -> term frequency). *)
Definition postings_t := list (str * list (Z * Z)).

(** [postings[term][did] += tf] *)
Definition postings_add (postings : postings_t) (term : str) (did tf : Z) : postings_t :=
  dict_update str_eq_dec postings term
    (fun o => counter_add Z.eq_dec (match o with Some docs => docs | None => [] end) did tf).

(** One turn of the loop over [doc_texts]; the state is [(postings, did)]. *)
Definition map_doc (st : postings_t * Z) (txt : str) : postings_t * Z :=
  let '(postings, did) := st in
  match txt with
  | [] => (postings, did + 1)
  | _ =>
      let ctr := Counter (tokenize txt) in
      let postings' :=
        match ctr with
        | [] => postings
        | _ => fold_left (fun p '(term, tf) => postings_add p term did tf) ctr postings
        end in
      (postings', did + 1)
  end.

Definition map_count_docs (doc_texts : list str) (start_doc_id : Z) : postings_t * Z :=
  (fst (fold_left map_doc doc_texts ([], start_doc_id)), len doc_texts).

(** ** Decimal text of integers *)

Fixpoint digits (u : Decimal.uint) : str :=
  match u with
  | Decimal.Nil => []
  | Decimal.D0 u => 48 :: digits u
  | Decimal.D1 u => 49 :: digits u
  | Decimal.D2 u => 50 :: digits u
  | Decimal.D3 u => 51 :: digits u
  | Decimal.D4 u => 52 :: digits u
  | Decimal.D5 u => 53 :: digits u
  | Decimal.D6 u => 54 :: digits u
  | Decimal.D7 u => 55 :: digits u
  | Decimal.D8 u => 56 :: digits u
  | Decimal.D9 u => 57 :: digits u
  end.

(** [str(n)], also [f"{n}"] *)
Definition str_of_int (n : Z) : str :=
  match Z.to_int n with
  | Decimal.Pos u => digits u
  | Decimal.Neg u => 45 :: digits u
  end.

Fixpoint parse_digits (s : str) : option Decimal.uint :=
  match s with
  | [] => Some Decimal.Nil
  | c :: r =>
      match parse_digits r with
      | None => None
      | Some u =>
          if c =? 48 then Some (Decimal.D0 u) else if c =? 49 then Some (Decimal.D1 u)
          else if c =? 50 then Some (Decimal.D2 u) else if c =? 51 then Some (Decimal.D3 u)
          else if c =? 52 then Some (Decimal.D4 u) else if c =? 53 then Some (Decimal.D5 u)
          else if c =? 54 then Some (Decimal.D6 u) else if c =? 55 then Some (Decimal.D7 u)
          else if c =? 56 then Some (Decimal.D8 u) else if c =? 57 then Some (Decimal.D9 u)
          else None
      end
  end.

(** [int(s)] on an optionally signed run of ASCII digits.  Python's [int] also
    reads surrounding blanks, underscores and non-ASCII digits; the pipeline
    writes none of these, and the embedding raises on them. *)
Definition int_of_str (s : str) : outcome Z :=
  match s with
  | [] => Raise ValueError
  | c :: r =>
      if (c =? 45) || (c =? 43) then
        match r, parse_digits r with
        | _ :: _, Some u =>
            Ok (Z.of_int (if c =? 45 then Decimal.Neg u else Decimal.Pos u))
        | _, _ => Raise ValueError
        end
      else
        match parse_digits s with
        | Some u => Ok (Z.of_int (Decimal.Pos u))
        | None => Raise ValueError
        end
  end.

(** [f"{n:0{w}d}"]: zero padding to width [w], after the sign. *)
Definition format_0d (w : nat) (n : Z) : str :=
  let sign := if n <? 0 then [45] else [] in
  let body := str_of_int (Z.abs n) in
  sign ++ repeat 48 (w - length sign - length body)%nat ++ body.

(** ** Rows and their text (lines 33-34, 42-44, 64) *)

Definition row := (str * Z * Z)%type.

Definition row_term (r : row) : str := fst (fst r).
Definition row_doc (r : row) : Z := snd (fst r).
Definition row_tf (r : row) : Z := snd r.

(** [f"{term}\t{doc_id}\t{tf}\n"] *)
Definition fmt_row (r : row) : str :=
  row_term r ++ [TAB] ++ str_of_int (row_doc r) ++ [TAB] ++ str_of_int (row_tf r) ++ [LF].

(** Reading in text mode with [newline=None]: a carriage return, alone or
    before a line feed, is read as a line feed. *)
Fixpoint universal_newlines (s : str) : str :=
  match s with
  | [] => []
  | c :: r =>
      if c =? CR then
        LF :: match r with
              | [] => []
              | c' :: r' =>
                  if c' =? LF then universal_newlines r' else universal_newlines r
              end
      else c :: universal_newlines r
  end.

Fixpoint readlines_from (cur : str) (s : str) : list str :=
  match s with
  | [] => flush cur
  | c :: r =>
      if c =? LF then (cur ++ [c]) :: readlines_from [] r
      else readlines_from (cur ++ [c]) r
  end.

(** [for line in fh]: the lines of a text file, each with its line feed (the
    last one may lack it). *)
Definition readlines (s : str) : list str :=
  readlines_from [] (universal_newlines s).

(** [line.rstrip("\n")] *)
Fixpoint rstrip_lf (s : str) : str :=
  match s with
  | [] => []
  | c :: r =>
      match rstrip_lf r with
      | [] => if c =? LF then [] else [c]
      | r' => c :: r'
      end
  end.

(** [s.split("\t")] *)
Fixpoint split_from (cur : str) (s : str) : list str :=
  match s with
  | [] => [cur]
  | c :: r =>
      if c =? TAB then cur :: split_from [] r
      else split_from (cur ++ [c]) r
  end.

Definition split_tab (s : str) : list str := split_from [] s.

(** Lines 43-44: unpacking raises [ValueError] unless there are three fields. *)
Definition parse_line (line : str) : outcome row :=
  match split_tab (rstrip_lf line) with
  | [term; doc; tf] =>
      d <- int_of_str doc ;;
      t <- int_of_str tf ;;
      Ok (term, d, t)
  | _ => Raise ValueError
  end.

(** ** Files *)

(** [os.path.join(directory, name)]: a file is named by its directory and its
    name in it. *)
Definition path := (str * str)%type.

Definition path_eq_dec (a b : path) : {a = b} + {a <> b}.
Proof. decide equality; apply str_eq_dec. Defined.

Arguments path_eq_dec : simpl never.

Definition mem (d : str) (l : list str) : bool :=
  if in_dec str_eq_dec d l then true else false.

Record filesystem : Type := {
  dirs : list str;
  files : list (path * str)
}.

(** [os.makedirs(d, exist_ok=True)] *)
Definition makedirs (fs : filesystem) (d : str) : filesystem :=
  if mem d (dirs fs) then fs
  else {| dirs := d :: dirs fs; files := files fs |}.

(** [open(p, "r").read()] *)
Definition read_file (fs : filesystem) (p : path) : outcome str :=
  match dict_get path_eq_dec (files fs) p with
  | Some s => Ok s
  | None => Raise FileNotFoundError
  end.

(** [open(p, "w")], the writes, and the close: the file holds what was
    written; its directory has to exist. *)
Definition write_file (fs : filesystem) (p : path) (s : str) : outcome filesystem :=
  if mem (fst p) (dirs fs) then
    Ok {| dirs := dirs fs; files := dict_update path_eq_dec (files fs) p (fun _ => s) |}
  else Raise FileNotFoundError.

Definition is_path (p : path) (e : path * str) : bool :=
  if path_eq_dec (fst e) p then true else false.

(** [os.remove(p)] *)
Definition os_remove (fs : filesystem) (p : path) : outcome filesystem :=
  if existsb (is_path p) (files fs) then
    Ok {| dirs := dirs fs; files := filter (fun e => negb (is_path p e)) (files fs) |}
  else Raise FileNotFoundError.

Definition in_dir (d : str) (e : path * str) : bool :=
  if str_eq_dec (fst (fst e)) d then true else false.

(** [os.rmdir(d)]: only an empty directory goes. *)
Definition os_rmdir (fs : filesystem) (d : str) : outcome filesystem :=
  if mem d (dirs fs) then
    if existsb (in_dir d) (files fs) then Raise OSError
    else Ok {| dirs := filter (fun x => negb (if str_eq_dec x d then true else false)) (dirs fs);
               files := files fs |}
  else Raise FileNotFoundError.

(** [try: f() except: pass] *)
Definition ignore_errors (fs : filesystem) (r : outcome filesystem) : filesystem :=
  match r with
  | Ok fs' => fs'
  | Raise _ => fs
  end.

(** ** Run spiller (lines 25-35) *)

(** Lines 26-29 *)
Definition rows_of (postings : postings_t) : list row :=
  flat_map (fun '(term, docs) => map (fun '(doc_id, tf) => (term, doc_id, tf)) docs)
    postings.

(** [(a[0], a[1]) < (b[0], b[1])] *)
Definition key_lt (a b : row) : bool :=
  match str_compare (row_term a) (row_term b) with
  | Lt => true
  | Gt => false
  | Eq => row_doc a <? row_doc b
  end.

(** [rows.sort(key=...)]: a stable sort, so a row goes before the rows of the
    sorted rest that its key is not greater than. *)
Fixpoint insert_row (r : row) (l : list row) : list row :=
  match l with
  | [] => [r]
  | x :: l' => if key_lt x r then x :: insert_row r l' else r :: l
  end.

Definition sort_rows (rows : list row) : list row :=
  fold_right insert_row [] rows.

Definition chunk_name (chunk_idx : Z) : str :=
  lit "chunk_" ++ format_0d 6 chunk_idx ++ lit ".tsv".

Definition spill_sorted_chunk (fs : filesystem) (postings : postings_t)
  (tmp_dir : str) (chunk_idx : Z) : outcome (filesystem * (path * Z)) :=
  let rows := sort_rows (rows_of postings) in
  let p := (tmp_dir, chunk_name chunk_idx) in
  fs' <- write_file fs p (concat (map fmt_row rows)) ;;
  Ok (fs', (p, len rows)).

(** ** Merge and shard writer (lines 37-84) *)

(** [gen(i, fh)]: a generator is its run index and the lines it has not read. *)
Record generator : Type := {
  gen_i : Z;
  gen_lines : list str
}.

(** [next(it)]: [None] is [StopIteration]. *)
Definition gen_next (it : generator) : outcome (option (row * Z * generator)) :=
  match gen_lines it with
  | [] => Ok None
  | line :: rest =>
      r <- parse_line line ;;
      Ok (Some (r, gen_i it, {| gen_i := gen_i it; gen_lines := rest |}))
  end.

(** A heap item [(term, doc, tf, src, it)]. *)
Record entry : Type := {
  e_row : row;
  e_src : Z;
  e_it : generator
}.

(** [a < b] on heap items, Python's tuple order: the first component that
    differs decides; two generators have no order, so the comparison raises
    [TypeError] once term, doc, tf and src are all equal. *)
Definition tuple_lt (a b : entry) : outcome bool :=
  match str_compare (row_term (e_row a)) (row_term (e_row b)) with
  | Lt => Ok true
  | Gt => Ok false
  | Eq =>
      match row_doc (e_row a) ?= row_doc (e_row b) with
      | Lt => Ok true
      | Gt => Ok false
      | Eq =>
          match row_tf (e_row a) ?= row_tf (e_row b) with
          | Lt => Ok true
          | Gt => Ok false
          | Eq =>
              match e_src a ?= e_src b with
              | Lt => Ok true
              | Gt => Ok false
              | Eq => Raise TypeError
              end
          end
      end
  end.

(** [heapq], by its contract: [heappop] returns the smallest item, [heappush]
    and [heapify] keep every item.  The list is kept in ascending order, which
    is one of the arrangements a binary heap allows, so the smallest item is
    at index 0 and [heappop] splits the list into its first item and the rest;
    items are compared with [tuple_lt] only. *)
Fixpoint heappush (h : list entry) (e : entry) : outcome (list entry) :=
  match h with
  | [] => Ok [e]
  | x :: r =>
      b <- tuple_lt e x ;;
      if b then Ok (e :: h)
      else r' <- heappush r e ;; Ok (x :: r')
  end.

Definition heapify (l : list entry) : outcome (list entry) :=
  fold_left (fun acc e => h <- acc ;; heappush h e) l (Ok []).

(** Lines 48-53: the first row of every run that has one. *)
Fixpoint first_heads (iters : list generator) : outcome (list entry) :=
  match iters with
  | [] => Ok []
  | it :: rest =>
      nx <- gen_next it ;;
      tl <- first_heads rest ;;
      match nx with
      | Some (r, src, it') => Ok ({| e_row := r; e_src := src; e_it := it' |} :: tl)
      | None => Ok tl
      end
  end.

(** The variables of the loop of lines 62-79; [closed] lists the shards
    already closed, each with the index its file name carries. *)
Record merge_state : Type := {
  heap : list entry;
  shard_idx : Z;
  out : str;
  written_in_shard : Z;
  records : Z;
  closed : list (Z * str)
}.

(** Lines 68-72 *)
Definition advance (e : entry) (h : list entry) : outcome (list entry) :=
  nx <- gen_next (e_it e) ;;
  match nx with
  | Some (r, _, it') => heappush h {| e_row := r; e_src := e_src e; e_it := it' |}
  | None => Ok h
  end.

(** Lines 64-66 and 74-79, once the heap of the next turn is known. *)
Definition write_record (shard_mb : Z) (st : merge_state) (e : entry)
  (h' : list entry) : merge_state :=
  let r := e_row e in
  let out' := out st ++ fmt_row r in
  let records' := records st + 1 in
  let written :=
    written_in_shard st
    + (len (row_term r) + len (str_of_int (row_doc r)) + len (str_of_int (row_tf r)) + 3) in
  if written >=? shard_mb * 1024 * 1024 then
    {| heap := h'; shard_idx := shard_idx st + 1; out := []; written_in_shard := 0;
       records := records'; closed := closed st ++ [(shard_idx st, out')] |}
  else
    {| heap := h'; shard_idx := shard_idx st; out := out'; written_in_shard := written;
       records := records'; closed := closed st |}.

(** What the loop still has to read: the heads in the heap and the lines
    behind them. *)
Definition heap_weight (h : list entry) : nat :=
  fold_right (fun e n => (S (length (gen_lines (e_it e))) + n)%nat) 0%nat h.

Lemma heappush_weight (h : list entry) (e : entry) (h' : list entry) :
  heappush h e = Ok h' ->
  heap_weight h' = (S (length (gen_lines (e_it e))) + heap_weight h)%nat.
Proof.
  revert h'. induction h as [|x r IH]; intros h' H; simpl in H.
  - injection H as <-. reflexivity.
  - destruct (tuple_lt e x) as [[|]|]; simpl in H; try discriminate.
    + injection H as <-. reflexivity.
    + destruct (heappush r e) as [r'|]; simpl in H; try discriminate.
      injection H as <-. simpl. rewrite (IH r' eq_refl). simpl. lia.
Qed.

Lemma advance_weight (e : entry) (h h' : list entry) :
  advance e h = Ok h' -> (heap_weight h' < heap_weight (e :: h))%nat.
Proof.
  unfold advance, gen_next. destruct (gen_lines (e_it e)) as [|line rest] eqn:E; simpl.
  - intros H. injection H as <-. lia.
  - destruct (parse_line line) as [r|]; simpl; try discriminate.
    intros H. apply heappush_weight in H. simpl in H. rewrite H, E. simpl. lia.
Qed.

(** A value together with the equation that names it, for the case analyses
    of [merge_loop]. *)
Definition inspect {A : Type} (x : A) : {y : A | x = y} := exist _ x eq_refl.

(** [while heap:] (lines 62-79): [heappop] gives the first item [e] and leaves
    [h].  Every turn takes one line out of what is left to read, which is why
    the loop ends. *)
Equations? merge_loop (shard_mb : Z) (st : merge_state) : outcome merge_state
  by wf (heap_weight (heap st)) lt :=
merge_loop shard_mb st with inspect (heap st) := {
  | exist _ [] _ => Ok st
  | exist _ (e :: h) Hheap with inspect (advance e h) := {
      | exist _ (Raise x) _ => Raise x
      | exist _ (Ok h') Hadv => merge_loop shard_mb (write_record shard_mb st e h')
    }
}.
Proof.
  rewrite Hheap.
  replace (heap (write_record shard_mb st e h')) with h'
    by (unfold write_record; destruct (_ >=? _); reflexivity).
  eapply advance_weight; eauto.
Qed.

(** [enumerate(l)] *)
Definition enumerate {A : Type} (l : list A) : list (Z * A) :=
  combine (map Z.of_nat (seq 0 (length l))) l.

Definition start_state (h : list entry) : merge_state :=
  {| heap := h; shard_idx := 0; out := []; written_in_shard := 0; records := 0;
     closed := [] |}.

(** Lines 41-84 on the texts of the opened run files: the shards, each with
    the index in its name, and the returned [(records, shard_idx + 1)]. *)
(** Line 46: one generator per opened run file. *)
Definition open_iters (run_files : list str) : list generator :=
  map (fun '(i, fh) => {| gen_i := i; gen_lines := readlines fh |})
    (enumerate run_files).

(** Lines 41-84 on the texts of the opened run files: the shards, each with
    the index in its name, and the returned [(records, shard_idx + 1)]. *)
Definition merge_files (run_files : list str) (shard_mb : Z)
  : outcome (list (Z * str) * (Z * Z)) :=
  heads <- first_heads (open_iters run_files) ;;
  h <- heapify heads ;;
  st <- merge_loop shard_mb (start_state h) ;;
  Ok (closed st ++ [(shard_idx st, out st)], (records st, shard_idx st + 1)).

Definition shard_name (basename : str) (shard_idx : Z) : str :=
  basename ++ lit "_" ++ format_0d 3 shard_idx ++ lit ".tsv".

Definition read_all (fs : filesystem) (ps : list path) : outcome (list str) :=
  fold_right (fun p acc => s <- read_file fs p ;; l <- acc ;; Ok (s :: l)) (Ok []) ps.

Definition write_all (fs : filesystem) (l : list (path * str)) : outcome filesystem :=
  fold_left (fun acc e => fs' <- acc ;; write_file fs' (fst e) (snd e)) l (Ok fs).

(** Lines 37-84.  The run files are read when they are opened; the shards are
    written under [outdir]. *)
Definition merge_sorted_chunks (fs : filesystem) (chunk_paths : list path)
  (outdir : str) (shard_mb : Z) (basename : str) : outcome (filesystem * (Z * Z)) :=
  let fs0 := makedirs fs outdir in
  run_files <- read_all fs0 chunk_paths ;;
  '(shards, ret) <- merge_files run_files shard_mb ;;
  fs' <- write_all fs0
           (map (fun '(idx, s) => ((outdir, shard_name basename idx), s)) shards) ;;
  Ok (fs', ret).

(** ** Document segmenter and driver (lines 86-152) *)

(** The variables of the loop of lines 108-117; a future is kept as the
    arguments [flush_docs] submits. *)
Record seg_state : Type := {
  futures : list (list str * Z);
  doc_buf : list str;
  line_buf : list str;
  next_doc_id : Z
}.

(** Lines 109-117 *)
Definition read_line (lines_per_doc batch_docs : Z) (st : seg_state) (line : str)
  : seg_state :=
  let line_buf' := line_buf st ++ [line] in
  if len line_buf' >=? lines_per_doc then
    let doc_text := concat line_buf' in
    let doc_buf' := doc_buf st ++ [doc_text] in
    if len doc_buf' >=? batch_docs then
      {| futures := futures st ++ [(doc_buf', next_doc_id st)]; doc_buf := [];
         line_buf := []; next_doc_id := next_doc_id st + len doc_buf' |}
    else
      {| futures := futures st; doc_buf := doc_buf'; line_buf := [];
         next_doc_id := next_doc_id st |}
  else
    {| futures := futures st; doc_buf := doc_buf st; line_buf := line_buf';
       next_doc_id := next_doc_id st |}.

(** Lines 119-125 *)
Definition end_of_input (st : seg_state) : seg_state :=
  let doc_buf' :=
    match line_buf st with
    | [] => doc_buf st
    | _ => doc_buf st ++ [concat (line_buf st)]
    end in
  match doc_buf' with
  | [] => {| futures := futures st; doc_buf := []; line_buf := [];
             next_doc_id := next_doc_id st |}
  | _ => {| futures := futures st ++ [(doc_buf', next_doc_id st)]; doc_buf := [];
            line_buf := []; next_doc_id := next_doc_id st + len doc_buf' |}
  end.

(** The batches handed to the map workers, in submission order, each with
    its starting document id. *)
Definition submit_batches (lines : list str) (lines_per_doc batch_docs : Z)
  : list (list str * Z) :=
  futures
    (end_of_input
       (fold_left (read_line lines_per_doc batch_docs) lines
          {| futures := []; doc_buf := []; line_buf := []; next_doc_id := 0 |})).

(** [tempfile.mkdtemp]: the directory [d] it picked now exists. *)
Definition mkdtemp (fs : filesystem) (d : str) : filesystem :=
  {| dirs := d :: dirs fs; files := files fs |}.

(** Lines 127-132; the state is [(fs, total_docs, chunk_paths, chunk_idx)]. *)
Definition spill_result (tmp_dir : str)
  (acc : outcome (filesystem * Z * list path * Z)) (res : postings_t * Z)
  : outcome (filesystem * Z * list path * Z) :=
  '(fs, total_docs, chunk_paths, chunk_idx) <- acc ;;
  '(fs', (p, _)) <- spill_sorted_chunk fs (fst res) tmp_dir chunk_idx ;;
  Ok (fs', total_docs + snd res, chunk_paths ++ [p], chunk_idx + 1).

(** Lines 136-138 *)
Definition remove_chunks (fs : filesystem) (chunk_paths : list path) : filesystem :=
  fold_left (fun fs p => ignore_errors fs (os_remove fs p)) chunk_paths fs.

Definition summary_path (outdir : str) : path := (outdir, lit "resumen.txt").

Section Pipeline.

(** [as_completed(futures)]: the results in the order the workers finish,
    which the thread pool decides. *)
Variable as_completed : list (postings_t * Z) -> list (postings_t * Z).

(** The five lines of the summary, from [outdir], [lines_per_doc],
    [total_docs], [rows] and [nshards]; the text also carries the elapsed
    time, which the embedding does not compute. *)
Variable summary_text : str -> Z -> Z -> Z -> Z -> str.

(** Lines 86-152.  [lines] are the lines of the input file, [tmp_dir] is the
    name [tempfile.mkdtemp] returns; [threads] sizes the pool and so bears on
    [as_completed] only.  The value is the file system afterwards with
    [(total_docs, rows, nshards)], the counts the summary reports. *)
Definition build_inverted_index (fs : filesystem) (tmp_dir : str) (lines : list str)
  (outdir : str) (threads lines_per_doc batch_docs shard_mb : Z)
  : outcome (filesystem * (Z * Z * Z)) :=
  let fs1 := mkdtemp (makedirs fs outdir) tmp_dir in
  let results :=
    map (fun '(docs, start_id) => map_count_docs docs start_id)
      (submit_batches lines lines_per_doc batch_docs) in
  '(fs2, total_docs, chunk_paths, _) <-
    fold_left (spill_result tmp_dir) (as_completed results) (Ok (fs1, 0, [], 0)) ;;
  '(fs3, (rows, nshards)) <-
    merge_sorted_chunks fs2 chunk_paths outdir shard_mb (lit "index") ;;
  let fs4 := remove_chunks fs3 chunk_paths in
  let fs5 := ignore_errors fs4 (os_rmdir fs4 tmp_dir) in
  fs6 <- write_file fs5 (summary_path outdir)
           (summary_text outdir lines_per_doc total_docs rows nshards) ;;
  Ok (fs6, (total_docs, rows, nshards)).

End Pipeline.

(** ** The summary file (lines 145-151) *)

Definition COMMA : char := 44.

(** The digits of [f"{n:,}"], last digit first: a comma after every three
    digits that are followed by another digit. *)
Fixpoint commas (rev_digits : str) : str :=
  match rev_digits with
  | a :: b :: c :: ((_ :: _) as rest) => a :: b :: c :: COMMA :: commas rest
  | _ => rev_digits
  end.

(** [f"{n:,}"] *)
Definition format_thousands (n : Z) : str :=
  match Z.to_int n with
  | Decimal.Pos u => rev (commas (rev (digits u)))
  | Decimal.Neg u => 45 :: rev (commas (rev (digits u)))
  end.

(** Lines 147-151: the text of [resumen.txt]; [elapsed] is the text of
    [t1 - t0] with two decimals, which depends on the clock. *)
Definition summary (elapsed : str) (outdir : str)
  (lines_per_doc total_docs rows nshards : Z) : str :=
  ([205] ++ lit "ndice invertido en '" ++ outdir ++ lit "'" ++ [LF])
  ++ (lit "Docs (bloques de " ++ str_of_int lines_per_doc ++ lit " l" ++ [237]
      ++ lit "neas): " ++ format_thousands total_docs ++ [LF])
  ++ (lit "Postings                        : " ++ format_thousands rows ++ [LF])
  ++ (lit "Shards                          : " ++ str_of_int nshards ++ [LF])
  ++ (lit "Tiempo total                    : " ++ elapsed ++ lit "s" ++ [LF]).

(** ** Word counter: [wordcount.py] *)

(** [c.isspace()]: the white space [str.split()] splits at. *)
Definition is_space (c : char) : bool :=
  in_range 9 13 c || in_range 28 32 c || (c =? 133) || (c =? 160) || (c =? 5760)
  || in_range 8192 8202 c || (c =? 8232) || (c =? 8233) || (c =? 8239)
  || (c =? 8287) || (c =? 12288).

(** [s.split()]: the words between runs of white space; [cur] is the word
    being read. *)
Fixpoint split_words (cur : str) (s : str) : list str :=
  match s with
  | [] => flush cur
  | c :: s' =>
      if is_space c then flush cur ++ split_words [] s'
      else split_words (cur ++ [c]) s'
  end.

Definition str_split (s : str) : list str := split_words [] s.

(** Lines 8-10 *)
Definition map_count (chunk : str) : list (str * Z) := Counter (str_split chunk).

(** Line 21 *)
Definition block_size : Z := 32 * 1024 * 1024.

(** [f.read(n)]: what is read and what is left; a negative [n] reads all.
    The generator reads the bytes of a binary file the same way. *)
Fixpoint read_chars (n : Z) (s : str) : str * str :=
  match s with
  | [] => ([], [])
  | c :: r =>
      if n =? 0 then ([], s)
      else let '(data, rest) := read_chars (n - 1) r in (c :: data, rest)
  end.

(** Lines 32-36: the blocks read until a read returns nothing. *)
Fixpoint read_blocks (fuel : nat) (n : Z) (s : str) : list str :=
  match fuel with
  | O => []
  | S fuel' =>
      let '(data, rest) := read_chars n s in
      match data with
      | [] => []
      | _ => data :: read_blocks fuel' n rest
      end
  end.

(** Every turn but the last one reads a character at least, so one turn
    more than there are characters is enough. *)
Definition blocks (n : Z) (s : str) : list str := read_blocks (S (length s)) n s.

(** [total.update(c)] for a [Counter] [c] *)
Definition counter_update (total c : list (str * Z)) : list (str * Z) :=
  fold_left (fun t '(w, n) => counter_add str_eq_dec t w n) c total.

(** Lines 58-59 *)
Definition report_lines (total : list (str * Z)) : list str :=
  map (fun '(w, n) => w ++ [TAB] ++ str_of_int n ++ [LF]) total.

Section WordCount.

Variable as_completed : list (list (str * Z)) -> list (list (str * Z)).
Variable report_header : Z -> Z -> str.

(** Lines 26-42 on the text of the file, read in blocks of [n] characters:
    [(total, total_palabras, distintas)]. *)
Definition count_words (n : Z) (text : str) : list (str * Z) * Z * Z :=
  let futures := map map_count (blocks n text) in
  let total := fold_left counter_update (as_completed futures) [] in
  (total, sum (map snd total), len total).

(** [ProcessPoolExecutor(max_workers=num_workers)] (line 29): a number of
    workers that is given has to be positive; [None] stands for the number
    of processors.  (Under Windows the pool refuses more than 61 workers as
    well; the embedding is that of POSIX, as for the line ends.) *)
Definition open_pool (num_workers : option Z) : outcome unit :=
  match num_workers with
  | Some w => if w <=? 0 then Raise ValueError else Ok tt
  | None => Ok tt
  end.

(** Lines 26-59: the file is opened, then the pool; the blocks are read and
    counted, the report is written.  [num_workers] is the value of line 18.
    The value is the file system afterwards with
    [(total_palabras, distintas)]. *)
Definition wordcount_main (fs : filesystem) (filename : path) (num_workers : option Z)
  (out_path : path) : outcome (filesystem * (Z * Z)) :=
  text <- read_file fs filename ;;
  _ <- open_pool num_workers ;;
  let '(total, total_palabras, distintas) :=
    count_words block_size (universal_newlines text) in
  fs' <- write_file fs out_path
           (report_header total_palabras distintas ++ concat (report_lines total)) ;;
  Ok (fs', (total_palabras, distintas)).

End WordCount.

(** ** Generator of the data set: [gen_20gb_parallel.py] *)

(** The files of the generator are opened in binary mode: what they hold,
    and what is written to them, is bytes, each a number below 256. *)
Definition bytes := list Z.

(** Line 9 *)
Definition BLOCK_TARGET : Z := 64 * 1024 * 1024.

(** The size of the chunks [concat_files] copies (line 43). *)
Definition COPY_CHUNK : Z := 16 * 1024 * 1024.

(** [range(n)] *)
Definition range (n : Z) : list Z := map Z.of_nat (seq 0 (Z.to_nat n)).

(** Lines 60-62: the bytes every process has to write. *)
Definition quotas (total_bytes procs : Z) : list Z :=
  let base := total_bytes / procs in
  let resto := total_bytes mod procs in
  map (fun i => base + (if i <? resto then 1 else 0)) (range procs).

(** Line 57 *)
Definition procs_of (workers cpu_count : Z) : Z :=
  if 0 <? workers then workers else if cpu_count =? 0 then 1 else cpu_count.

Section Generator.

(** A [Faker]: the texts [fake.text(max_nb_chars=500)] hands out, call after
    call, each as the bytes UTF-8 encodes it with; the number of calls made
    so far is its state. *)
Variable fake : nat -> bytes.

(** Lines 16-19: [k] calls were made, [out] holds the texts so far, each with
    its line feed, [total] their bytes.  A line feed is a byte, so [total]
    grows. *)
Equations? gen_block_loop (approx_bytes : Z) (k : nat) (out : list bytes) (total : Z)
  : list bytes * nat by wf (Z.to_nat (approx_bytes - total)) lt :=
gen_block_loop approx_bytes k out total with Z_lt_dec total approx_bytes := {
  | left _ =>
      gen_block_loop approx_bytes (S k) (out ++ [fake k ++ [LF]])
        (total + len (fake k ++ [LF]))
  | right _ => (out, k)
}.
Proof.
  unfold len. rewrite length_app. simpl. lia.
Qed.

(** Lines 11-20: the block and the calls made. *)
Definition gen_block (approx_bytes : Z) (k : nat) : bytes * nat :=
  let '(out, k') := gen_block_loop approx_bytes k [] 0 in (concat out, k').

Lemma gen_block_loop_size (approx_bytes : Z) (k : nat) (out : list bytes) (total : Z) :
  total = len (concat out) ->
  approx_bytes <= len (concat (fst (gen_block_loop approx_bytes k out total))).
Proof.
  funelim (gen_block_loop approx_bytes k out total); intros Htotal.
  - apply H. rewrite Htotal. unfold len. rewrite concat_app, !length_app. simpl.
    rewrite app_nil_r, length_app. simpl. lia.
  - simpl. lia.
Qed.

Lemma gen_block_size (approx_bytes : Z) (k : nat) :
  approx_bytes <= len (fst (gen_block approx_bytes k)).
Proof.
  unfold gen_block. pose proof (gen_block_loop_size approx_bytes k [] 0 eq_refl) as H.
  destruct (gen_block_loop approx_bytes k [] 0). exact H.
Qed.

(** Lines 29-34: [k] calls were made, [content] is what was written,
    [written] its size.  A block is as large as was asked for, a byte at
    least, so [written] grows. *)
Equations? worker_loop (bytes_goal : Z) (k : nat) (content : bytes) (written : Z)
  : bytes * Z by wf (Z.to_nat (bytes_goal - written)) lt :=
worker_loop bytes_goal k content written with Z_lt_dec written bytes_goal := {
  | left _ =>
      let remaining := bytes_goal - written in
      let block_size := if remaining >? BLOCK_TARGET then BLOCK_TARGET else remaining in
      worker_loop bytes_goal (snd (gen_block block_size k))
        (content ++ fst (gen_block block_size k))
        (written + len (fst (gen_block block_size k)))
  | right _ => (content, written)
}.
Proof.
  repeat match goal with x := _ |- _ => subst x end.
  set (b := if _ >? _ then _ else _).
  pose proof (gen_block_size b k) as H.
  assert (1 <= b); [|lia].
  unfold b. destruct (bytes_goal - written >? BLOCK_TARGET); unfold BLOCK_TARGET; lia.
Qed.

End Generator.

(** Line 26 *)
Definition part_name (idx : Z) : str :=
  lit "parte_" ++ format_0d 3 idx ++ lit ".txt".

(** Lines 22-35: the part is written, and [(idx, tmp_path, written)] goes
    into the queue. *)
Definition worker (fake : nat -> bytes) (fs : filesystem) (idx bytes_goal : Z)
  (tmp_dir : str) : outcome (filesystem * (Z * path * Z)) :=
  let p := (tmp_dir, part_name idx) in
  let '(content, written) := worker_loop fake bytes_goal 0 [] 0 in
  fs' <- write_file fs p content ;;
  Ok (fs', (idx, p, written)).

(** [out.write(chunk)] on a file open for writing: the chunk goes behind
    what the file holds. *)
Definition append_file (fs : filesystem) (p : path) (data : bytes)
  : outcome filesystem :=
  s <- read_file fs p ;;
  write_file fs p (s ++ data).

(** Lines 41-46: one part, chunk after chunk. *)
Definition copy_part (fs : filesystem) (final_path p : path) : outcome filesystem :=
  data <- read_file fs p ;;
  fold_left (fun acc chunk => fs' <- acc ;; append_file fs' final_path chunk)
    (blocks COPY_CHUNK data) (Ok fs).

(** Lines 37-46.  Here a chunk is in the final file as soon as it is
    written, where Python holds it back in a buffer.  The two differ only when
    the final file is itself one of the parts, which the properties rule out
    and [main] never does. *)
Definition concat_files (fs : filesystem) (part_paths : list path) (final_path : path)
  : outcome filesystem :=
  fs0 <- write_file fs final_path [] ;;
  fold_left (fun acc p => fs' <- acc ;; copy_part fs' final_path p) part_paths (Ok fs0).

(** [results.sort(key=lambda x: x[0])]: a stable sort by [idx]. *)
Fixpoint insert_result (r : Z * path * Z) (l : list (Z * path * Z))
  : list (Z * path * Z) :=
  match l with
  | [] => [r]
  | x :: l' => if fst (fst x) <? fst (fst r) then x :: insert_result r l' else r :: l
  end.

Definition sort_results (l : list (Z * path * Z)) : list (Z * path * Z) :=
  fold_right insert_result [] l.

(** [os.path.getsize(p)] *)
Definition getsize (fs : filesystem) (p : path) : outcome Z :=
  s <- read_file fs p ;; Ok (len s).

Section GeneratorMain.

(** The [Faker] of every process, and the order in which the processes put
    their results into the queue (lines 74-76). *)
Variable fakes : Z -> nat -> bytes.
Variable as_completed : list (Z * path * Z) -> list (Z * path * Z).

(** Lines 69-72 and 22-35: process [i] writes its part.  The processes
    write different files, so that it makes no difference to run them one
    after the other; the order in which they report is [as_completed]. *)
Definition run_worker (tmp_dir : str)
  (acc : outcome (filesystem * list (Z * path * Z))) (iq : Z * Z)
  : outcome (filesystem * list (Z * path * Z)) :=
  '(fs, put) <- acc ;;
  '(fs', r) <- worker (fakes (fst iq)) fs (fst iq) (snd iq) tmp_dir ;;
  Ok (fs', put ++ [r]).

(** Lines 56-102, from the number of bytes asked for; [tmp_dir] is the name
    [tempfile.mkdtemp] returns.  The value is the file system afterwards with
    [(produced, final_size)]. *)
Definition gen_main (fs : filesystem) (tmp_dir : str) (salida : path)
  (total_bytes workers cpu_count : Z) : outcome (filesystem * (Z * Z)) :=
  let procs := procs_of workers cpu_count in
  let fs1 := mkdtemp fs tmp_dir in
  '(fs2, put) <-
    fold_left (run_worker tmp_dir) (enumerate (quotas total_bytes procs)) (Ok (fs1, [])) ;;
  let results := sort_results (as_completed put) in
  let part_paths := map (fun r => snd (fst r)) results in
  let produced := sum (map snd results) in
  fs3 <- concat_files fs2 part_paths salida ;;
  final_size <- getsize fs3 salida ;;
  let fs4 := remove_chunks fs3 part_paths in
  let fs5 := ignore_errors fs4 (os_rmdir fs4 tmp_dir) in
  Ok (fs5, (produced, final_size)).

End GeneratorMain.

(** ** Notions the properties are stated with *)

(** [ts] are the maximal runs of characters satisfying [P] in [s], in order
    of occurrence: [s] is a gap, then a run, then a gap, ..., where a gap
    holds no character of [P], a run is not empty and holds only characters
    of [P], and what follows a run does not start with a character of [P]. *)
Definition starts_outside (P : char -> bool) (s : str) : Prop :=
  match s with
  | [] => True
  | c :: _ => P c = false
  end.

Inductive maximal_runs (P : char -> bool) : str -> list str -> Prop :=
| runs_end : forall gap,
    Forall (fun c => P c = false) gap ->
    maximal_runs P gap []
| runs_next : forall gap t rest ts,
    Forall (fun c => P c = false) gap ->
    t <> [] ->
    Forall (fun c => P c = true) t ->
    starts_outside P rest ->
    maximal_runs P rest ts ->
    maximal_runs P (gap ++ t ++ rest) (t :: ts).

(** The block Latin Extended-A, U+0100 to U+017F: every code point of it is
    a letter in Unicode (Ā, č, ł, ő, ş, ...). *)
Definition latin_extended_a (c : char) : bool := in_range 256 383 c.

(** The reference the index is compared with: every document on its own,
    its tokens counted directly; document ids count up from [did]. *)
Definition reference_doc (did : Z) (txt : str) : list row :=
  let toks := tokenize txt in
  map (fun t => (t, did, Z.of_nat (count_occ str_eq_dec toks t)))
    (nodup str_eq_dec toks).

Fixpoint reference_from (did : Z) (docs : list str) : list row :=
  match docs with
  | [] => []
  | txt :: rest => reference_doc did txt ++ reference_from (did + 1) rest
  end.

(** Groups of [n] consecutive items, the last group holding what is left. *)
Fixpoint chunk_by {A : Type} (fuel n : nat) (l : list A) : list (list A) :=
  match fuel, l with
  | S fuel', _ :: _ => firstn n l :: chunk_by fuel' n (skipn n l)
  | _, _ => []
  end.

Definition groups_of {A : Type} (n : nat) (l : list A) : list (list A) :=
  chunk_by (length l) n l.

(** The reference index of an input: the documents are the groups of
    [lines_per_doc] lines (the code treats a value below 1 as 1), numbered from
    0. *)
Definition reference_index (lines : list str) (lines_per_doc : Z) : list row :=
  reference_from 0
    (map (@concat char) (groups_of (Z.to_nat (Z.max 1 lines_per_doc)) lines)).

(** [a < b] on [str] *)
Definition str_lt (a b : str) : Prop := str_compare a b = Lt.

(** The key the spiller sorts by: [(term, doc_id)]. *)
Definition row_key (r : row) : str * Z := (row_term r, row_doc r).

(** [(term, doc)] of [a] is not greater than [(term, doc)] of [b]. *)
Definition key_le (a b : row) : Prop := key_lt b a = false.

(** The order of the heap items, component by component. *)
Definition entry_lt (a b : entry) : Prop :=
  str_lt (row_term (e_row a)) (row_term (e_row b))
  \/ (row_term (e_row a) = row_term (e_row b)
      /\ (row_doc (e_row a) < row_doc (e_row b)
          \/ (row_doc (e_row a) = row_doc (e_row b)
              /\ (row_tf (e_row a) < row_tf (e_row b)
                  \/ (row_tf (e_row a) = row_tf (e_row b)
                      /\ e_src a < e_src b))))).

(** The states the loop goes through from [st0]. *)
Inductive reachable (shard_mb : Z) (st0 : merge_state) : merge_state -> Prop :=
| reach_start : reachable shard_mb st0 st0
| reach_turn : forall st e h h',
    reachable shard_mb st0 st ->
    heap st = e :: h ->
    advance e h = Ok h' ->
    reachable shard_mb st0 (write_record shard_mb st e h').

(** The text of a run or of a shard: its rows, one per line. *)
Definition rows_text (rows : list row) : str := concat (map fmt_row rows).

(** A row the text format can carry: its term has no tab and no line end. *)
Definition clean_row (r : row) : Prop :=
  ~ In TAB (row_term r) /\ ~ In LF (row_term r) /\ ~ In CR (row_term r).

(** The size of a text in its file: the files are opened with
    [encoding="utf-8"], which takes 1 to 4 bytes per code point. *)
Definition utf8_len (c : char) : Z :=
  if c <? 128 then 1 else if c <? 2048 then 2 else if c <? 65536 then 3 else 4.

Definition byte_size (s : str) : Z :=
  fold_right (fun c n => utf8_len c + n) 0 s.

(** The rows of a shard file, read back line by line. *)
Definition read_rows (s : str) : outcome (list row) :=
  fold_right (fun line acc => r <- parse_line line ;; l <- acc ;; Ok (r :: l))
    (Ok []) (readlines s).

(** The rows of the shard files 0, ..., [nshards - 1] of [outdir], in this
    order. *)
Definition read_shards (fs : filesystem) (outdir basename : str) (nshards : Z)
  : outcome (list row) :=
  fold_right
    (fun k acc =>
       s <- read_file fs (outdir, shard_name basename (Z.of_nat k)) ;;
       rs <- read_rows s ;;
       l <- acc ;;
       Ok (rs ++ l))
    (Ok []) (seq 0 (Z.to_nat nshards)).

(** What [tempfile.mkdtemp] promises of the name it returns: no such
    directory, and no file under it. *)
Definition fresh_dir (fs : filesystem) (d : str) : Prop :=
  ~ In d (dirs fs)
  /\ forall name, read_file fs (d, name) = Raise FileNotFoundError.

(** A code point UTF-8 cannot encode: a surrogate, U+D800 to U+DFFF.  A
    text without one can be written to a file opened with
    [encoding="utf-8"]; with one, the write raises [UnicodeEncodeError]. *)
Definition surrogate (c : char) : bool := in_range 55296 57343 c.

Definition encodable (s : str) : Prop := Forall (fun c => surrogate c = false) s.

(** CPython, from 3.11 on, refuses by default to convert between [str] and
    [int] beyond 4300 digits. *)
Definition within_digit_limit (n : Z) : Prop := Z.abs n < 10 ^ 4300.

(** A row Python writes as a line without an exception. *)
Definition writable_row (r : row) : Prop :=
  encodable (row_term r)
  /\ within_digit_limit (row_doc r)
  /\ within_digit_limit (row_tf r).

(** A row of ordinary size, by a test that can be run: no surrogate in the
    term, integers below 10000. *)
Definition small_row (r : row) : bool :=
  forallb (fun c => negb (surrogate c)) (row_term r)
  && (Z.abs (row_doc r) <? 10000) && (Z.abs (row_tf r) <? 10000).

(** ** Notions of the proofs *)

(** The count a [Counter] holds for [t], 0 when [t] is not a key. *)
Definition count_of (c : list (str * Z)) (t : str) : Z :=
  match dict_get str_eq_dec c t with
  | Some v => v
  | None => 0
  end.

(** The documents cut so far, submitted or still buffered. *)
Definition docs_so_far (st : seg_state) : list str :=
  concat (map fst (futures st)) ++ doc_buf st.

(** Every batch starts at the number of documents in the batches before it. *)
Definition starts_at_count (bs : list (list str * Z)) : Prop :=
  forall pre b post, bs = pre ++ b :: post -> snd b = len (concat (map fst pre)).

(** What the segmenter keeps true: the batches submitted start where they
    should, and [next_doc_id] is the number of documents submitted. *)
Definition seg_inv (st : seg_state) : Prop :=
  starts_at_count (futures st)
  /\ next_doc_id st = len (concat (map fst (futures st))).

(** [0-9] *)
Definition is_digit (c : char) : bool := in_range 48 57 c.

(** The rows a text holds, line by line; lines that do not parse are left out. *)
Definition parsed (lines : list str) : list row :=
  flat_map (fun l => match parse_line l with Ok r => [r] | Raise _ => [] end) lines.

(** The rows a heap item stands for: its own and those its run still holds. *)
Definition pending (e : entry) : list row :=
  e_row e :: parsed (gen_lines (e_it e)).

(** The heap item of the next row of the run of [e]. *)
Definition next_entry (e : entry) (r : row) (rest : list str) : entry :=
  {| e_row := r; e_src := e_src e;
     e_it := {| gen_i := gen_i (e_it e); gen_lines := rest |} |}.

(** A heap item over a run in the format of the spiller: the lines left are
    the text of clean rows. *)
Definition wf_entry (e : entry) : Prop :=
  Forall clean_row (pending e)
  /\ gen_lines (e_it e) = map fmt_row (parsed (gen_lines (e_it e))).

(** A heap of such items, in order, one per run. *)
Definition heap_ok (h : list entry) : Prop :=
  StronglySorted entry_lt h /\ NoDup (map e_src h) /\ Forall wf_entry h.

(** The turns of the loop of lines 62-79, with the heap items they pop: from
    [st] the loop pops [tr], in this order, and stops in [st']. *)
Inductive pops (shard_mb : Z) : merge_state -> list entry -> merge_state -> Prop :=
| pops_done : forall st,
    heap st = [] ->
    pops shard_mb st [] st
| pops_turn : forall st e h h' tr st',
    heap st = e :: h ->
    advance e h = Ok h' ->
    pops shard_mb (write_record shard_mb st e h') tr st' ->
    pops shard_mb st (e :: tr) st'.

(** The text written so far, over all shards. *)
Definition written_text (st : merge_state) : str :=
  concat (map snd (closed st)) ++ out st.

(** The heap items line 48-53 make from runs given as rows: one per run that
    is not empty, with the index of the run. *)
Definition run_heads (runs : list (Z * list row)) : list entry :=
  flat_map
    (fun '(i, rows) =>
       match rows with
       | [] => []
       | r :: rest =>
           [{| e_row := r; e_src := i;
               e_it := {| gen_i := i; gen_lines := map fmt_row rest |} |}]
       end)
    runs.

(** The shards as groups of rows: [gs] are the rows of the closed shards,
    [g] those of the open one. *)
Definition shards_inv (mb : Z) (st : merge_state) (gs : list (list row))
  (g : list row) : Prop :=
  map snd (closed st) = map rows_text gs
  /\ out st = rows_text g
  /\ written_in_shard st = len (out st)
  /\ Forall (fun s => mb * 1024 * 1024 <= len s) (map snd (closed st))
  /\ map fst (closed st) = map Z.of_nat (seq 0 (length (closed st)))
  /\ shard_idx st = len (closed st).

(** With a threshold below every row: the open shard is empty at every turn,
    and the closed shards hold the rows written so far, one each. *)
Definition own_shard_inv (st : merge_state) (emitted : list row) : Prop :=
  out st = []
  /\ written_in_shard st = 0
  /\ closed st = enumerate (map fmt_row emitted)
  /\ shard_idx st = len emitted
  /\ records st = len emitted.

(** The text [spill_sorted_chunk] writes for the result of a worker. *)
Definition run_rows (res : postings_t * Z) : list row :=
  sort_rows (rows_of (fst res)).

(** What the workers return, in the order of submission (line 106). *)
Definition worker_results (lines : list str) (lines_per_doc batch_docs : Z)
  : list (postings_t * Z) :=
  map (fun '(docs, start_id) => map_count_docs docs start_id)
    (submit_batches lines lines_per_doc batch_docs).


(** What the segmenter keeps true of its batches: those submitted hold [n]
    documents each, and fewer than [n] documents are waiting. *)
Definition batch_inv (n : nat) (st : seg_state) : Prop :=
  Forall (fun b => length (fst b) = n) (futures st)
  /\ (length (doc_buf st) < n)%nat.

(** The variables of the merge loop that the shard writer owns: all of them
    but the heap. *)
Definition shard_writer (st : merge_state) : Z * str * Z * Z * list (Z * str) :=
  (shard_idx st, out st, written_in_shard st, records st, closed st).

(** The number [k] has three digits in a shard name, and the name of shard
    [k] sorts before the name of shard [k + 1]. *)
Definition three_digits_in_order (k : nat) : bool :=
  (length (format_0d 3 (Z.of_nat k)) =? 3)%nat
  && match str_compare (format_0d 3 (Z.of_nat k)) (format_0d 3 (Z.of_nat (S k))) with
     | Lt => true
     | _ => false
     end.

(** The names of the run files [idx], [idx + 1], ... under [tmp_dir]. *)
Fixpoint chunk_paths_from (tmp_dir : str) (idx : Z) (n : nat) : list path :=
  match n with
  | O => []
  | S n' => (tmp_dir, chunk_name idx) :: chunk_paths_from tmp_dir (idx + 1) n'
  end.

(** The files the shard writer writes: shard [k] holds the rows of group [k]. *)
Definition shard_writes (outdir basename : str) (groups : list (list row))
  : list (path * str) :=
  map (fun kg => ((outdir, shard_name basename (Z.of_nat (fst kg))), rows_text (snd kg)))
    (combine (seq 0 (length groups)) groups).

(** ** A small input *)

(** An empty file system, and three one-line documents in two batches whose
    workers finish in reverse order. *)
Definition no_files : filesystem := {| dirs := []; files := [] |}.

Definition three_lines : list str :=
  [lit "la casa" ++ [LF]; lit "Casa, casa!" ++ [LF]; lit "..." ++ [LF]].

Definition plain_summary (outdir : str) (lines_per_doc total_docs rows nshards : Z)
  : str :=
  lit "Docs " ++ str_of_int total_docs ++ lit " Postings " ++ str_of_int rows
  ++ lit " Shards " ++ str_of_int nshards.

(** Two run files, the heap items of their first rows, and the item that
    follows the first one in its run. *)
Definition two_runs : list str :=
  [rows_text [(lit "ana", 0, 1); (lit "casa", 0, 2)]; rows_text [(lit "boda", 1, 1)]].

Definition item_ana : entry :=
  {| e_row := (lit "ana", 0, 1); e_src := 0;
     e_it := {| gen_i := 0; gen_lines := [fmt_row (lit "casa", 0, 2)] |} |}.

Definition item_boda : entry :=
  {| e_row := (lit "boda", 1, 1); e_src := 1;
     e_it := {| gen_i := 1; gen_lines := [] |} |}.

Definition item_casa : entry :=
  {| e_row := (lit "casa", 0, 2); e_src := 0;
     e_it := {| gen_i := 0; gen_lines := [] |} |}.

(** A term of 1 MiB, and two runs of one row each with such a term. *)
Definition long_term (c : char) : str := repeat c (Z.to_nat (1024 * 1024)).

Definition long_runs : list (list row) :=
  [[(long_term 97, 0, 1)]; [(long_term 98, 1, 1)]].





(** ** Notions for the summary, the word counter and the generator *)

(** The text without its commas. *)
Definition remove_commas (s : str) : str := filter (fun c => negb (c =? COMMA)) s.

(** The words the workers see: those of every block on its own. *)
Definition block_words (n : Z) (text : str) : list str :=
  flat_map str_split (blocks n text).

(** The texts of the calls [k], ..., [k' - 1], each with its line feed. *)
Definition fake_texts (fake : nat -> bytes) (k k' : nat) : list bytes :=
  map (fun i => fake i ++ [LF]) (seq k (k' - k)).

(** What a step that writes [final] only leaves behind. *)
Definition only_final (final : path) (fs : filesystem) (r : outcome filesystem) : Prop :=
  match r with
  | Ok fs' => forall q, q <> final -> read_file fs' q = read_file fs q
  | Raise x => x = FileNotFoundError
  end.

(** What process [idx] writes for the quota [quota]. *)
Definition part (fakes : Z -> nat -> bytes) (idx quota : Z) : bytes :=
  fst (worker_loop (fakes idx) quota 0 [] 0).

(** Line 26 *)
Definition part_path (tmp_dir : str) (idx : Z) : path := (tmp_dir, part_name idx).

(** What process [idx] puts into the queue (line 35). *)
Definition result_of (fakes : Z -> nat -> bytes) (tmp_dir : str) (iq : Z * Z)
  : Z * path * Z :=
  (fst iq, part_path tmp_dir (fst iq), len (part fakes (fst iq) (snd iq))).

(** The order of line 82, and its strict part. *)
Definition idx_le (a b : Z * path * Z) : Prop := fst (fst a) <= fst (fst b).
Definition idx_lt (a b : Z * path * Z) : Prop := fst (fst a) < fst (fst b).

(** The parts of a run, in the order of the processes. *)
Definition parts (fakes : Z -> nat -> bytes) (total_bytes procs : Z) : list bytes :=
  map (fun iq => part fakes (fst iq) (snd iq)) (enumerate (quotas total_bytes procs)).

(** ** Small inputs of the word counter and the generator *)

(** A directory with one text file. *)
Definition one_text : filesystem :=
  {| dirs := [lit "datos"];
     files := [((lit "datos", lit "texto.txt"), lit "la casa la boda")] |}.

Definition plain_header (total_palabras distintas : Z) : str :=
  lit "# Total de palabras: " ++ str_of_int total_palabras ++ [LF]
  ++ lit "# Palabras distintas: " ++ str_of_int distintas ++ [LF].

(** A [Faker] that hands out the same word at every call, and one per
    process. *)
Definition fake_hola (k : nat) : bytes := lit "hola".

Definition fakes_hola (idx : Z) (k : nat) : bytes := lit "hola".

(** Two parts in a temporary directory, and a directory for the data set. *)
Definition two_parts : filesystem :=
  {| dirs := [lit "tmp"; lit "datos"];
     files := [((lit "tmp", lit "parte_000.txt"), lit "uno" ++ [LF]);
               ((lit "tmp", lit "parte_001.txt"), lit "dos" ++ [LF])] |}.

Definition data_dir : filesystem := {| dirs := [lit "datos"]; files := [] |}.

(** * Properties *)

(** ** Tokenizer *)

Lemma flush_app (cur t : str) : t <> [] -> flush (cur ++ t) = [cur ++ t].
Proof.
  intros Ht. destruct cur; simpl; [destruct t; [congruence | reflexivity] | reflexivity].
Qed.

Lemma finditer_gap (gap s : str) :
  Forall (fun c => token_char c = false) gap ->
  finditer [] (gap ++ s) = finditer [] s.
Proof.
  induction 1 as [|c gap Hc _ IH]; simpl; [reflexivity|].
  rewrite Hc. exact IH.
Qed.

Lemma finditer_run (t rest cur : str) :
  Forall (fun c => token_char c = true) t ->
  starts_outside token_char rest ->
  finditer cur (t ++ rest) = flush (cur ++ t) ++ finditer [] rest.
Proof.
  intros Ht Hrest. revert cur.
  induction Ht as [|c t Hc _ IH]; intros cur; simpl.
  - rewrite app_nil_r. destruct rest as [|c rest]; simpl.
    + rewrite app_nil_r. reflexivity.
    + simpl in Hrest. rewrite Hrest. reflexivity.
  - rewrite Hc, IH, <- app_assoc. reflexivity.
Qed.

Lemma maximal_runs_unique (s : str) (ts : list str) :
  maximal_runs token_char s ts -> ts = finditer [] s.
Proof.
  induction 1 as [gap Hgap | gap t rest ts Hgap Hne Ht Hrest _ IH].
  - rewrite <- (app_nil_r gap), finditer_gap by assumption. reflexivity.
  - rewrite finditer_gap, finditer_run by assumption.
    rewrite (flush_app [] t Hne). simpl. f_equal. exact IH.
Qed.

Lemma maximal_runs_skip (c : char) (s : str) (ts : list str) :
  token_char c = false ->
  maximal_runs token_char s ts -> maximal_runs token_char (c :: s) ts.
Proof.
  intros Hc H. inversion H as [gap Hgap | gap t rest ts' Hgap Hne Ht Hrest Hruns]; subst.
  - apply runs_end. constructor; assumption.
  - change (c :: gap ++ t ++ rest) with ((c :: gap) ++ t ++ rest).
    apply runs_next; try assumption. constructor; assumption.
Qed.

Lemma finditer_splits (s : str) :
  maximal_runs token_char s (finditer [] s)
  /\ forall cur, cur <> [] ->
       exists t rest ts,
         s = t ++ rest
         /\ Forall (fun c => token_char c = true) t
         /\ starts_outside token_char rest
         /\ maximal_runs token_char rest ts
         /\ finditer cur s = (cur ++ t) :: ts.
Proof.
  induction s as [|c s [IHrun IHcur]].
  - split.
    + apply runs_end. constructor.
    + intros cur Hcur. exists [], [], []. rewrite !app_nil_r.
      repeat split; try (repeat constructor; fail).
      destruct cur; [congruence | reflexivity].
  - split.
    + simpl. destruct (token_char c) eqn:Hc.
      * destruct (IHcur [c]) as (t & rest & ts & -> & Ht & Hrest & Hruns & ->);
          [discriminate|].
        apply (runs_next token_char [] (c :: t));
          [constructor | discriminate | constructor; assumption | assumption
          | assumption].
      * apply maximal_runs_skip; assumption.
    + intros cur Hcur. simpl. destruct (token_char c) eqn:Hc.
      * destruct (IHcur (cur ++ [c])) as (t & rest & ts & -> & Ht & Hrest & Hruns & ->).
        { destruct cur; discriminate. }
        exists (c :: t), rest, ts. rewrite <- app_assoc.
        repeat split; try assumption. constructor; assumption.
      * exists [], (c :: s), (finditer [] s). rewrite !app_nil_r.
        repeat split; try assumption; try (constructor; fail).
        -- apply maximal_runs_skip; assumption.
        -- destruct cur; [congruence | reflexivity].
Qed.

Lemma maximal_runs_in_class (P : char -> bool) (s : str) (ts : list str) :
  maximal_runs P s ts -> Forall (Forall (fun c => P c = true)) ts.
Proof.
  induction 1; constructor; assumption.
Qed.

(** Boolean range tests as linear arithmetic. *)
Ltac ranges :=
  unfold token_char, in_range, APOSTROPHE, TAB, LF, CR in *;
  rewrite ?orb_true_iff, ?orb_false_iff, ?andb_true_iff, ?andb_false_iff,
    ?Z.leb_le, ?Z.leb_gt, ?Z.eqb_eq, ?Z.eqb_neq in *.

Lemma lower_char_in_class (c : char) :
  token_char c = true -> token_char (lower_char c) = true.
Proof.
  unfold lower_char. intros H.
  destruct (in_range 65 90 c || in_range 192 214 c || in_range 216 222 c) eqn:E;
    [|exact H].
  ranges. lia.
Qed.

Lemma lower_in_class (t : str) :
  Forall (fun c => token_char c = true) t ->
  Forall (fun c => token_char c = true) (lower t).
Proof.
  induction 1; simpl; constructor; auto using lower_char_in_class.
Qed.

Lemma tokens_in_class (s : str) :
  Forall (Forall (fun c => token_char c = true)) (tokenize s).
Proof.
  unfold tokenize.
  pose proof (maximal_runs_in_class _ _ _ (proj1 (finditer_splits s))) as H.
  induction H; simpl; constructor; auto using lower_in_class.
Qed.

(** C4, as the code has it: [tokenize] returns, for every string, the maximal
    runs of characters of the class [A-Za-zÀ-ÖØ-öø-ÿ0-9'] in order of
    occurrence, each lowered; the runs are determined by the string, every
    character outside the class (other Unicode letters and digits too) only
    separates tokens, every character of a token is in the class, and the
    empty string gives no token. *)
Theorem tokenize_class_runs (s : str) :
  exists raw,
    maximal_runs token_char s raw
    /\ (forall raw', maximal_runs token_char s raw' -> raw' = raw)
    /\ tokenize s = map lower raw
    /\ Forall (Forall (fun c => token_char c = true)) (tokenize s)
    /\ tokenize [] = [].
Proof.
  exists (finditer [] s). split; [apply finditer_splits|].
  split; [apply maximal_runs_unique|].
  split; [reflexivity|]. split; [apply tokens_in_class | reflexivity].
Qed.

(** C4 as stated fails: in "čaj" the first character is U+010D, a letter of
    Latin Extended-A, yet [tokenize] treats it as a delimiter and returns the
    single token "aj"; so the tokens are not the maximal runs of letters,
    digits and apostrophes once the letters of that block count as letters. *)
Lemma tokenize_splits_at_unicode_letter :
  latin_extended_a 269 = true
  /\ tokenize [269; 97; 106] = [[97; 106]]
  /\ ~ maximal_runs (fun c => token_char c || latin_extended_a c)
         [269; 97; 106] (finditer [] [269; 97; 106]).
Proof.
  split; [reflexivity|]. split; [reflexivity|].
  change (finditer [] [269; 97; 106]) with [[97; 106]].
  intros H. inversion H as [| gap t rest ts Hgap Hne Ht Hout Hrest Heq]; subst.
  destruct gap as [|g gap]; simpl in Heq; [discriminate|].
  injection Heq as -> _. inversion Hgap as [|? ? Hg _]. discriminate Hg.
Qed.

(** ** Dictionaries *)

Section DictFacts.
Context {K V : Type}.
Variable eq_dec : forall a b : K, {a = b} + {a <> b}.

Lemma dict_update_keys (d : list (K * V)) (k : K) (f : option V -> V) (k' : K) :
  In k' (map fst (dict_update eq_dec d k f)) <-> k' = k \/ In k' (map fst d).
Proof.
  induction d as [|[k0 v0] d IH]; simpl.
  - intuition congruence.
  - destruct (eq_dec k k0) as [->|Hne]; simpl; [intuition|].
    rewrite IH. intuition.
Qed.

Lemma dict_update_NoDup (d : list (K * V)) (k : K) (f : option V -> V) :
  NoDup (map fst d) -> NoDup (map fst (dict_update eq_dec d k f)).
Proof.
  induction d as [|[k0 v0] d IH]; simpl; intros H.
  - constructor; [intros []|constructor].
  - inversion H as [|? ? Hnotin Hd]; subst.
    destruct (eq_dec k k0) as [->|Hne]; simpl; [constructor; assumption|].
    constructor; [|auto].
    rewrite dict_update_keys. intuition congruence.
Qed.

Lemma dict_get_update (d : list (K * V)) (k : K) (f : option V -> V) (k' : K) :
  dict_get eq_dec (dict_update eq_dec d k f) k'
  = if eq_dec k' k then Some (f (dict_get eq_dec d k)) else dict_get eq_dec d k'.
Proof.
  induction d as [|[k0 v0] d IH]; simpl.
  - destruct (eq_dec k' k); reflexivity.
  - destruct (eq_dec k k0) as [->|Hne]; simpl.
    + destruct (eq_dec k' k0); reflexivity.
    + rewrite IH. destruct (eq_dec k' k0) as [->|]; [|reflexivity].
      destruct (eq_dec k0 k); [congruence | reflexivity].
Qed.

Lemma dict_get_keys (d : list (K * V)) (k : K) :
  dict_get eq_dec d k = None <-> ~ In k (map fst d).
Proof.
  induction d as [|[k0 v0] d IH]; simpl; [intuition|].
  destruct (eq_dec k k0) as [->|Hne]; [|rewrite IH]; intuition congruence.
Qed.

Lemma dict_get_In (d : list (K * V)) (k : K) (v : V) :
  NoDup (map fst d) -> (In (k, v) d <-> dict_get eq_dec d k = Some v).
Proof.
  induction d as [|[k0 v0] d IH]; simpl; intros H.
  - intuition discriminate.
  - inversion H as [|? ? Hnotin Hd]; subst.
    destruct (eq_dec k k0) as [->|Hne].
    + split; [|intros [= ->]; auto].
      intros [[= ->]|Hin]; [reflexivity|].
      exfalso. apply Hnotin. apply (in_map fst) in Hin. exact Hin.
    + rewrite <- (IH Hd). intuition congruence.
Qed.

Lemma dict_update_fresh (d : list (K * V)) (k : K) (f : option V -> V) :
  ~ In k (map fst d) -> dict_update eq_dec d k f = d ++ [(k, f None)].
Proof.
  induction d as [|[k0 v0] d IH]; simpl; intros H; [reflexivity|].
  destruct (eq_dec k k0) as [->|Hne]; [tauto|].
  rewrite IH by tauto. reflexivity.
Qed.

End DictFacts.

(** ** Counting tokens *)

Lemma counter_fold (toks : list str) (c : list (str * Z)) :
  NoDup (map fst c) ->
  let c' := fold_left (fun c t => counter_add str_eq_dec c t 1) toks c in
  NoDup (map fst c')
  /\ (forall t, In t (map fst c') <-> In t (map fst c) \/ In t toks)
  /\ (forall t, count_of c' t = count_of c t + Z.of_nat (count_occ str_eq_dec toks t)).
Proof.
  revert c. induction toks as [|x toks IH]; intros c Hc; simpl.
  - repeat split; auto; try tauto. intros t. lia.
  - destruct (IH (counter_add str_eq_dec c x 1)) as (Hnd & Hkeys & Hcount).
    { apply dict_update_NoDup, Hc. }
    split; [exact Hnd|]. split.
    + intros t. rewrite Hkeys. unfold counter_add. rewrite dict_update_keys.
      intuition congruence.
    + intros t. rewrite Hcount. unfold count_of, counter_add.
      rewrite dict_get_update.
      destruct (str_eq_dec x t) as [->|Hne].
      * destruct (str_eq_dec t t); [|congruence].
        destruct (dict_get str_eq_dec c t); lia.
      * destruct (str_eq_dec t x); [congruence|].
        destruct (dict_get str_eq_dec c t); lia.
Qed.

Lemma Counter_NoDup (toks : list str) : NoDup (map fst (Counter toks)).
Proof. apply (counter_fold toks []). constructor. Qed.

Lemma Counter_spec (toks : list str) (t : str) (v : Z) :
  In (t, v) (Counter toks)
  <-> In t toks /\ v = Z.of_nat (count_occ str_eq_dec toks t).
Proof.
  destruct (counter_fold toks [] (NoDup_nil _)) as (Hnd & Hkeys & Hcount).
  fold (Counter toks) in *. rewrite (dict_get_In str_eq_dec _ _ _ Hnd).
  specialize (Hkeys t). specialize (Hcount t). unfold count_of in Hcount.
  simpl in Hkeys, Hcount. split.
  - intros Hget. rewrite Hget in Hcount. split; [|exact Hcount].
    destruct (in_dec str_eq_dec t (map fst (Counter toks))) as [Hin|Hn];
      [tauto|]. apply (dict_get_keys str_eq_dec) in Hn. congruence.
  - intros [Hin ->].
    destruct (dict_get str_eq_dec (Counter toks) t) as [v|] eqn:Hget;
      [congruence|].
    apply (dict_get_keys str_eq_dec) in Hget. tauto.
Qed.

Lemma Counter_reference (did : Z) (txt : str) :
  Permutation
    (map (fun '(term, tf) => (term, did, tf)) (Counter (tokenize txt)))
    (reference_doc did txt).
Proof.
  unfold reference_doc.
  set (toks := tokenize txt).
  rewrite <- (map_map (fun t => (t, Z.of_nat (count_occ str_eq_dec toks t)))
                (fun '(term, tf) => (term, did, tf))).
  apply Permutation_map. apply NoDup_Permutation.
  - apply (NoDup_map_inv fst), Counter_NoDup.
  - apply (NoDup_map_inv fst). rewrite map_map. simpl. rewrite map_id.
    apply NoDup_nodup.
  - intros [t v]. rewrite Counter_spec, in_map_iff. split.
    + intros [Hin ->]. exists t. split; [reflexivity|]. apply nodup_In, Hin.
    + intros (t' & [= -> ->] & Hin). apply nodup_In in Hin. auto.
Qed.

(** ** Map worker *)

Lemma rows_of_cons (t : str) (docs : list (Z * Z)) (p : postings_t) :
  rows_of ((t, docs) :: p)
  = map (fun '(doc_id, tf) => (t, doc_id, tf)) docs ++ rows_of p.
Proof. reflexivity. Qed.

Lemma rows_of_key (t : str) (docs : list (Z * Z)) (did : Z) :
  In did (map fst docs) ->
  exists tf, In (t, did, tf) (map (fun '(doc_id, tf) => (t, doc_id, tf)) docs).
Proof.
  intros H. apply in_map_iff in H as ([d tf] & <- & Hin).
  exists tf. apply in_map_iff. exists (d, tf). auto.
Qed.

Lemma postings_add_rows (p : postings_t) (term : str) (did tf : Z) :
  (forall tf', ~ In (term, did, tf') (rows_of p)) ->
  Permutation (rows_of (postings_add p term did tf)) ((term, did, tf) :: rows_of p).
Proof.
  unfold postings_add. induction p as [|[t docs] r IH]; intros Hfresh.
  - apply Permutation_refl.
  - simpl dict_update. destruct (str_eq_dec term t) as [->|Hne].
    + rewrite !rows_of_cons. unfold counter_add.
      rewrite dict_update_fresh.
      * rewrite map_app, <- app_assoc. simpl. apply Permutation_sym, Permutation_middle.
      * intros Hin. destruct (rows_of_key t docs did Hin) as [tf' Htf'].
        apply (Hfresh tf'). rewrite rows_of_cons. apply in_or_app. auto.
    + rewrite !rows_of_cons.
      etransitivity; [apply Permutation_app_head, IH|].
      * intros tf' Hin. apply (Hfresh tf'). rewrite rows_of_cons.
        apply in_or_app. auto.
      * apply Permutation_sym, Permutation_middle.
Qed.

Lemma postings_fold_rows (did : Z) (ctr : list (str * Z)) (p : postings_t) :
  NoDup (map fst ctr) ->
  (forall t tf tf', In (t, tf) ctr -> ~ In (t, did, tf') (rows_of p)) ->
  Permutation
    (rows_of (fold_left (fun p '(term, tf) => postings_add p term did tf) ctr p))
    (rows_of p ++ map (fun '(term, tf) => (term, did, tf)) ctr).
Proof.
  revert p. induction ctr as [|[t tf] ctr IH]; intros p Hnd Hfresh; simpl.
  - rewrite app_nil_r. apply Permutation_refl.
  - inversion Hnd as [|? ? Hnotin Hnd']; subst.
    assert (Hadd : Permutation (rows_of (postings_add p t did tf))
                     ((t, did, tf) :: rows_of p)).
    { apply postings_add_rows. intros tf'. apply (Hfresh t tf). left. reflexivity. }
    etransitivity; [apply IH; [exact Hnd'|]|].
    + intros t' tf1 tf2 Hin Hrow.
      apply (Permutation_in _ Hadd) in Hrow. destruct Hrow as [[= <- <-]|Hrow].
      * apply Hnotin. apply (in_map fst) in Hin. exact Hin.
      * apply (Hfresh t' tf1 tf2); [right; exact Hin | exact Hrow].
    + etransitivity; [apply Permutation_app_tail, Hadd|].
      simpl. apply Permutation_middle.
Qed.

Lemma reference_doc_id (did : Z) (txt : str) (r : row) :
  In r (reference_doc did txt) -> row_doc r = did.
Proof.
  unfold reference_doc. intros H. apply in_map_iff in H as (t & <- & _). reflexivity.
Qed.

Lemma map_doc_rows (p : postings_t) (did : Z) (txt : str) :
  (forall r, In r (rows_of p) -> row_doc r < did) ->
  snd (map_doc (p, did) txt) = did + 1
  /\ Permutation (rows_of (fst (map_doc (p, did) txt)))
       (rows_of p ++ reference_doc did txt).
Proof.
  intros Hlt.
  assert (Hfold :
    Permutation
      (rows_of (fold_left (fun p '(term, tf) => postings_add p term did tf)
                  (Counter (tokenize txt)) p))
      (rows_of p ++ reference_doc did txt)).
  { etransitivity; [apply postings_fold_rows; [apply Counter_NoDup|]|].
    - intros t tf tf' _ Hin. apply Hlt in Hin. unfold row_doc in Hin. simpl in Hin. lia.
    - apply Permutation_app_head, Counter_reference. }
  unfold map_doc. destruct txt as [|c txt].
  - split; [reflexivity|]. simpl. rewrite app_nil_r. apply Permutation_refl.
  - split; [reflexivity|]. simpl fst.
    destruct (Counter (tokenize (c :: txt))) eqn:E; exact Hfold.
Qed.

Lemma map_docs_rows (docs : list str) (p : postings_t) (did : Z) :
  (forall r, In r (rows_of p) -> row_doc r < did) ->
  Permutation (rows_of (fst (fold_left map_doc docs (p, did))))
    (rows_of p ++ reference_from did docs).
Proof.
  revert p did. induction docs as [|txt docs IH]; intros p did Hlt;
    cbn [fold_left reference_from].
  - simpl. rewrite app_nil_r. apply Permutation_refl.
  - destruct (map_doc_rows p did txt Hlt) as [Hid Hrows].
    destruct (map_doc (p, did) txt) as [p' did'] eqn:E. simpl in Hid, Hrows. subst did'.
    etransitivity; [apply IH|].
    + intros r Hin. apply (Permutation_in _ Hrows) in Hin.
      apply in_app_or in Hin as [Hin|Hin]; [apply Hlt in Hin; lia|].
      apply reference_doc_id in Hin. lia.
    + rewrite app_assoc. apply Permutation_app_tail, Hrows.
Qed.

(** The table of a batch holds the rows of the reference for its documents. *)
Lemma map_count_docs_rows (docs : list str) (start : Z) :
  Permutation (rows_of (fst (map_count_docs docs start))) (reference_from start docs).
Proof.
  unfold map_count_docs. simpl fst. apply (map_docs_rows docs [] start).
  intros r [].
Qed.

Lemma len_app {A : Type} (l1 l2 : list A) : len (l1 ++ l2) = len l1 + len l2.
Proof. unfold len. rewrite length_app. lia. Qed.

Lemma len_cons {A : Type} (x : A) (l : list A) : len (x :: l) = 1 + len l.
Proof. unfold len. simpl length. lia. Qed.

Lemma len_nonneg {A : Type} (l : list A) : 0 <= len l.
Proof. unfold len. lia. Qed.

Lemma reference_from_range (docs : list str) (did : Z) (r : row) :
  In r (reference_from did docs) -> did <= row_doc r < did + len docs.
Proof.
  revert did. induction docs as [|txt docs IH]; intros did; simpl; [tauto|].
  rewrite len_cons. pose proof (len_nonneg docs).
  intros Hin. apply in_app_or in Hin as [H1|H2].
  - apply reference_doc_id in H1. lia.
  - apply IH in H2. lia.
Qed.

Lemma map_doc_tokenless (p : postings_t) (did : Z) (txt : str) :
  tokenize txt = [] -> map_doc (p, did) txt = (p, did + 1).
Proof.
  intros H. unfold map_doc. rewrite H. destruct txt; reflexivity.
Qed.

Lemma map_docs_next_id (docs : list str) (p : postings_t) (did : Z) :
  snd (fold_left map_doc docs (p, did)) = did + len docs.
Proof.
  revert p did. induction docs as [|txt docs IH]; intros p did.
  - unfold len. simpl. lia.
  - cbn [fold_left]. rewrite len_cons.
    destruct (map_doc (p, did) txt) as [p' did'] eqn:E.
    assert (did' = did + 1) as ->.
    { unfold map_doc in E. destruct txt; injection E as _ <-; reflexivity. }
    rewrite IH. lia.
Qed.

(** C8: a document without tokens (the empty text too) takes one document
    id and leaves nothing in the table of its batch.  With [pre] before it and
    [post] after it in a batch that starts at [start]: the returned document
    count includes it; no row of the table carries its id [start + len pre];
    the table is the one obtained by going on with [post] at the id after
    it; and the rows of the table are those of the reference for [pre] from
    [start] and for [post] from [start + len pre + 1]. *)
Theorem tokenless_document_keeps_its_id (pre post : list str) (txt : str) (start : Z) :
  tokenize txt = [] ->
  snd (map_count_docs (pre ++ txt :: post) start) = len pre + 1 + len post
  /\ (forall r, In r (rows_of (fst (map_count_docs (pre ++ txt :: post) start))) ->
        row_doc r <> start + len pre)
  /\ fst (map_count_docs (pre ++ txt :: post) start)
     = fst (fold_left map_doc post
              (fst (map_count_docs pre start), start + len pre + 1))
  /\ Permutation (rows_of (fst (map_count_docs (pre ++ txt :: post) start)))
       (reference_from start pre ++ reference_from (start + len pre + 1) post).
Proof.
  intros Htok.
  assert (Hsplit : fst (map_count_docs (pre ++ txt :: post) start)
     = fst (fold_left map_doc post
              (fst (map_count_docs pre start), start + len pre + 1))).
  { unfold map_count_docs. cbn [fst]. rewrite fold_left_app. cbn [fold_left].
    destruct (fold_left map_doc pre ([], start)) as [p1 d1] eqn:E. cbn [fst].
    assert (Hid : d1 = start + len pre).
    { change d1 with (snd (p1, d1)). rewrite <- E. apply map_docs_next_id. }
    subst d1. rewrite map_doc_tokenless by exact Htok. reflexivity. }
  assert (Hperm : Permutation (rows_of (fst (map_count_docs (pre ++ txt :: post) start)))
       (reference_from start pre ++ reference_from (start + len pre + 1) post)).
  { rewrite Hsplit.
    etransitivity; [apply map_docs_rows|].
    - intros r Hin. apply (Permutation_in _ (map_count_docs_rows pre start)) in Hin.
      apply reference_from_range in Hin. lia.
    - apply Permutation_app_tail, map_count_docs_rows. }
  split; [|split; [|split; [exact Hsplit | exact Hperm]]].
  - unfold map_count_docs. cbn [snd]. rewrite len_app, len_cons. lia.
  - intros r Hin. apply (Permutation_in _ Hperm) in Hin.
    apply in_app_or in Hin as [Hin|Hin]; apply reference_from_range in Hin; lia.
Qed.

Lemma tokenless_document_keeps_its_id_example :
  tokenize (lit "... --") = []
  /\ snd (map_count_docs ([lit "la casa"] ++ lit "... --" :: [lit "casa"]) 7)
     = len [lit "la casa"] + 1 + len [lit "casa"]
  /\ (forall r,
        In r (rows_of (fst (map_count_docs
                              ([lit "la casa"] ++ lit "... --" :: [lit "casa"]) 7))) ->
        row_doc r <> 7 + len [lit "la casa"])
  /\ fst (map_count_docs ([lit "la casa"] ++ lit "... --" :: [lit "casa"]) 7)
     = fst (fold_left map_doc [lit "casa"]
              (fst (map_count_docs [lit "la casa"] 7), 7 + len [lit "la casa"] + 1))
  /\ Permutation
       (rows_of (fst (map_count_docs
                        ([lit "la casa"] ++ lit "... --" :: [lit "casa"]) 7)))
       (reference_from 7 [lit "la casa"]
        ++ reference_from (7 + len [lit "la casa"] + 1) [lit "casa"]).
Proof.
  split; [reflexivity|].
  apply (tokenless_document_keeps_its_id [lit "la casa"] [lit "casa"] (lit "... --") 7).
  reflexivity.
Defined.

(** ** Document segmenter *)

Lemma chunk_by_fuel {A : Type} (n : nat) (fuel fuel' : nat) (l : list A) :
  (1 <= n)%nat -> (length l <= fuel)%nat -> (length l <= fuel')%nat ->
  chunk_by fuel n l = chunk_by fuel' n l.
Proof.
  intros Hn. revert fuel' l. induction fuel as [|fuel IH]; intros fuel' l H1 H2.
  - destruct l; [|simpl in H1; lia]. destruct fuel'; reflexivity.
  - destruct l as [|x l]; [destruct fuel'; reflexivity|].
    destruct fuel' as [|fuel']; [simpl in H2; lia|].
    cbn [chunk_by]. f_equal.
    apply IH; rewrite length_skipn; cbn [length] in *; lia.
Qed.

Lemma groups_of_short {A : Type} (n : nat) (l : list A) :
  l <> [] -> (length l <= n)%nat -> groups_of n l = [l].
Proof.
  intros Hne Hlen. unfold groups_of. destruct l as [|x l]; [congruence|].
  cbn [length chunk_by].
  rewrite firstn_all2 by exact Hlen. rewrite skipn_all2 by exact Hlen.
  destruct (length l); reflexivity.
Qed.

Lemma groups_of_full {A : Type} (n : nat) (g l : list A) :
  (1 <= n)%nat -> length g = n -> groups_of n (g ++ l) = g :: groups_of n l.
Proof.
  intros Hn Hg. unfold groups_of.
  destruct g as [|x g]; [simpl in Hg; lia|].
  cbn [app length chunk_by]. change (x :: g ++ l) with ((x :: g) ++ l).
  rewrite firstn_app, skipn_app, Hg, Nat.sub_diag.
  rewrite firstn_all2, skipn_all2 by lia. simpl. rewrite app_nil_r. f_equal.
  apply chunk_by_fuel; try lia. rewrite length_app. lia.
Qed.

Lemma groups_of_shape {A : Type} (n : nat) (l : list A) :
  (1 <= n)%nat ->
  concat (groups_of n l) = l
  /\ Forall (fun g => (1 <= length g <= n)%nat) (groups_of n l)
  /\ forall pre g post,
       groups_of n l = pre ++ g :: post -> post <> [] -> length g = n.
Proof.
  intros Hn. remember (length l) as m eqn:Hm. revert l Hm.
  induction m as [m IH] using lt_wf_ind. intros l Hm.
  destruct (le_lt_dec (length l) n) as [Hshort|Hlong].
  - destruct l as [|x l]; [repeat split; [constructor | intros [|? ?] ? ? H; discriminate H]|].
    rewrite groups_of_short by (simpl in *; try discriminate; lia).
    simpl. rewrite app_nil_r. repeat split.
    + constructor; [simpl in *; lia | constructor].
    + intros pre g post H Hpost. destruct pre as [|? [|? ?]]; simpl in H; try discriminate.
      injection H as _ <-. congruence.
  - rewrite <- (firstn_skipn n l).
    assert (Hg : length (firstn n l) = n) by (rewrite length_firstn; lia).
    rewrite groups_of_full by assumption.
    destruct (IH (length (skipn n l))) with (l := skipn n l) as (Hcat & Hall & Hfull);
      [rewrite length_skipn; lia | reflexivity |].
    assert (Hne : groups_of n (skipn n l) <> []).
    { intros E. rewrite E in Hcat. simpl in Hcat.
      assert (length (skipn n l) = 0)%nat by (rewrite <- Hcat; reflexivity).
      rewrite length_skipn in *. lia. }
    simpl. rewrite Hcat. repeat split.
    + constructor; [lia | exact Hall].
    + intros pre g post H Hpost. destruct pre as [|g0 pre]; simpl in H.
      * injection H as <- _. exact Hg.
      * injection H as _ H. eapply Hfull; eauto.
Qed.

Lemma starts_at_count_snoc (bs : list (list str * Z)) (docs : list str) :
  starts_at_count bs ->
  starts_at_count (bs ++ [(docs, len (concat (map fst bs)))]).
Proof.
  intros H pre b post E.
  destruct (exists_last (l := b :: post)) as (mid & z & Hmid); [discriminate|].
  rewrite Hmid in E. rewrite app_assoc in E.
  apply app_inj_tail in E as [Ebs <-].
  destruct post as [|p post].
  - destruct mid as [|? [|? ?]]; try discriminate.
    injection Hmid as ->. rewrite app_nil_r in Ebs. subst. reflexivity.
  - destruct mid as [|m mid]; [discriminate|].
    injection Hmid as <- Hpost. apply (H pre b mid). exact Ebs.
Qed.

Lemma concat_map_fst_snoc (bs : list (list str * Z)) (docs : list str) (z : Z) :
  concat (map fst (bs ++ [(docs, z)])) = concat (map fst bs) ++ docs.
Proof.
  rewrite map_app, concat_app. simpl. rewrite app_nil_r. reflexivity.
Qed.

Lemma read_line_inv (lpd bd : Z) (st : seg_state) (line : str) :
  seg_inv st -> seg_inv (read_line lpd bd st line).
Proof.
  intros [Hstarts Hnext]. unfold read_line.
  destruct (_ >=? lpd); [destruct (_ >=? bd)|]; split; simpl; try assumption.
  - rewrite Hnext. apply starts_at_count_snoc, Hstarts.
  - rewrite concat_map_fst_snoc, Hnext, (len_app (concat _)). reflexivity.
Qed.

Lemma end_of_input_inv (st : seg_state) :
  seg_inv st -> seg_inv (end_of_input st).
Proof.
  intros [Hstarts Hnext]. unfold end_of_input.
  destruct (match line_buf st with [] => doc_buf st | _ => _ end) as [|d ds];
    split; simpl; try assumption.
  - rewrite Hnext. apply starts_at_count_snoc, Hstarts.
  - rewrite concat_map_fst_snoc, Hnext, (len_app (concat _)). reflexivity.
Qed.

Lemma read_lines_inv (lpd bd : Z) (l : list str) (st : seg_state) :
  seg_inv st -> seg_inv (fold_left (read_line lpd bd) l st).
Proof.
  revert st. induction l as [|x l IH]; intros st H; simpl; [exact H|].
  apply IH, read_line_inv, H.
Qed.

Lemma read_line_docs (lpd bd : Z) (st : seg_state) (line : str) :
  let full := len (line_buf st ++ [line]) >=? lpd in
  docs_so_far (read_line lpd bd st line)
  = docs_so_far st ++ (if full then [concat (line_buf st ++ [line])] else [])
  /\ line_buf (read_line lpd bd st line)
     = (if full then [] else line_buf st ++ [line]).
Proof.
  unfold read_line, docs_so_far. simpl.
  destruct (_ >=? lpd); [destruct (_ >=? bd)|]; simpl; split; try reflexivity;
    rewrite ?concat_map_fst_snoc, ?app_nil_r, <- ?app_assoc; reflexivity.
Qed.

Lemma end_of_input_docs (st : seg_state) :
  concat (map fst (futures (end_of_input st)))
  = docs_so_far st
    ++ match line_buf st with [] => [] | _ => [concat (line_buf st)] end.
Proof.
  unfold end_of_input, docs_so_far.
  destruct (line_buf st) as [|x b], (doc_buf st) as [|d ds]; simpl;
    rewrite ?concat_map_fst_snoc, ?app_nil_r, <- ?app_assoc; reflexivity.
Qed.

Lemma read_lines_docs (lpd bd : Z) (l : list str) (st : seg_state) :
  1 <= lpd ->
  (length (line_buf st) < Z.to_nat lpd)%nat ->
  concat (map fst (futures (end_of_input (fold_left (read_line lpd bd) l st))))
  = docs_so_far st
    ++ map (@concat char) (groups_of (Z.to_nat lpd) (line_buf st ++ l)).
Proof.
  intros Hlpd. revert st. induction l as [|x l IH]; intros st Hbuf.
  - simpl fold_left. rewrite end_of_input_docs, app_nil_r.
    destruct (line_buf st) as [|y b] eqn:E; [reflexivity|].
    rewrite groups_of_short by (try discriminate; lia). reflexivity.
  - cbn [fold_left].
    destruct (read_line_docs lpd bd st x) as [Hdocs Hline].
    assert (Hlen : len (line_buf st ++ [x]) = Z.of_nat (length (line_buf st)) + 1).
    { rewrite len_app. reflexivity. }
    destruct (len (line_buf st ++ [x]) >=? lpd) eqn:Hfull; cbn zeta in Hdocs, Hline.
    + rewrite IH by (rewrite Hline; simpl; lia).
      rewrite Hdocs, Hline, <- app_assoc. f_equal. simpl app.
      change (x :: l) with ([x] ++ l). rewrite (app_assoc (line_buf st)).
      rewrite groups_of_full; [reflexivity | lia |].
      rewrite length_app. simpl. apply Z.geb_le in Hfull. lia.
    + rewrite IH.
      * rewrite Hdocs, Hline, app_nil_r, <- app_assoc. reflexivity.
      * rewrite Hline, length_app. simpl.
        rewrite Z.geb_leb in Hfull. apply Z.leb_gt in Hfull. lia.
Qed.

Lemma submit_batches_inv (lines : list str) (lpd bd : Z) :
  starts_at_count (submit_batches lines lpd bd).
Proof.
  unfold submit_batches. apply end_of_input_inv, read_lines_inv.
  split; [|reflexivity]. intros [|? ?] ? ? H; discriminate H.
Qed.

Lemma segmenter_documents_first (lines : list str) (lpd bd : Z) :
  1 <= lpd ->
  concat (map fst (submit_batches lines lpd bd))
  = map (@concat char) (groups_of (Z.to_nat lpd) lines).
Proof.
  intros Hlpd. unfold submit_batches.
  rewrite read_lines_docs by (simpl; lia). reflexivity.
Qed.

(** C3: with [lines_per_doc >= 1], the documents handed to the workers, in
    submission order, are the groups of [lines_per_doc] consecutive lines, each
    joined as it stands; the groups concatenate to the input, every group but
    the last has exactly [lines_per_doc] lines and the last has between 1 and
    [lines_per_doc]; every batch starts at the number of documents in the
    batches before it; and the id a worker holds when it reaches the [j]-th
    document of its batch is the number of documents before that document in
    the whole input, so ids run 0, 1, 2, ... in input order. *)
Theorem segmenter_documents_and_ids (lines : list str) (lpd bd : Z) :
  1 <= lpd ->
  concat (map fst (submit_batches lines lpd bd))
  = map (@concat char) (groups_of (Z.to_nat lpd) lines)
  /\ concat (groups_of (Z.to_nat lpd) lines) = lines
  /\ Forall (fun g => 1 <= len g <= lpd) (groups_of (Z.to_nat lpd) lines)
  /\ (forall pre g post,
        groups_of (Z.to_nat lpd) lines = pre ++ g :: post -> post <> [] ->
        len g = lpd)
  /\ (forall pre b post,
        submit_batches lines lpd bd = pre ++ b :: post ->
        snd b = len (concat (map fst pre)))
  /\ (forall pre b post j,
        submit_batches lines lpd bd = pre ++ b :: post ->
        (j <= length (fst b))%nat ->
        snd (fold_left map_doc (firstn j (fst b)) ([], snd b))
        = len (concat (map fst pre)) + Z.of_nat j).
Proof.
  intros Hlpd.
  destruct (groups_of_shape (Z.to_nat lpd) lines) as (Hcat & Hall & Hfull); [lia|].
  split; [|split; [exact Hcat | split; [|split; [|split]]]].
  - apply segmenter_documents_first, Hlpd.
  - eapply Forall_impl; [|exact Hall]. intros g Hg. unfold len. simpl in Hg. lia.
  - intros pre g post E Hpost. unfold len. rewrite (Hfull pre g post E Hpost). lia.
  - apply submit_batches_inv.
  - intros pre b post j E Hj. rewrite map_docs_next_id.
    rewrite (submit_batches_inv lines lpd bd pre b post E).
    unfold len at 2. rewrite length_firstn. lia.
Qed.

Lemma segmenter_documents_and_ids_example :
  1 <= 2
  /\ submit_batches [lit "a"; lit "b"; lit "c"; lit "d"; lit "e"] 2 2
     = [([lit "ab"; lit "cd"], 0); ([lit "e"], 2)]
  /\ concat (map fst (submit_batches [lit "a"; lit "b"; lit "c"; lit "d"; lit "e"] 2 2))
     = map (@concat char)
         (groups_of (Z.to_nat 2) [lit "a"; lit "b"; lit "c"; lit "d"; lit "e"]).
Proof.
  split; [lia|]. split; [reflexivity|].
  apply (segmenter_documents_and_ids [lit "a"; lit "b"; lit "c"; lit "d"; lit "e"] 2 2).
  lia.
Defined.

(** ** The text of integers and rows *)

(** Appends to the right and conses pushed out. *)
Ltac list_norm :=
  repeat (progress (repeat rewrite <- app_assoc; cbn [app])).

Lemma digits_are_digits (u : Decimal.uint) :
  Forall (fun c => is_digit c = true) (digits u).
Proof.
  induction u; simpl; constructor; auto.
Qed.

Lemma parse_digits_digits (u : Decimal.uint) : parse_digits (digits u) = Some u.
Proof.
  induction u; simpl; rewrite ?IHu; reflexivity.
Qed.

Lemma digits_nonnil (u : Decimal.uint) : u <> Decimal.Nil -> digits u <> [].
Proof. destruct u; simpl; congruence. Qed.

Lemma to_int_nonnil (n : Z) :
  match Z.to_int n with
  | Decimal.Pos u | Decimal.Neg u => u <> Decimal.Nil
  end.
Proof.
  destruct n; simpl; try apply DecimalPos.Unsigned.to_uint_nonnil. discriminate.
Qed.

(** [int(str(n)) == n] *)
Lemma int_of_str_of_int (n : Z) : int_of_str (str_of_int n) = Ok n.
Proof.
  unfold str_of_int. pose proof (to_int_nonnil n) as Hnn.
  pose proof (DecimalZ.of_to n) as Hof.
  destruct (Z.to_int n) as [u|u].
  - pose proof (digits_are_digits u) as Hd. pose proof (parse_digits_digits u) as Hp.
    destruct (digits u) as [|c r] eqn:E; [apply digits_nonnil in Hnn; congruence|].
    unfold int_of_str. apply Forall_inv in Hd. rename Hd into Hc.
    assert ((c =? 45) || (c =? 43) = false) as -> by (unfold is_digit in Hc; ranges; lia).
    rewrite Hp, Hof. reflexivity.
  - pose proof (parse_digits_digits u) as Hp.
    destruct (digits u) as [|c r] eqn:E; [apply digits_nonnil in Hnn; congruence|].
    unfold int_of_str. change ((45 =? 45) || (45 =? 43)) with true. cbv iota.
    rewrite Hp. change (45 =? 45) with true. cbv iota. rewrite Hof. reflexivity.
Qed.

(** The text of an integer: not empty, and made of digits and a minus sign. *)
Lemma str_of_int_chars (n : Z) :
  str_of_int n <> []
  /\ Forall (fun c => is_digit c = true \/ c = 45) (str_of_int n).
Proof.
  unfold str_of_int. pose proof (to_int_nonnil n) as Hnn.
  destruct (Z.to_int n) as [u|u].
  - split; [apply digits_nonnil, Hnn|].
    eapply Forall_impl; [|apply digits_are_digits]. auto.
  - split; [discriminate|]. constructor; [auto|].
    eapply Forall_impl; [|apply digits_are_digits]. auto.
Qed.

Lemma str_of_int_no (c : char) (n : Z) :
  c = TAB \/ c = LF \/ c = CR -> ~ In c (str_of_int n).
Proof.
  intros Hc Hin. destruct (str_of_int_chars n) as [_ Hall].
  rewrite Forall_forall in Hall. apply Hall in Hin.
  unfold is_digit in Hin. ranges. lia.
Qed.

Lemma split_from_field (cur s rest : str) :
  ~ In TAB s ->
  split_from cur (s ++ TAB :: rest) = (cur ++ s) :: split_from [] rest.
Proof.
  revert cur. induction s as [|c s IH]; intros cur Hs; simpl.
  - rewrite app_nil_r. reflexivity.
  - destruct (Z.eqb_spec c TAB) as [->|Hne]; [simpl in Hs; tauto|].
    rewrite IH by (simpl in Hs; tauto). rewrite <- app_assoc. reflexivity.
Qed.

Lemma split_from_last (cur s : str) :
  ~ In TAB s -> split_from cur s = [cur ++ s].
Proof.
  revert cur. induction s as [|c s IH]; intros cur Hs; simpl.
  - rewrite app_nil_r. reflexivity.
  - destruct (Z.eqb_spec c TAB) as [->|Hne]; [simpl in Hs; tauto|].
    rewrite IH by (simpl in Hs; tauto). rewrite <- app_assoc. reflexivity.
Qed.

Lemma rstrip_lf_keep (s : str) (c : char) :
  c <> LF -> rstrip_lf (s ++ [c]) = s ++ [c].
Proof.
  intros Hc. induction s as [|x s IH]; simpl.
  - destruct (Z.eqb_spec c LF); [congruence | reflexivity].
  - rewrite IH. destruct (s ++ [c]) eqn:E; [destruct s; discriminate | reflexivity].
Qed.

Lemma rstrip_lf_drop (s : str) : rstrip_lf (s ++ [LF]) = rstrip_lf s.
Proof.
  induction s as [|x s IH]; simpl; [reflexivity|]. rewrite IH. reflexivity.
Qed.

(** Reading back a written row. *)
Lemma parse_line_fmt_row (r : row) :
  clean_row r -> parse_line (fmt_row r) = Ok r.
Proof.
  intros [Htab _]. destruct r as [[term doc] tf].
  unfold fmt_row, parse_line, row_term, row_doc, row_tf in *. simpl fst in *. simpl snd in *.
  destruct (str_of_int_chars tf) as [Hne _].
  destruct (exists_last Hne) as (body & c & Hbody).
  assert (Hc : c <> LF).
  { intros ->. apply (str_of_int_no LF tf); [auto|]. rewrite Hbody.
    apply in_or_app. right. left. reflexivity. }
  replace (term ++ [TAB] ++ str_of_int doc ++ [TAB] ++ str_of_int tf ++ [LF])
    with ((term ++ [TAB] ++ str_of_int doc ++ [TAB] ++ str_of_int tf) ++ [LF])
    by (rewrite <- !app_assoc; reflexivity).
  rewrite rstrip_lf_drop.
  replace (term ++ [TAB] ++ str_of_int doc ++ [TAB] ++ str_of_int tf)
    with ((term ++ [TAB] ++ str_of_int doc ++ [TAB] ++ body) ++ [c])
    by (rewrite Hbody, <- !app_assoc; reflexivity).
  rewrite rstrip_lf_keep by exact Hc.
  replace ((term ++ [TAB] ++ str_of_int doc ++ [TAB] ++ body) ++ [c])
    with (term ++ TAB :: str_of_int doc ++ TAB :: str_of_int tf)
    by (rewrite Hbody, <- !app_assoc; reflexivity).
  unfold split_tab.
  rewrite split_from_field by exact Htab.
  rewrite split_from_field by (apply str_of_int_no; auto).
  rewrite split_from_last by (apply str_of_int_no; auto).
  simpl. rewrite !int_of_str_of_int. reflexivity.
Qed.

Lemma readlines_from_line (cur body rest : str) :
  ~ In LF body ->
  readlines_from cur (body ++ LF :: rest)
  = (cur ++ body ++ [LF]) :: readlines_from [] rest.
Proof.
  revert cur. induction body as [|c body IH]; intros cur Hb; simpl.
  - reflexivity.
  - destruct (Z.eqb_spec c LF) as [->|Hne]; [simpl in Hb; tauto|].
    rewrite IH by (simpl in Hb; tauto). rewrite <- app_assoc. reflexivity.
Qed.

Lemma universal_newlines_id (s : str) :
  ~ In CR s -> universal_newlines s = s.
Proof.
  induction s as [|c s IH]; simpl; intros H; [reflexivity|].
  destruct (Z.eqb_spec c CR) as [->|_]; [tauto|]. rewrite IH by tauto. reflexivity.
Qed.

Lemma rows_text_no_cr (rows : list row) :
  Forall clean_row rows -> ~ In CR (rows_text rows).
Proof.
  unfold rows_text. induction 1 as [|r rows (_ & _ & Hcr) _ IH]; simpl; [tauto|].
  intros Hin. apply in_app_or in Hin as [Hin|Hin]; [|tauto].
  unfold fmt_row in Hin.
  repeat (apply in_app_or in Hin as [Hin|Hin]); try tauto;
    try (apply (str_of_int_no CR) in Hin; auto; fail);
    simpl in Hin; unfold TAB, LF, CR in Hin; intuition discriminate.
Qed.

Lemma readlines_rows_text (rows : list row) :
  Forall clean_row rows -> readlines (rows_text rows) = map fmt_row rows.
Proof.
  intros Hclean. unfold readlines.
  rewrite universal_newlines_id by (apply rows_text_no_cr, Hclean).
  unfold rows_text. induction Hclean as [|r rows (_ & Hlf & _) _ IH]; [reflexivity|].
  simpl. unfold fmt_row at 1.
  replace ((row_term r ++ [TAB] ++ str_of_int (row_doc r) ++ [TAB]
            ++ str_of_int (row_tf r) ++ [LF]) ++ concat (map fmt_row rows))
    with ((row_term r ++ [TAB] ++ str_of_int (row_doc r) ++ [TAB]
            ++ str_of_int (row_tf r)) ++ LF :: concat (map fmt_row rows))
    by (rewrite <- !app_assoc; reflexivity).
  rewrite readlines_from_line.
  - rewrite IH. f_equal. unfold fmt_row. list_norm. reflexivity.
  - intros Hin. repeat (apply in_app_or in Hin as [Hin|Hin]); try tauto;
      try (apply (str_of_int_no LF) in Hin; auto; fail);
      simpl in Hin; unfold TAB, LF in Hin; intuition discriminate.
Qed.

(** ** The orders of the sort and of the heap *)

Lemma str_compare_refl (a : str) : str_compare a a = Eq.
Proof.
  induction a as [|x a IH]; simpl; [reflexivity|]. rewrite Z.compare_refl. exact IH.
Qed.

Lemma str_compare_eq (a b : str) : str_compare a b = Eq -> a = b.
Proof.
  revert b. induction a as [|x a IH]; intros [|y b]; simpl; try discriminate;
    [reflexivity|].
  destruct (Z.compare_spec x y) as [Hxy| |]; try discriminate.
  intros Hc. subst. f_equal. apply IH, Hc.
Qed.

Lemma str_compare_antisym (a b : str) :
  str_compare b a = CompOpp (str_compare a b).
Proof.
  revert b. induction a as [|x a IH]; intros [|y b]; simpl; try reflexivity.
  rewrite (Z.compare_antisym x y). destruct (x ?= y); simpl; auto.
Qed.

Lemma str_lt_trans (a b c : str) : str_lt a b -> str_lt b c -> str_lt a c.
Proof.
  unfold str_lt. revert b c.
  induction a as [|x a IH]; intros [|y b] [|z c]; simpl; try congruence.
  destruct (Z.compare_spec x y), (Z.compare_spec y z), (Z.compare_spec x z);
    try discriminate; try lia; eauto.
Qed.

Lemma str_lt_irrefl (a : str) : ~ str_lt a a.
Proof. unfold str_lt. rewrite str_compare_refl. discriminate. Qed.

Lemma str_compare_gt (a b : str) : str_compare a b = Gt -> str_lt b a.
Proof.
  unfold str_lt. rewrite (str_compare_antisym a b). intros ->. reflexivity.
Qed.

Lemma tuple_lt_cases (a b : entry) :
  match tuple_lt a b with
  | Ok true => entry_lt a b
  | Ok false => entry_lt b a
  | Raise x => x = TypeError /\ e_row a = e_row b /\ e_src a = e_src b
  end.
Proof.
  unfold tuple_lt, entry_lt.
  destruct a as [[[ta da] fa] sa ia], b as [[[tb db] fb] sb ib].
  unfold row_term, row_doc, row_tf. simpl.
  destruct (str_compare ta tb) eqn:Et.
  - apply str_compare_eq in Et. subst tb.
    destruct (Z.compare_spec da db), (Z.compare_spec fa fb), (Z.compare_spec sa sb);
      subst; first [ solve [auto] | right; split; [reflexivity | lia] ].
  - left. exact Et.
  - left. apply str_compare_gt, Et.
Qed.

Lemma entry_lt_trans (a b c : entry) : entry_lt a b -> entry_lt b c -> entry_lt a c.
Proof.
  unfold entry_lt. intros Hab Hbc.
  destruct Hab as [Hab|[Eab Hab]], Hbc as [Hbc|[Ebc Hbc]].
  - left. eapply str_lt_trans; eauto.
  - left. rewrite <- Ebc. exact Hab.
  - left. rewrite Eab. exact Hbc.
  - right. split; [congruence|]. lia.
Qed.


Lemma key_lt_cases (a b : row) :
  if key_lt a b
  then str_lt (row_term a) (row_term b)
       \/ (row_term a = row_term b /\ row_doc a < row_doc b)
  else str_lt (row_term b) (row_term a)
       \/ (row_term a = row_term b /\ row_doc b <= row_doc a).
Proof.
  unfold key_lt. destruct (str_compare (row_term a) (row_term b)) eqn:E.
  - apply str_compare_eq in E. destruct (Z.ltb_spec (row_doc a) (row_doc b)); auto.
  - left. exact E.
  - left. apply str_compare_gt, E.
Qed.

Lemma key_le_iff (a b : row) :
  key_le a b
  <-> str_lt (row_term a) (row_term b)
      \/ (row_term a = row_term b /\ row_doc a <= row_doc b).
Proof.
  unfold key_le. pose proof (key_lt_cases b a) as H.
  destruct (key_lt b a); split; try discriminate; try reflexivity.
  - intros [Hlt|[E Hle]]; destruct H as [Hlt'|[E' Hlt']].
    + exfalso. apply (str_lt_irrefl (row_term a)). eapply str_lt_trans; eauto.
    + rewrite E' in Hlt. exfalso. exact (str_lt_irrefl _ Hlt).
    + rewrite E in Hlt'. exfalso. exact (str_lt_irrefl _ Hlt').
    + lia.
  - intros _. destruct H as [Hlt|[E Hle]]; auto.
Qed.

Lemma key_le_trans (a b c : row) : key_le a b -> key_le b c -> key_le a c.
Proof.
  rewrite !key_le_iff. intros [Hab|[Eab Hab]] [Hbc|[Ebc Hbc]].
  - left. eapply str_lt_trans; eauto.
  - left. rewrite <- Ebc. exact Hab.
  - left. rewrite Eab. exact Hbc.
  - right. split; [congruence | lia].
Qed.

Lemma key_lt_le (a b : row) : key_lt a b = true -> key_le a b.
Proof.
  intros H. apply key_le_iff. pose proof (key_lt_cases a b) as Hc. rewrite H in Hc.
  destruct Hc as [Hlt|[E Hlt]]; [auto | right; split; [auto | lia]].
Qed.

Lemma entry_lt_key_le (a b : entry) : entry_lt a b -> key_le (e_row a) (e_row b).
Proof.
  intros H. apply key_le_iff. destruct H as [H|[E H]]; [auto|].
  right. split; [exact E | lia].
Qed.

(** ** The heap *)

Lemma heappush_perm (h : list entry) (e : entry) (h' : list entry) :
  heappush h e = Ok h' -> Permutation h' (e :: h).
Proof.
  revert h'. induction h as [|x r IH]; intros h' H; simpl in H.
  - injection H as <-. apply Permutation_refl.
  - destruct (tuple_lt e x) as [[|]|]; simpl in H; try discriminate.
    + injection H as <-. apply Permutation_refl.
    + destruct (heappush r e) as [r'|]; simpl in H; try discriminate.
      injection H as <-. etransitivity; [apply perm_skip, IH; reflexivity|].
      apply perm_swap.
Qed.

Lemma heappush_raise (h : list entry) (e : entry) (x : exn) :
  heappush h e = Raise x -> x = TypeError /\ In (e_src e) (map e_src h).
Proof.
  induction h as [|y r IH]; simpl; intros H; [discriminate|].
  pose proof (tuple_lt_cases e y) as Hc.
  destruct (tuple_lt e y) as [[|]|z]; simpl in H; try discriminate.
  - destruct (heappush r e) as [r'|z]; simpl in H; try discriminate.
    injection H as <-. destruct IH as [-> Hin]; [reflexivity|]. auto.
  - injection H as <-. destruct Hc as (-> & _ & Hsrc). auto.
Qed.

Lemma heappush_sorted (h : list entry) (e : entry) (h' : list entry) :
  heappush h e = Ok h' ->
  StronglySorted entry_lt h -> StronglySorted entry_lt h'.
Proof.
  revert h'. induction h as [|x r IH]; intros h' H Hs; simpl in H.
  - injection H as <-. repeat constructor.
  - pose proof (tuple_lt_cases e x) as Hc.
    inversion Hs as [|? ? Hr Hx]; subst.
    destruct (tuple_lt e x) as [[|]|]; simpl in H; try discriminate.
    + injection H as <-. constructor; [exact Hs|].
      constructor; [exact Hc|].
      eapply Forall_impl; [|exact Hx]. intros b Hb. eapply entry_lt_trans; eauto.
    + destruct (heappush r e) as [r'|] eqn:E; simpl in H; try discriminate.
      injection H as <-. constructor; [apply IH; auto|].
      apply heappush_perm in E. rewrite Forall_forall. intros b Hb.
      apply (Permutation_in _ E) in Hb. destruct Hb as [<-|Hb]; [exact Hc|].
      rewrite Forall_forall in Hx. auto.
Qed.

Lemma heapify_fold (l : list entry) (h0 : list entry) :
  NoDup (map e_src (h0 ++ l)) ->
  StronglySorted entry_lt h0 ->
  exists h,
    fold_left (fun acc e => h <- acc ;; heappush h e) l (Ok h0) = Ok h
    /\ Permutation h (h0 ++ l)
    /\ StronglySorted entry_lt h.
Proof.
  revert h0. induction l as [|e l IH]; intros h0 Hnd Hs; simpl.
  - exists h0. rewrite app_nil_r. auto.
  - destruct (heappush h0 e) as [h1|x] eqn:E.
    + destruct (IH h1) as (h & Hfold & Hperm & Hsorted).
      * eapply Permutation_NoDup; [|exact Hnd]. apply Permutation_map.
        apply heappush_perm in E. rewrite E.
        change (e :: h0 ++ l) with ((e :: h0) ++ l).
        rewrite (Permutation_middle h0 l e). apply Permutation_refl.
      * eapply heappush_sorted; eauto.
      * exists h. split; [exact Hfold|]. split; [|exact Hsorted].
        rewrite Hperm. apply heappush_perm in E. rewrite E.
        simpl. apply Permutation_middle.
    + exfalso. apply heappush_raise in E as [_ Hin].
      rewrite map_app in Hnd. simpl in Hnd. apply NoDup_remove_2 in Hnd.
      apply Hnd. apply in_or_app. auto.
Qed.

Lemma heapify_ok (l : list entry) :
  NoDup (map e_src l) ->
  exists h, heapify l = Ok h /\ Permutation h l /\ StronglySorted entry_lt h.
Proof.
  intros Hnd. apply (heapify_fold l []); [exact Hnd | constructor].
Qed.

(** ** One turn of the merge loop *)

Lemma int_of_str_raise (s : str) (x : exn) : int_of_str s = Raise x -> x = ValueError.
Proof.
  unfold int_of_str. destruct s as [|c r]; [congruence|].
  destruct ((c =? 45) || (c =? 43)).
  - destruct r; [congruence|]. destruct (parse_digits _); congruence.
  - destruct (parse_digits _); congruence.
Qed.

Lemma parse_line_raise (line : str) (x : exn) :
  parse_line line = Raise x -> x = ValueError.
Proof.
  unfold parse_line.
  destruct (split_tab (rstrip_lf line)) as [|t [|d [|f [|? ?]]]]; try congruence.
  destruct (int_of_str d) eqn:Ed; simpl; [|intros [= <-]; eauto using int_of_str_raise].
  destruct (int_of_str f) eqn:Ef; simpl; [discriminate|].
  intros [= <-]. eauto using int_of_str_raise.
Qed.

Lemma advance_cases (e : entry) (h : list entry) :
  match advance e h with
  | Ok h' =>
      (gen_lines (e_it e) = [] /\ h' = h)
      \/ exists line rest r,
           gen_lines (e_it e) = line :: rest
           /\ parse_line line = Ok r
           /\ heappush h (next_entry e r rest) = Ok h'
  | Raise x =>
      x = ValueError \/ (x = TypeError /\ In (e_src e) (map e_src h))
  end.
Proof.
  unfold advance, gen_next. destruct (gen_lines (e_it e)) as [|line rest]; simpl.
  - left. auto.
  - destruct (parse_line line) as [r|x] eqn:Ep; simpl.
    + fold (next_entry e r rest).
      destruct (heappush h (next_entry e r rest)) as [h'|x] eqn:Eh.
      * right. exists line, rest, r. auto.
      * right. apply heappush_raise in Eh. exact Eh.
    + left. eapply parse_line_raise, Ep.
Qed.

Lemma advance_perm (e : entry) (h h' : list entry) :
  advance e h = Ok h' ->
  Permutation (map e_src h') (map e_src h)
  \/ Permutation (map e_src h') (map e_src (e :: h)).
Proof.
  intros H. pose proof (advance_cases e h) as Hc. rewrite H in Hc.
  destruct Hc as [[_ ->]|(line & rest & r & _ & _ & Hpush)]; [left; reflexivity|].
  right. apply heappush_perm in Hpush. rewrite Hpush. reflexivity.
Qed.

Lemma advance_srcs (e : entry) (h h' : list entry) :
  advance e h = Ok h' ->
  NoDup (map e_src (e :: h)) -> NoDup (map e_src h').
Proof.
  intros H Hnd. destruct (advance_perm e h h' H) as [Hp|Hp];
    (eapply Permutation_NoDup; [apply Permutation_sym, Hp|]); [|exact Hnd].
  inversion Hnd; assumption.
Qed.

Lemma write_record_heap (mb : Z) (st : merge_state) (e : entry) (h' : list entry) :
  heap (write_record mb st e h') = h'.
Proof. unfold write_record. destruct (_ >=? _); reflexivity. Qed.

Lemma merge_loop_step (mb : Z) (st : merge_state) :
  merge_loop mb st
  = match heap st with
    | [] => Ok st
    | e :: h =>
        match advance e h with
        | Ok h' => merge_loop mb (write_record mb st e h')
        | Raise x => Raise x
        end
    end.
Proof.
  funelim (merge_loop mb st).
  - rewrite e. reflexivity.
  - rewrite Hheap, Hadv. reflexivity.
  - rewrite Hheap, e2. reflexivity.
Qed.

Lemma pops_sound (mb : Z) (st : merge_state) (tr : list entry) (st' : merge_state) :
  pops mb st tr st' -> merge_loop mb st = Ok st'.
Proof.
  induction 1 as [st Hheap | st e h h' tr st' Hheap Hadv _ IH];
    rewrite merge_loop_step, Hheap; [reflexivity|].
  rewrite Hadv. exact IH.
Qed.


Lemma merge_loop_no_type_error (mb : Z) (st : merge_state) :
  NoDup (map e_src (heap st)) -> merge_loop mb st <> Raise TypeError.
Proof.
  funelim (merge_loop mb st); intros Hnd.
  - discriminate.
  - apply H. rewrite write_record_heap.
    eapply advance_srcs; eauto. rewrite <- Hheap. exact Hnd.
  - pose proof (advance_cases e h) as Hc. rewrite e2 in Hc.
    destruct Hc as [->|[_ Hin]]; [discriminate|].
    rewrite Hheap in Hnd. inversion Hnd. contradiction.
Qed.

Lemma reachable_srcs (mb : Z) (st0 st : merge_state) :
  reachable mb st0 st ->
  NoDup (map e_src (heap st0)) -> NoDup (map e_src (heap st)).
Proof.
  induction 1 as [|st e h h' _ IH Hheap Hadv]; intros Hnd; [exact Hnd|].
  rewrite write_record_heap. eapply advance_srcs; eauto.
  rewrite <- Hheap. auto.
Qed.

(** ** Run indices are distinct *)

Lemma NoDup_map_eq {A B : Type} (f : A -> B) (l : list A) (a b : A) :
  NoDup (map f l) -> In a l -> In b l -> f a = f b -> a = b.
Proof.
  intros Hnd Ha Hb E. induction l as [|x l IH]; [contradiction|].
  simpl in Hnd. inversion Hnd as [|? ? Hnotin Hrest]; subst.
  destruct Ha as [->|Ha], Hb as [->|Hb]; auto.
  - exfalso. apply Hnotin. rewrite E. apply in_map, Hb.
  - exfalso. apply Hnotin. rewrite <- E. apply in_map, Ha.
Qed.

Lemma map_fst_enumerate {A : Type} (l : list A) :
  map fst (enumerate l) = map Z.of_nat (seq 0 (length l)).
Proof.
  unfold enumerate. generalize 0%nat. induction l as [|x l IH]; intros n; simpl;
    [reflexivity|]. rewrite IH. reflexivity.
Qed.

Lemma map_snd_enumerate {A : Type} (l : list A) : map snd (enumerate l) = l.
Proof.
  unfold enumerate. generalize 0%nat. induction l as [|x l IH]; intros n; simpl;
    [reflexivity|]. rewrite IH. reflexivity.
Qed.

Lemma open_iters_indices (run_files : list str) :
  NoDup (map gen_i (open_iters run_files)).
Proof.
  unfold open_iters. rewrite map_map.
  rewrite (map_ext _ fst) by (intros [i fh]; reflexivity).
  rewrite map_fst_enumerate. apply Injective_map_NoDup; [|apply seq_NoDup].
  intros a b. apply Nat2Z.inj.
Qed.

Lemma gen_next_cases (it : generator) :
  match gen_next it with
  | Ok None => gen_lines it = []
  | Ok (Some (r, src, it')) =>
      src = gen_i it /\ gen_i it' = gen_i it
      /\ exists line, gen_lines it = line :: gen_lines it' /\ parse_line line = Ok r
  | Raise x => x = ValueError
  end.
Proof.
  unfold gen_next. destruct (gen_lines it) as [|line rest]; simpl; [reflexivity|].
  destruct (parse_line line) as [r|x] eqn:E; simpl.
  - repeat split. exists line. auto.
  - eapply parse_line_raise, E.
Qed.

Lemma first_heads_cases (iters : list generator) :
  match first_heads iters with
  | Ok heads =>
      (forall s, In s (map e_src heads) -> In s (map gen_i iters))
      /\ (NoDup (map gen_i iters) -> NoDup (map e_src heads))
  | Raise x => x = ValueError
  end.
Proof.
  induction iters as [|it iters IH]; simpl.
  - split; [tauto | intros _; constructor].
  - pose proof (gen_next_cases it) as Hn.
    destruct (gen_next it) as [nx|x]; simpl; [|exact Hn].
    destruct (first_heads iters) as [tl|x]; simpl; [|exact IH].
    destruct IH as [Hsub Hnd].
    destruct nx as [[[r src] it']|]; simpl.
    + destruct Hn as (-> & _ & _). split.
      * intros s [<-|Hin]; auto.
      * intros H. inversion H as [|? ? Hnotin Hrest]; subst.
        constructor; auto.
    + split; [auto|]. intros H. inversion H; auto.
Qed.

(** C10: the run indices of the items in the heap are pairwise distinct in
    every state the merge goes through, for every input; so any two items
    of the heap are ordered by term, doc, tf and src, a comparison of two
    items never reaches the generators, and [merge_files] never raises the
    [TypeError] of such a comparison. *)
Theorem heap_items_never_compare_generators (run_files : list str) (shard_mb : Z) :
  merge_files run_files shard_mb <> Raise TypeError
  /\ forall heads h st,
       first_heads (open_iters run_files) = Ok heads ->
       heapify heads = Ok h ->
       reachable shard_mb (start_state h) st ->
       NoDup (map e_src heads)
       /\ NoDup (map e_src (heap st))
       /\ forall a b, In a (heap st) -> In b (heap st) -> a <> b ->
            e_src a <> e_src b
            /\ (exists lt, tuple_lt a b = Ok lt)
            /\ (entry_lt a b \/ entry_lt b a).
Proof.
  pose proof (first_heads_cases (open_iters run_files)) as Hheads.
  pose proof (open_iters_indices run_files) as Hidx.
  split.
  - unfold merge_files.
    destruct (first_heads (open_iters run_files)) as [heads|x]; simpl;
      [|subst x; discriminate].
    destruct Hheads as [_ Hnd]. specialize (Hnd Hidx).
    destruct (heapify_ok heads Hnd) as (h & -> & Hperm & _). simpl.
    pose proof (merge_loop_no_type_error shard_mb (start_state h)) as Hloop.
    destruct (merge_loop shard_mb (start_state h)) as [st|x]; simpl; [discriminate|].
    intros [= ->]. apply Hloop; [|reflexivity].
    simpl. eapply Permutation_NoDup; [|exact Hnd].
    apply Permutation_map, Permutation_sym, Hperm.
  - intros heads h st Hfirst Hheapify Hreach. rewrite Hfirst in Hheads.
    destruct Hheads as [_ Hnd]. specialize (Hnd Hidx).
    destruct (heapify_ok heads Hnd) as (h1 & Hh1 & Hperm & _).
    rewrite Hheapify in Hh1. injection Hh1 as <-.
    assert (Hst : NoDup (map e_src (heap st))).
    { eapply reachable_srcs; [exact Hreach|]. simpl.
      eapply Permutation_NoDup; [|exact Hnd].
      apply Permutation_map, Permutation_sym, Hperm. }
    split; [exact Hnd|]. split; [exact Hst|].
    intros a b Ha Hb Hab.
    assert (Hsrc : e_src a <> e_src b).
    { intros E. apply Hab.
      eapply (NoDup_map_eq e_src); eauto. }
    split; [exact Hsrc|].
    pose proof (tuple_lt_cases a b) as Hc.
    destruct (tuple_lt a b) as [[|]|x]; [eauto..|].
    destruct Hc as (_ & _ & E). contradiction.
Qed.

(** ** Runs written by the spiller *)

Lemma parsed_fmt_rows (rows : list row) :
  Forall clean_row rows -> parsed (map fmt_row rows) = rows.
Proof.
  unfold parsed. induction 1 as [|r rows Hr _ IH]; simpl; [reflexivity|].
  rewrite parse_line_fmt_row by exact Hr. simpl. f_equal. exact IH.
Qed.

Lemma next_entry_wf (e : entry) (r : row) (rest : list row) :
  wf_entry e ->
  parsed (gen_lines (e_it e)) = r :: rest ->
  wf_entry (next_entry e r (map fmt_row rest))
  /\ pending (next_entry e r (map fmt_row rest)) = r :: rest.
Proof.
  intros [Hclean Hlines] Hp. unfold pending in Hclean. rewrite Hp in Hclean.
  apply Forall_inv_tail in Hclean.
  assert (Hrest : parsed (map fmt_row rest) = rest).
  { apply parsed_fmt_rows. apply Forall_inv_tail in Hclean. exact Hclean. }
  unfold wf_entry, pending, next_entry. simpl. rewrite Hrest. auto.
Qed.

Lemma advance_wf (e : entry) (h : list entry) :
  wf_entry e ->
  ~ In (e_src e) (map e_src h) ->
  match parsed (gen_lines (e_it e)) with
  | [] => advance e h = Ok h
  | r :: rest =>
      exists h', advance e h = Ok h'
                 /\ heappush h (next_entry e r (map fmt_row rest)) = Ok h'
  end.
Proof.
  intros Hwf Hsrc. pose proof Hwf as [Hclean Hlines].
  destruct (parsed (gen_lines (e_it e))) as [|r rest] eqn:Hp.
  - unfold advance, gen_next. rewrite Hlines. reflexivity.
  - unfold advance, gen_next. rewrite Hlines. simpl.
    unfold pending in Hclean. rewrite Hp in Hclean.
    rewrite parse_line_fmt_row
      by (apply Forall_inv_tail in Hclean; apply Forall_inv in Hclean; exact Hclean).
    simpl. fold (next_entry e r (map fmt_row rest)).
    destruct (heappush h (next_entry e r (map fmt_row rest))) as [h'|x] eqn:E;
      [eauto|].
    apply heappush_raise in E as [_ Hin]. contradiction.
Qed.

Lemma flat_map_perm {A B : Type} (f : A -> list B) (l l' : list A) :
  Permutation l l' -> Permutation (flat_map f l) (flat_map f l').
Proof.
  induction 1; simpl.
  - apply Permutation_refl.
  - apply Permutation_app_head. assumption.
  - rewrite !app_assoc. apply Permutation_app_tail, Permutation_app_comm.
  - etransitivity; eassumption.
Qed.

(** One turn on a heap of such items: it goes through, the heap stays in
    order, and the rows still to come are those of before without the one
    popped. *)
Lemma advance_ok (e : entry) (h : list entry) :
  heap_ok (e :: h) ->
  exists h',
    advance e h = Ok h'
    /\ heap_ok h'
    /\ Permutation (flat_map pending (e :: h)) (e_row e :: flat_map pending h')
    /\ (forall x, In x h -> In x h')
    /\ (forall x, In x h' ->
          In x h \/ (e_src x = e_src e /\ exists r rest,
                       pending e = e_row e :: r :: rest /\ pending x = r :: rest)).
Proof.
  intros (Hs & Hnd & Hwf).
  inversion Hs as [|? ? Hsh _]; subst. inversion Hnd as [|? ? Hsrc Hndh]; subst.
  inversion Hwf as [|? ? Hwe Hwh]; subst.
  pose proof (advance_wf e h Hwe Hsrc) as Hadv.
  destruct (parsed (gen_lines (e_it e))) as [|r rest] eqn:Hp.
  - exists h. split; [exact Hadv|]. split; [repeat split; assumption|].
    split; [|split; [auto | auto]].
    cbn [flat_map]. unfold pending at 1. rewrite Hp. apply Permutation_refl.
  - destruct Hadv as (h' & Hadv & Hpush).
    destruct (next_entry_wf e r rest Hwe Hp) as [Hwn Hpn].
    pose proof (heappush_perm _ _ _ Hpush) as Hperm.
    exists h'. split; [exact Hadv|]. split; [|split; [|split]].
    + split; [eapply heappush_sorted; eauto|]. split.
      * eapply Permutation_NoDup;
          [apply Permutation_map, Permutation_sym, Hperm|]. exact Hnd.
      * rewrite Forall_forall. intros x Hx. apply (Permutation_in _ Hperm) in Hx.
        destruct Hx as [<-|Hx]; [exact Hwn|]. rewrite Forall_forall in Hwh. auto.
    + rewrite (flat_map_perm pending _ _ Hperm). cbn [flat_map]. rewrite Hpn.
      unfold pending at 1. rewrite Hp. list_norm. apply Permutation_refl.
    + intros x Hx. apply (Permutation_in _ (Permutation_sym Hperm)). right. exact Hx.
    + intros x Hx. apply (Permutation_in _ Hperm) in Hx. destruct Hx as [<-|Hx]; [|auto].
      right. split; [reflexivity|]. exists r, rest. split; [|exact Hpn].
      unfold pending. rewrite Hp. reflexivity.
Qed.

(** On such a heap the loop runs to its end. *)
Lemma pops_exists (mb : Z) (st : merge_state) :
  heap_ok (heap st) -> exists tr st', pops mb st tr st'.
Proof.
  remember (heap_weight (heap st)) as n eqn:Hn. revert st Hn.
  induction n as [n IH] using lt_wf_ind. intros st Hn Hok.
  destruct (heap st) as [|e h] eqn:Hheap.
  - exists [], st. apply pops_done, Hheap.
  - destruct (advance_ok e h Hok) as (h' & Hadv & Hok' & _).
    destruct (IH (heap_weight h')) with (st := write_record mb st e h')
      as (tr & st' & Htr).
    + subst n. eapply advance_weight, Hadv.
    + rewrite write_record_heap. reflexivity.
    + rewrite write_record_heap. exact Hok'.
    + exists (e :: tr), st'. eapply pops_turn; eauto.
Qed.

(** The rows popped are the rows that were pending. *)
Lemma pops_rows (mb : Z) (st : merge_state) (tr : list entry) (st' : merge_state) :
  pops mb st tr st' ->
  heap_ok (heap st) ->
  Permutation (map e_row tr) (flat_map pending (heap st)).
Proof.
  induction 1 as [st Hheap | st e h h' tr st' Hheap Hadv _ IH]; intros Hok.
  - rewrite Hheap. apply Permutation_refl.
  - rewrite Hheap in Hok |- *.
    destruct (advance_ok e h Hok) as (h1 & Hadv1 & Hok' & Hperm & _).
    rewrite Hadv in Hadv1. injection Hadv1 as <-.
    rewrite write_record_heap in IH.
    rewrite Hperm. simpl. apply perm_skip, IH, Hok'.
Qed.

(** ** The heap of the first rows *)

Lemma enumerate_map {A B : Type} (f : A -> B) (l : list A) :
  enumerate (map f l) = map (fun p => (fst p, f (snd p))) (enumerate l).
Proof.
  unfold enumerate. rewrite length_map. generalize (seq 0 (length l)).
  induction l as [|x l IH]; intros [|n ns]; simpl; try reflexivity.
  rewrite IH. reflexivity.
Qed.

Lemma first_heads_runs (runs : list (Z * list row)) :
  Forall (fun p => Forall clean_row (snd p)) runs ->
  first_heads
    (map (fun p => {| gen_i := fst p; gen_lines := readlines (rows_text (snd p)) |}) runs)
  = Ok (run_heads runs).
Proof.
  induction 1 as [|[i rows] runs Hclean _ IH]; [reflexivity|].
  simpl in Hclean. cbn [map first_heads fst snd]. rewrite IH.
  unfold gen_next. cbn [gen_lines gen_i].
  rewrite readlines_rows_text by exact Hclean.
  destruct rows as [|r rest]; [reflexivity|]. cbn [map].
  rewrite parse_line_fmt_row by (apply Forall_inv in Hclean; exact Hclean).
  reflexivity.
Qed.

Lemma open_iters_runs (runs : list (list row)) :
  open_iters (map rows_text runs)
  = map (fun p => {| gen_i := fst p; gen_lines := readlines (rows_text (snd p)) |})
      (enumerate runs).
Proof.
  unfold open_iters. rewrite enumerate_map, map_map.
  apply map_ext. intros [i rows]. reflexivity.
Qed.

Lemma run_heads_wf (runs : list (Z * list row)) :
  Forall (fun p => Forall clean_row (snd p)) runs ->
  Forall wf_entry (run_heads runs)
  /\ flat_map pending (run_heads runs) = concat (map snd runs).
Proof.
  induction 1 as [|[i rows] runs Hclean _ [IHwf IHp]]; [split; [constructor | reflexivity]|].
  simpl in Hclean. destruct rows as [|r rest]; [exact (conj IHwf IHp)|].
  assert (Hparsed : parsed (map fmt_row rest) = rest).
  { apply parsed_fmt_rows. apply Forall_inv_tail in Hclean. exact Hclean. }
  split.
  - cbn [run_heads flat_map app]. constructor; [|exact IHwf].
    unfold wf_entry, pending. cbn [e_it e_row gen_lines]. rewrite Hparsed. auto.
  - cbn [run_heads flat_map app map snd concat]. fold (run_heads runs).
    rewrite IHp. unfold pending. cbn [e_it e_row gen_lines]. rewrite Hparsed.
    reflexivity.
Qed.

Lemma enumerate_clean (runs : list (list row)) :
  Forall (Forall clean_row) runs ->
  Forall (fun p => Forall clean_row (snd p)) (enumerate runs).
Proof.
  intros H. rewrite Forall_forall in *. intros [i rows] Hin.
  apply H. apply (in_map snd) in Hin. rewrite map_snd_enumerate in Hin. exact Hin.
Qed.

(** On runs in the format of the spiller [merge_files] returns: the heap of
    the first rows is in order, the loop pops some [tr] and ends in [st']. *)
Lemma merge_files_runs (runs : list (list row)) (mb : Z) :
  Forall (Forall clean_row) runs ->
  exists h tr st',
    Permutation h (run_heads (enumerate runs))
    /\ heap_ok h
    /\ pops mb (start_state h) tr st'
    /\ Permutation (map e_row tr) (concat runs)
    /\ merge_files (map rows_text runs) mb
       = Ok (closed st' ++ [(shard_idx st', out st')], (records st', shard_idx st' + 1)).
Proof.
  intros Hclean. apply enumerate_clean in Hclean.
  pose proof (first_heads_runs _ Hclean) as Hfirst.
  rewrite <- open_iters_runs in Hfirst.
  pose proof (first_heads_cases (open_iters (map rows_text runs))) as Hc.
  rewrite Hfirst in Hc. destruct Hc as [_ Hnd].
  specialize (Hnd (open_iters_indices _)).
  destruct (heapify_ok _ Hnd) as (h & Hheapify & Hperm & Hsorted).
  destruct (run_heads_wf _ Hclean) as [Hwf Hpending].
  assert (Hok : heap_ok h).
  { split; [exact Hsorted|]. split.
    - eapply Permutation_NoDup; [|exact Hnd].
      apply Permutation_map, Permutation_sym, Hperm.
    - rewrite Forall_forall in *. intros x Hx. apply Hwf.
      apply (Permutation_in _ Hperm), Hx. }
  destruct (pops_exists mb (start_state h) Hok) as (tr & st' & Hpops).
  exists h, tr, st'. split; [exact Hperm|]. split; [exact Hok|].
  split; [exact Hpops|]. split.
  - rewrite (pops_rows mb _ _ _ Hpops Hok). simpl.
    rewrite (flat_map_perm pending _ _ Hperm), Hpending, map_snd_enumerate.
    apply Permutation_refl.
  - unfold merge_files. rewrite Hfirst. simpl. rewrite Hheapify. simpl.
    rewrite (pops_sound mb _ _ _ Hpops). reflexivity.
Qed.

(** ** What the loop writes *)

Lemma fmt_row_len (r : row) :
  len (fmt_row r)
  = len (row_term r) + len (str_of_int (row_doc r)) + len (str_of_int (row_tf r)) + 3.
Proof.
  unfold fmt_row. rewrite !len_app.
  change (len [TAB]) with 1. change (len [LF]) with 1. lia.
Qed.

Lemma rows_text_app (a b : list row) : rows_text (a ++ b) = rows_text a ++ rows_text b.
Proof. unfold rows_text. rewrite map_app, concat_app. reflexivity. Qed.

Lemma rows_text_one (r : row) : rows_text [r] = fmt_row r.
Proof. unfold rows_text. simpl. apply app_nil_r. Qed.

Lemma write_record_text (mb : Z) (st : merge_state) (e : entry) (h' : list entry) :
  written_text (write_record mb st e h') = written_text st ++ fmt_row (e_row e)
  /\ records (write_record mb st e h') = records st + 1.
Proof.
  unfold write_record, written_text. destruct (_ >=? _); simpl; split; try reflexivity.
  - rewrite map_app, concat_app. simpl. rewrite !app_nil_r, app_assoc. reflexivity.
  - rewrite app_assoc. reflexivity.
Qed.

Lemma pops_text (mb : Z) (st : merge_state) (tr : list entry) (st' : merge_state) :
  pops mb st tr st' ->
  written_text st' = written_text st ++ rows_text (map e_row tr)
  /\ records st' = records st + len tr.
Proof.
  induction 1 as [st Hheap | st e h h' tr st' Hheap Hadv _ [IHt IHr]].
  - unfold len. simpl. rewrite app_nil_r. split; [reflexivity | lia].
  - destruct (write_record_text mb st e h') as [Ht Hr].
    rewrite IHt, IHr, Ht, Hr, len_cons. split; [|lia].
    change (map e_row (e :: tr)) with ([e_row e] ++ map e_row tr).
    rewrite rows_text_app, rows_text_one, app_assoc. reflexivity.
Qed.

Lemma write_record_shards (mb : Z) (st : merge_state) (e : entry) (h' : list entry)
  (gs : list (list row)) (g : list row) :
  shards_inv mb st gs g ->
  exists gs' g',
    shards_inv mb (write_record mb st e h') gs' g'
    /\ concat gs' ++ g' = concat gs ++ g ++ [e_row e].
Proof.
  intros (Hclosed & Hout & Hwritten & Hsize & Hidx & Hshard).
  unfold write_record. rewrite <- fmt_row_len, Hwritten, <- len_app.
  destruct (len (out st ++ fmt_row (e_row e)) >=? mb * 1024 * 1024) eqn:Hfull.
  - exists (gs ++ [g ++ [e_row e]]), []. split.
    + unfold shards_inv. cbn [closed out written_in_shard shard_idx].
      split; [|split; [reflexivity|split; [reflexivity|split; [|split]]]].
      * rewrite !map_app, Hclosed, Hout. cbn [map snd].
        rewrite rows_text_app, rows_text_one. reflexivity.
      * rewrite map_app. apply Forall_app. split; [exact Hsize|].
        constructor; [|constructor]. simpl. apply Z.geb_le, Hfull.
      * replace (length (closed st ++ [(shard_idx st, out st ++ fmt_row (e_row e))]))
          with (S (length (closed st))) by (rewrite length_app; simpl; lia).
        rewrite seq_S, !map_app, <- Hidx. simpl. rewrite Hshard. reflexivity.
      * rewrite len_app, Hshard. reflexivity.
    + rewrite concat_app. simpl. rewrite !app_nil_r. reflexivity.
  - exists gs, (g ++ [e_row e]). split; [|rewrite app_assoc; reflexivity].
    unfold shards_inv. cbn [closed out written_in_shard shard_idx].
    rewrite Hout, rows_text_app, rows_text_one. repeat split; assumption.
Qed.

Lemma pops_shards (mb : Z) (st : merge_state) (tr : list entry) (st' : merge_state) :
  pops mb st tr st' ->
  forall gs g,
    shards_inv mb st gs g ->
    exists gs' g',
      shards_inv mb st' gs' g'
      /\ concat gs' ++ g' = concat gs ++ g ++ map e_row tr.
Proof.
  induction 1 as [st Hheap | st e h h' tr st' Hheap Hadv _ IH]; intros gs g Hinv.
  - exists gs, g. simpl. rewrite app_nil_r. auto.
  - destruct (write_record_shards mb st e h' gs g Hinv) as (gs1 & g1 & Hinv1 & Hcat1).
    destruct (IH gs1 g1 Hinv1) as (gs' & g' & Hinv' & Hcat').
    exists gs', g'. split; [exact Hinv'|].
    rewrite Hcat', app_assoc, Hcat1. list_norm. reflexivity.
Qed.

Lemma start_state_shards (mb : Z) (h : list entry) :
  shards_inv mb (start_state h) [] [].
Proof. unfold shards_inv. simpl. repeat split; constructor. Qed.

Lemma len_le_byte_size (s : str) : len s <= byte_size s.
Proof.
  induction s as [|c s IH]; [unfold len; simpl; lia|].
  rewrite len_cons. change (byte_size (c :: s)) with (utf8_len c + byte_size s).
  unfold utf8_len. destruct (c <? 128), (c <? 2048), (c <? 65536); lia.
Qed.

Lemma in_front_of_last {A : Type} (l pre post : list A) (x s : A) :
  l ++ [x] = pre ++ s :: post -> post <> [] -> In s l.
Proof.
  intros E Hpost. destruct (exists_last Hpost) as (post' & z & ->).
  change (pre ++ s :: post' ++ [z]) with (pre ++ (s :: post') ++ [z]) in E.
  rewrite app_assoc in E. apply app_inj_tail in E as [-> _].
  apply in_or_app. right. left. reflexivity.
Qed.

Lemma enumerate_snoc {A : Type} (l : list A) (x : A) :
  enumerate (l ++ [x]) = enumerate l ++ [(len l, x)].
Proof.
  unfold enumerate, len.
  replace (Z.of_nat (length l)) with (Z.of_nat (0 + length l)) by reflexivity.
  generalize 0%nat. induction l as [|y l IH]; intros n; simpl.
  - rewrite Nat.add_0_r. reflexivity.
  - rewrite IH. replace (n + S (length l))%nat with (S n + length l)%nat by lia.
    reflexivity.
Qed.

(** Proves that concrete rows are clean. *)
Ltac clean_rows :=
  repeat constructor; cbv; intuition discriminate.

Lemma pairs_combine {A B : Type} (l : list (A * B)) :
  l = combine (map fst l) (map snd l).
Proof.
  induction l as [|[a b] l IH]; simpl; [reflexivity|]. rewrite <- IH. reflexivity.
Qed.

(** What [merge_files] returns on runs in the format of the spiller: shards
    0, 1, 2, ... holding the rows [groups], which together are the rows of
    the runs. *)
Lemma merge_files_groups (runs : list (list row)) (shard_mb : Z) :
  Forall (Forall clean_row) runs ->
  exists groups,
    merge_files (map rows_text runs) shard_mb
    = Ok (enumerate (map rows_text groups), (len (concat groups), len groups))
    /\ Permutation (concat groups) (concat runs)
    /\ groups <> []
    /\ forall pre g post,
         groups = pre ++ g :: post -> post <> [] ->
         shard_mb * 1024 * 1024 <= len (rows_text g).
Proof.
  intros Hclean.
  destruct (merge_files_runs runs shard_mb Hclean)
    as (h & tr & st' & _ & _ & Hpops & Hrows & Hmerge).
  destruct (pops_shards shard_mb _ _ _ Hpops [] [] (start_state_shards shard_mb h))
    as (gs & g & (Hclosed & Hout & _ & Hsize & Hidx & Hshard) & Hcat).
  destruct (pops_text shard_mb _ _ _ Hpops) as [_ Hrecords].
  simpl in Hcat, Hrecords.
  assert (Hlen : length (closed st') = length gs).
  { rewrite <- (length_map snd), Hclosed, length_map. reflexivity. }
  exists (gs ++ [g]). split; [|split; [|split]].
  - rewrite Hmerge. rewrite map_app. cbn [map]. rewrite enumerate_snoc.
    rewrite (pairs_combine (closed st')), Hidx, Hclosed, Hlen.
    unfold enumerate at 1. rewrite length_map, Hout, Hshard.
    unfold len. rewrite concat_app, length_map. simpl concat.
    rewrite app_nil_r, Hcat, Hrecords, Hlen, length_map, length_app. simpl length.
    repeat f_equal; lia.
  - rewrite concat_app. simpl. rewrite app_nil_r, Hcat. exact Hrows.
  - destruct gs; discriminate.
  - intros pre g0 post E Hpost. apply in_front_of_last in E; [|exact Hpost].
    rewrite Forall_forall in Hsize. apply Hsize. rewrite Hclosed.
    apply in_map, E.
Qed.

(** C5: on runs in the format of the spiller, for every threshold, the merge
    returns shards numbered 0, 1, 2, ...; every shard file is the text of a
    whole number of rows ([groups] lists the rows of each shard, and together
    they are the rows of the runs), so no row is split across two files; and
    every shard but the last has at least [shard_mb * 1024 * 1024] bytes. *)
Theorem shards_reach_threshold_and_hold_whole_rows
  (runs : list (list row)) (shard_mb : Z) :
  Forall (Forall clean_row) runs ->
  exists shards records nshards groups,
    merge_files (map rows_text runs) shard_mb = Ok (shards, (records, nshards))
    /\ map snd shards = map rows_text groups
    /\ Permutation (concat groups) (concat runs)
    /\ (forall pre s post,
          map snd shards = pre ++ s :: post -> post <> [] ->
          shard_mb * 1024 * 1024 <= byte_size s)
    /\ map fst shards = map Z.of_nat (seq 0 (length shards))
    /\ nshards = len shards.
Proof.
  intros Hclean.
  destruct (merge_files_groups runs shard_mb Hclean)
    as (groups & Hmerge & Hperm & _ & Hsize).
  exists (enumerate (map rows_text groups)), (len (concat groups)), (len groups), groups.
  split; [exact Hmerge|]. rewrite map_snd_enumerate, map_fst_enumerate.
  split; [reflexivity|]. split; [exact Hperm|]. split; [|split].
  - intros pre s post E Hpost.
    apply map_eq_app in E as (gpre & grest & -> & _ & E).
    apply map_eq_cons in E as (g & gpost & -> & <- & <-).
    pose proof (len_le_byte_size (rows_text g)).
    assert (shard_mb * 1024 * 1024 <= len (rows_text g)); [|lia].
    apply (Hsize gpre g gpost eq_refl). intros ->. apply Hpost. reflexivity.
  - f_equal. f_equal. unfold enumerate.
    rewrite length_combine, !length_map, length_seq. lia.
  - unfold len, enumerate. rewrite length_combine, !length_map, length_seq.
    f_equal. lia.
Qed.

Lemma pops_own_shard (mb : Z) (st : merge_state) (tr : list entry) (st' : merge_state) :
  pops mb st tr st' ->
  Forall (fun e => mb * 1024 * 1024 < len (fmt_row (e_row e))) tr ->
  forall emitted,
    own_shard_inv st emitted -> own_shard_inv st' (emitted ++ map e_row tr).
Proof.
  induction 1 as [st Hheap | st e h h' tr st' Hheap Hadv _ IH];
    intros Hsmall emitted Hinv.
  - simpl. rewrite app_nil_r. exact Hinv.
  - inversion Hsmall as [|? ? He Htr]; subst.
    change (map e_row (e :: tr)) with ([e_row e] ++ map e_row tr).
    rewrite app_assoc. apply IH; [exact Htr|].
    destruct Hinv as (Hout & Hwritten & Hclosed & Hshard & Hrecords).
    unfold write_record. rewrite <- fmt_row_len, Hwritten, Hout.
    destruct (0 + len (fmt_row (e_row e)) >=? mb * 1024 * 1024) eqn:Hfull;
      [|rewrite Z.geb_leb in Hfull; apply Z.leb_gt in Hfull; lia].
    unfold own_shard_inv. cbn [closed out written_in_shard shard_idx records].
    rewrite map_app. cbn [map app].
    rewrite enumerate_snoc, Hclosed, Hshard, Hrecords, len_app.
    unfold len. rewrite length_map. repeat split; reflexivity.
Qed.

Lemma long_term_clean (c : char) (d tf : Z) :
  c <> TAB -> c <> LF -> c <> CR -> clean_row (long_term c, d, tf).
Proof.
  intros Ht Hl Hc. unfold clean_row, row_term, long_term. cbn [fst].
  repeat split; intros Hin; apply repeat_spec in Hin; congruence.
Qed.

Lemma long_runs_clean : Forall (Forall clean_row) long_runs.
Proof.
  unfold long_runs. repeat constructor; apply long_term_clean; discriminate.
Qed.

Lemma long_term_row_len (c : char) (d tf : Z) :
  1 * 1024 * 1024 < len (fmt_row (long_term c, d, tf)).
Proof.
  rewrite fmt_row_len. unfold row_term, row_doc, row_tf, long_term. cbn [fst snd].
  pose proof (len_nonneg (str_of_int d)). pose proof (len_nonneg (str_of_int tf)).
  unfold len at 1. rewrite repeat_length, Z2Nat.id by lia. lia.
Qed.

Lemma long_runs_above_threshold (r : row) :
  In r (concat long_runs) -> 1 * 1024 * 1024 < len (fmt_row r).
Proof.
  unfold long_runs. cbn [concat app]. intros [<-|[<-|[]]]; apply long_term_row_len.
Qed.

(** With a threshold below every row, every row gets a shard of its own and
    an empty shard is left open. *)
Lemma merge_files_own_shards (runs : list (list row)) (shard_mb : Z) :
  Forall (Forall clean_row) runs ->
  (forall r, In r (concat runs) -> shard_mb * 1024 * 1024 < len (fmt_row r)) ->
  exists rows,
    Permutation rows (concat runs)
    /\ merge_files (map rows_text runs) shard_mb
       = Ok (enumerate (map fmt_row rows ++ [[]]), (len rows, len rows + 1)).
Proof.
  intros Hclean Hsmall.
  destruct (merge_files_runs runs shard_mb Hclean)
    as (h & tr & st' & _ & _ & Hpops & Hrows & Hmerge).
  assert (Hinv : own_shard_inv st' ([] ++ map e_row tr)).
  { apply (pops_own_shard shard_mb _ _ _ Hpops).
    - rewrite Forall_forall. intros e He. apply Hsmall.
      apply (Permutation_in _ Hrows). apply in_map, He.
    - repeat split. }
  simpl in Hinv. destruct Hinv as (Hout & _ & Hclosed & Hshard & Hrecords).
  exists (map e_row tr). split; [exact Hrows|].
  rewrite Hmerge, Hout, Hclosed, Hshard, Hrecords, enumerate_snoc.
  unfold len. rewrite !length_map. reflexivity.
Qed.

Lemma shards_reach_threshold_example :
  Forall (Forall clean_row) long_runs
  /\ (exists rows,
        Permutation rows (concat long_runs)
        /\ merge_files (map rows_text long_runs) 1
           = Ok (enumerate (map fmt_row rows ++ [[]]), (2, 3)))
  /\ exists shards records nshards groups,
       merge_files (map rows_text long_runs) 1 = Ok (shards, (records, nshards))
       /\ map snd shards = map rows_text groups
       /\ Permutation (concat groups) (concat long_runs)
       /\ (forall pre s post,
             map snd shards = pre ++ s :: post -> post <> [] ->
             1 * 1024 * 1024 <= byte_size s)
       /\ map fst shards = map Z.of_nat (seq 0 (length shards))
       /\ nshards = len shards.
Proof.
  split; [exact long_runs_clean|]. split.
  - destruct (merge_files_own_shards long_runs 1 long_runs_clean long_runs_above_threshold)
      as (rows & Hperm & Hmerge).
    exists rows. split; [exact Hperm|]. rewrite Hmerge.
    assert (Hlen : len rows = 2).
    { unfold len. rewrite (Permutation_length Hperm). reflexivity. }
    rewrite Hlen. reflexivity.
  - apply (shards_reach_threshold_and_hold_whole_rows long_runs 1).
    exact long_runs_clean.
Defined.

(** C7, as the code has it: when the threshold is below the size of every
    row (the size the code adds up, in characters), every row is written to
    a shard of its own, in the order of the merge, and one more shard, empty,
    is left open after the last row; the merge returns the number of rows as
    record count and that number plus one as shard count. *)
Theorem small_threshold_one_row_per_shard (runs : list (list row)) (shard_mb : Z) :
  Forall (Forall clean_row) runs ->
  (forall r, In r (concat runs) -> shard_mb * 1024 * 1024 < len (fmt_row r)) ->
  exists rows,
    Permutation rows (concat runs)
    /\ merge_files (map rows_text runs) shard_mb
       = Ok (enumerate (map fmt_row rows ++ [[]]), (len rows, len rows + 1)).
Proof.
  intros Hclean Hsmall.
  destruct (merge_files_runs runs shard_mb Hclean)
    as (h & tr & st' & _ & _ & Hpops & Hrows & Hmerge).
  assert (Hinv : own_shard_inv st' ([] ++ map e_row tr)).
  { apply (pops_own_shard shard_mb _ _ _ Hpops).
    - rewrite Forall_forall. intros e He. apply Hsmall.
      apply (Permutation_in _ Hrows). apply in_map, He.
    - repeat split. }
  simpl in Hinv. destruct Hinv as (Hout & _ & Hclosed & Hshard & Hrecords).
  exists (map e_row tr). split; [exact Hrows|].
  rewrite Hmerge, Hout, Hclosed, Hshard, Hrecords, enumerate_snoc.
  unfold len. rewrite !length_map. reflexivity.
Qed.

Lemma small_threshold_example :
  Forall (Forall clean_row) [[(lit "ana", 0, 1)]; [(lit "boda", 1, 1)]]
  /\ (forall r, In r (concat [[(lit "ana", 0, 1)]; [(lit "boda", 1, 1)]]) ->
        0 * 1024 * 1024 < len (fmt_row r))
  /\ exists rows,
       Permutation rows (concat [[(lit "ana", 0, 1)]; [(lit "boda", 1, 1)]])
       /\ merge_files (map rows_text [[(lit "ana", 0, 1)]; [(lit "boda", 1, 1)]]) 0
          = Ok (enumerate (map fmt_row rows ++ [[]]), (len rows, len rows + 1)).
Proof.
  assert (Hsmall : forall r, In r (concat [[(lit "ana", 0, 1)]; [(lit "boda", 1, 1)]]) ->
                     0 * 1024 * 1024 < len (fmt_row r)).
  { intros r [<-|[<-|[]]]; reflexivity. }
  split; [clean_rows|]. split; [exact Hsmall|].
  apply (small_threshold_one_row_per_shard
           [[(lit "ana", 0, 1)]; [(lit "boda", 1, 1)]] 0); [clean_rows | exact Hsmall].
Defined.

(** C7 as stated fails: with threshold 0 and the two one-row runs of the
    spec's scenario the merge writes "ana" to shard 0, "boda" to shard 1, opens
    an empty shard 2, and returns 2 records and 3 shards. *)
Lemma small_threshold_leaves_an_empty_shard :
  (forall r, In r [(lit "ana", 0, 1); (lit "boda", 1, 1)] ->
     0 * 1024 * 1024 < byte_size (fmt_row r))
  /\ merge_files [rows_text [(lit "ana", 0, 1)]; rows_text [(lit "boda", 1, 1)]] 0
     = Ok ([(0, fmt_row (lit "ana", 0, 1)); (1, fmt_row (lit "boda", 1, 1)); (2, [])],
           (2, 3))
  /\ 3 <> 2.
Proof.
  split; [intros r [<-|[<-|[]]]; reflexivity|]. split; [reflexivity | discriminate].
Qed.

(** ** The order of the merged rows *)

Lemma key_le_transitive : Relation_Definitions.transitive row key_le.
Proof. intros a b c. apply key_le_trans. Qed.

Lemma pending_new_sorted (e x : entry) (r : row) (rest : list row) :
  StronglySorted key_le (pending e) ->
  pending e = e_row e :: r :: rest ->
  pending x = r :: rest ->
  StronglySorted key_le (pending x) /\ Forall (key_le (e_row e)) (pending x).
Proof.
  intros Hs He Hx. rewrite He in Hs. rewrite Hx.
  apply StronglySorted_inv in Hs. exact Hs.
Qed.

Lemma pops_sorted (mb : Z) (st : merge_state) (tr : list entry) (st' : merge_state) :
  pops mb st tr st' ->
  heap_ok (heap st) ->
  Forall (fun e => StronglySorted key_le (pending e)) (heap st) ->
  StronglySorted key_le (map e_row tr).
Proof.
  induction 1 as [st Hheap | st e h h' tr st' Hheap Hadv Hpops IH];
    intros Hok Hruns; [constructor|].
  rewrite Hheap in Hok, Hruns.
  destruct (advance_ok e h Hok) as (h1 & Hadv1 & Hok' & _ & _ & Hfrom).
  rewrite Hadv in Hadv1. injection Hadv1 as <-.
  rewrite write_record_heap in IH.
  inversion Hruns as [|? ? Hrun_e Hrun_h]; subst.
  destruct Hok as (Hsorted & _ & _). apply StronglySorted_inv in Hsorted as [_ Hmin].
  rewrite Forall_forall in Hrun_h, Hmin.
  assert (Hnext : forall x, In x h' ->
            StronglySorted key_le (pending x) /\ Forall (key_le (e_row e)) (pending x)).
  { intros x Hx. destruct (Hfrom x Hx) as [Hin|(_ & r & rest & He & Hpx)].
    - split; [auto|]. pose proof (Hrun_h x Hin) as Hsx.
      unfold pending in Hsx |- *. apply StronglySorted_inv in Hsx as [_ Hsx].
      pose proof (entry_lt_key_le e x (Hmin x Hin)) as Hle.
      constructor; [exact Hle|].
      eapply Forall_impl; [|exact Hsx]. intros y Hy. eapply key_le_trans; eauto.
    - eapply pending_new_sorted; eauto. }
  simpl. constructor.
  - apply IH; [exact Hok'|]. rewrite Forall_forall. intros x Hx. apply Hnext, Hx.
  - rewrite Forall_forall. intros y Hy.
    apply (Permutation_in _ (pops_rows mb _ _ _ Hpops
             ltac:(rewrite write_record_heap; exact Hok'))) in Hy.
    rewrite write_record_heap in Hy. apply in_flat_map in Hy as (x & Hx & Hyx).
    destruct (Hnext x Hx) as [_ Hall]. rewrite Forall_forall in Hall. auto.
Qed.

Lemma run_heads_pending (runs : list (Z * list row)) (e : entry) :
  Forall (fun p => Forall clean_row (snd p)) runs ->
  In e (run_heads runs) -> In (pending e) (map snd runs).
Proof.
  intros Hclean Hin. apply in_flat_map in Hin as ([i rows] & Hrun & He).
  rewrite Forall_forall in Hclean. pose proof (Hclean _ Hrun) as Hc. simpl in Hc.
  destruct rows as [|r rest]; [contradiction|]. destruct He as [<-|[]].
  unfold pending. simpl. rewrite parsed_fmt_rows by (inversion Hc; assumption).
  apply (in_map snd) in Hrun. exact Hrun.
Qed.

Lemma written_text_final (st : merge_state) :
  concat (map snd (closed st ++ [(shard_idx st, out st)])) = written_text st.
Proof.
  unfold written_text. rewrite map_app, concat_app. simpl. rewrite app_nil_r.
  reflexivity.
Qed.

(** C2: when every run is sorted by (term, doc id), the shard files, read
    one after the other, hold the rows of the runs in an order in which every
    row is followed by a row whose term is greater, or whose term is the same
    and whose doc id is not smaller; shard boundaries are no exception. *)
Theorem merged_shards_are_sorted (runs : list (list row)) (shard_mb : Z) :
  Forall (Forall clean_row) runs ->
  Forall (Sorted key_le) runs ->
  exists shards records nshards rows,
    merge_files (map rows_text runs) shard_mb = Ok (shards, (records, nshards))
    /\ concat (map snd shards) = rows_text rows
    /\ Permutation rows (concat runs)
    /\ forall pre a b post,
         rows = pre ++ a :: b :: post ->
         str_lt (row_term a) (row_term b)
         \/ (row_term a = row_term b /\ row_doc a <= row_doc b).
Proof.
  intros Hclean Hsorted.
  destruct (merge_files_runs runs shard_mb Hclean)
    as (h & tr & st' & Hperm & Hok & Hpops & Hrows & Hmerge).
  exists (closed st' ++ [(shard_idx st', out st')]), (records st'),
    (shard_idx st' + 1), (map e_row tr).
  split; [exact Hmerge|]. split; [|split; [exact Hrows|]].
  - rewrite written_text_final. apply (pops_text shard_mb _ _ _ Hpops).
  - assert (Hs : StronglySorted key_le (map e_row tr)).
    { apply (pops_sorted shard_mb _ _ _ Hpops Hok). simpl.
      rewrite Forall_forall. intros e He.
      apply (Permutation_in _ Hperm) in He.
      apply run_heads_pending in He; [|apply enumerate_clean, Hclean].
      rewrite map_snd_enumerate in He. rewrite Forall_forall in Hsorted.
      apply Sorted_StronglySorted; [exact key_le_transitive | auto]. }
    intros pre a b post E. rewrite E in Hs.
    apply key_le_iff. clear E. induction pre as [|p pre IH]; simpl in Hs.
    + apply StronglySorted_inv in Hs as [_ Hall]. apply Forall_inv in Hall. exact Hall.
    + apply StronglySorted_inv in Hs as [Hs _]. auto.
Qed.

Lemma merged_shards_are_sorted_example :
  Forall (Forall clean_row) [[(lit "boda", 1, 1)]; [(lit "ana", 0, 1)]]
  /\ Forall (Sorted key_le) [[(lit "boda", 1, 1)]; [(lit "ana", 0, 1)]]
  /\ merge_files (map rows_text [[(lit "boda", 1, 1)]; [(lit "ana", 0, 1)]]) 256
     = Ok ([(0, rows_text [(lit "ana", 0, 1); (lit "boda", 1, 1)])], (2, 1))
  /\ exists shards records nshards rows,
       merge_files (map rows_text [[(lit "boda", 1, 1)]; [(lit "ana", 0, 1)]]) 256
       = Ok (shards, (records, nshards))
       /\ concat (map snd shards) = rows_text rows
       /\ Permutation rows (concat [[(lit "boda", 1, 1)]; [(lit "ana", 0, 1)]])
       /\ forall pre a b post,
            rows = pre ++ a :: b :: post ->
            str_lt (row_term a) (row_term b)
            \/ (row_term a = row_term b /\ row_doc a <= row_doc b).
Proof.
  assert (Hs : Forall (Sorted key_le) [[(lit "boda", 1, 1)]; [(lit "ana", 0, 1)]])
    by (repeat constructor).
  split; [clean_rows|]. split; [exact Hs|]. split; [reflexivity|].
  apply (merged_shards_are_sorted [[(lit "boda", 1, 1)]; [(lit "ana", 0, 1)]] 256);
    [clean_rows | exact Hs].
Defined.

(** ** Ties between runs *)









(** ** Files *)

Lemma mem_true (d : str) (l : list str) : mem d l = true <-> In d l.
Proof. unfold mem. destruct (in_dec str_eq_dec d l); intuition discriminate. Qed.

Lemma read_write_same (fs fs' : filesystem) (p : path) (s : str) :
  write_file fs p s = Ok fs' -> read_file fs' p = Ok s.
Proof.
  unfold write_file, read_file. destruct (mem (fst p) (dirs fs)); [|discriminate].
  intros [= <-]. simpl. rewrite dict_get_update.
  destruct (path_eq_dec p p); [reflexivity | congruence].
Qed.

Lemma read_write_other (fs fs' : filesystem) (p q : path) (s : str) :
  write_file fs p s = Ok fs' -> q <> p -> read_file fs' q = read_file fs q.
Proof.
  unfold write_file, read_file. destruct (mem (fst p) (dirs fs)); [|discriminate].
  intros [= <-] Hne. simpl. rewrite dict_get_update.
  destruct (path_eq_dec q p); [congruence | reflexivity].
Qed.

Lemma write_file_dirs (fs fs' : filesystem) (p : path) (s : str) :
  write_file fs p s = Ok fs' -> dirs fs' = dirs fs.
Proof.
  unfold write_file. destruct (mem (fst p) (dirs fs)); [|discriminate].
  intros [= <-]. reflexivity.
Qed.

Lemma write_file_ok (fs : filesystem) (p : path) (s : str) :
  In (fst p) (dirs fs) -> exists fs', write_file fs p s = Ok fs'.
Proof.
  intros H. unfold write_file. apply mem_true in H. rewrite H. eauto.
Qed.

Lemma makedirs_dirs (fs : filesystem) (d : str) (x : str) :
  In x (dirs (makedirs fs d)) <-> x = d \/ In x (dirs fs).
Proof.
  unfold makedirs. destruct (mem d (dirs fs)) eqn:E; simpl.
  - apply mem_true in E. intuition congruence.
  - intuition.
Qed.

Lemma makedirs_files (fs : filesystem) (d : str) : files (makedirs fs d) = files fs.
Proof. unfold makedirs. destruct (mem d (dirs fs)); reflexivity. Qed.

Lemma read_makedirs (fs : filesystem) (d : str) (p : path) :
  read_file (makedirs fs d) p = read_file fs p.
Proof. unfold read_file. rewrite makedirs_files. reflexivity. Qed.

Lemma dict_get_filter (l : list (path * str)) (p q : path) :
  dict_get path_eq_dec (filter (fun e => negb (is_path p e)) l) q
  = if path_eq_dec q p then None else dict_get path_eq_dec l q.
Proof.
  induction l as [|[k v] l IH]; simpl.
  - destruct (path_eq_dec q p); reflexivity.
  - unfold is_path at 1. simpl. destruct (path_eq_dec k p) as [->|Hk]; simpl.
    + rewrite IH. destruct (path_eq_dec q p); reflexivity.
    + rewrite IH. destruct (path_eq_dec q k) as [->|Hq]; [|reflexivity].
      destruct (path_eq_dec k p); [congruence | reflexivity].
Qed.

Lemma existsb_is_path (l : list (path * str)) (p : path) :
  existsb (is_path p) l = false -> dict_get path_eq_dec l p = None.
Proof.
  induction l as [|[k v] l IH]; simpl; [reflexivity|].
  unfold is_path at 1. simpl. destruct (path_eq_dec k p) as [->|Hk]; simpl;
    intros H; [discriminate H|].
  destruct (path_eq_dec p k); [congruence | auto].
Qed.

(** Removing a file, errors ignored: the file is gone, the others stay. *)
Lemma read_remove (fs : filesystem) (p q : path) :
  read_file (ignore_errors fs (os_remove fs p)) q
  = if path_eq_dec q p then Raise FileNotFoundError else read_file fs q.
Proof.
  unfold os_remove, read_file.
  destruct (existsb (is_path p) (files fs)) eqn:E; simpl.
  - rewrite dict_get_filter. destruct (path_eq_dec q p); reflexivity.
  - destruct (path_eq_dec q p) as [->|]; [|reflexivity].
    rewrite existsb_is_path by exact E. reflexivity.
Qed.

Lemma remove_dirs (fs : filesystem) (p : path) :
  dirs (ignore_errors fs (os_remove fs p)) = dirs fs.
Proof.
  unfold os_remove. destruct (existsb (is_path p) (files fs)); reflexivity.
Qed.

Lemma read_remove_chunks (ps : list path) (fs : filesystem) (q : path) :
  read_file (remove_chunks fs ps) q
  = if in_dec path_eq_dec q ps then Raise FileNotFoundError else read_file fs q.
Proof.
  unfold remove_chunks. revert fs. induction ps as [|p ps IH]; intros fs; simpl.
  - reflexivity.
  - rewrite IH, read_remove.
    destruct (path_eq_dec p q) as [->|Hpq].
    + destruct (path_eq_dec q q); [|congruence]. destruct (in_dec _ q ps); reflexivity.
    + destruct (path_eq_dec q p); [congruence|]. destruct (in_dec _ q ps); reflexivity.
Qed.

Lemma remove_chunks_dirs (ps : list path) (fs : filesystem) :
  dirs (remove_chunks fs ps) = dirs fs.
Proof.
  unfold remove_chunks. revert fs. induction ps as [|p ps IH]; intros fs; simpl.
  - reflexivity.
  - rewrite IH. apply remove_dirs.
Qed.

Lemma existsb_in_dir (l : list (path * str)) (d : str) :
  existsb (in_dir d) l = false
  <-> forall name, dict_get path_eq_dec l (d, name) = None.
Proof.
  induction l as [|[[kd kn] v] l IH]; simpl; [tauto|].
  unfold in_dir at 1. simpl. destruct (str_eq_dec kd d) as [->|Hd]; simpl.
  - split; [discriminate|]. intros H. specialize (H kn).
    destruct (path_eq_dec (d, kn) (d, kn)); [discriminate | congruence].
  - rewrite IH. split; intros H name; specialize (H name);
      destruct (path_eq_dec (d, name) (kd, kn)); congruence.
Qed.

Lemma read_rmdir (fs : filesystem) (d : str) (p : path) :
  read_file (ignore_errors fs (os_rmdir fs d)) p = read_file fs p.
Proof.
  unfold os_rmdir. destruct (mem d (dirs fs)); [|reflexivity].
  destruct (existsb (in_dir d) (files fs)); reflexivity.
Qed.

(** ** File names *)

Lemma parse_digits_zeros (k : nat) (s : str) :
  parse_digits (repeat 48 k ++ s)
  = option_map (Nat.iter k Decimal.D0) (parse_digits s).
Proof.
  induction k as [|k IH]; simpl.
  - destruct (parse_digits s); reflexivity.
  - rewrite IH. destruct (parse_digits s); reflexivity.
Qed.

Lemma of_uint_zeros (k : nat) (u : Decimal.uint) :
  Z.of_int (Decimal.Pos (Nat.iter k Decimal.D0 u)) = Z.of_int (Decimal.Pos u).
Proof.
  induction k as [|k IH]; [reflexivity|]. simpl Nat.iter. rewrite <- IH. reflexivity.
Qed.

(** A zero-padded index reads back as the index. *)
Lemma int_of_format_0d (w : nat) (n : Z) :
  0 <= n -> int_of_str (format_0d w n) = Ok n.
Proof.
  intros Hn. unfold format_0d.
  destruct (Z.ltb_spec n 0) as [|_]; [lia|]. rewrite Z.abs_eq by exact Hn.
  cbn [app length]. set (k := (w - 0 - length (str_of_int n))%nat).
  pose proof (DecimalZ.of_to n) as Hof. pose proof (to_int_nonnil n) as Hnn.
  unfold str_of_int. destruct (Z.to_int n) as [u|u] eqn:E.
  - pose proof (digits_are_digits u) as Hd. apply digits_nonnil in Hnn.
    assert (Hfirst : exists c r, repeat 48 k ++ digits u = c :: r /\ is_digit c = true).
    { destruct k as [|k]; simpl.
      - destruct (digits u) as [|c r]; [congruence|]. apply Forall_inv in Hd. eauto.
      - eauto. }
    destruct Hfirst as (c & r & Hcr & Hc).
    unfold int_of_str. pose proof (parse_digits_zeros k (digits u)) as Hp.
    rewrite Hcr in *.
    assert ((c =? 45) || (c =? 43) = false) as -> by (unfold is_digit in Hc; ranges; lia).
    rewrite Hp, parse_digits_digits. unfold option_map.
    rewrite of_uint_zeros, Hof. reflexivity.
  - destruct n; simpl in E; try discriminate. lia.
Qed.

Lemma format_0d_inj (w : nat) (a b : Z) :
  0 <= a -> 0 <= b -> format_0d w a = format_0d w b -> a = b.
Proof.
  intros Ha Hb E. apply (f_equal int_of_str) in E.
  rewrite !int_of_format_0d in E by assumption. congruence.
Qed.

Lemma chunk_name_inj (a b : Z) :
  0 <= a -> 0 <= b -> chunk_name a = chunk_name b -> a = b.
Proof.
  unfold chunk_name. intros Ha Hb E.
  apply app_inv_head, app_inv_tail in E. eapply format_0d_inj; eauto.
Qed.

Lemma shard_name_inj (basename : str) (a b : Z) :
  0 <= a -> 0 <= b -> shard_name basename a = shard_name basename b -> a = b.
Proof.
  unfold shard_name. intros Ha Hb E.
  apply app_inv_head, app_inv_head, app_inv_tail in E. eapply format_0d_inj; eauto.
Qed.

Lemma summary_not_shard (b : Z) : lit "resumen.txt" <> shard_name (lit "index") b.
Proof. unfold shard_name. intros E. simpl in E. discriminate E. Qed.

(** ** The spiller *)

Lemma insert_row_perm (r : row) (l : list row) : Permutation (insert_row r l) (r :: l).
Proof.
  induction l as [|x l IH]; simpl; [apply Permutation_refl|].
  destruct (key_lt x r); [|apply Permutation_refl].
  etransitivity; [apply perm_skip, IH | apply perm_swap].
Qed.

Lemma sort_rows_perm (l : list row) : Permutation (sort_rows l) l.
Proof.
  induction l as [|r l IH]; simpl; [apply perm_nil|].
  etransitivity; [apply insert_row_perm | apply perm_skip, IH].
Qed.

Lemma insert_row_sorted (r : row) (l : list row) :
  StronglySorted key_le l -> StronglySorted key_le (insert_row r l).
Proof.
  induction 1 as [|x l Hs IH Hx]; simpl; [repeat constructor|].
  destruct (key_lt x r) eqn:E.
  - constructor; [exact IH|]. rewrite Forall_forall. intros y Hy.
    apply (Permutation_in _ (insert_row_perm r l)) in Hy.
    destruct Hy as [<-|Hy]; [apply key_lt_le, E|]. rewrite Forall_forall in Hx. auto.
  - constructor; [constructor; assumption|].
    constructor; [exact E|].
    eapply Forall_impl; [|exact Hx]. intros y Hy. eapply key_le_trans; eauto.
Qed.

(** The spiller sorts: the rows of the table, in non-decreasing (term, doc id). *)
Lemma sort_rows_sorted (l : list row) : StronglySorted key_le (sort_rows l).
Proof.
  induction l as [|r l IH]; simpl; [constructor | apply insert_row_sorted, IH].
Qed.

Lemma token_char_clean (t : str) :
  Forall (fun c => token_char c = true) t ->
  ~ In TAB t /\ ~ In LF t /\ ~ In CR t.
Proof.
  intros H. rewrite Forall_forall in H. repeat split; intros Hin; apply H in Hin;
    vm_compute in Hin; discriminate.
Qed.

Lemma reference_from_clean (docs : list str) (did : Z) :
  Forall clean_row (reference_from did docs).
Proof.
  revert did. induction docs as [|txt docs IH]; intros did; simpl; [constructor|].
  apply Forall_app. split; [|apply IH].
  unfold reference_doc. rewrite Forall_forall. intros r Hr.
  apply in_map_iff in Hr as (t & <- & Ht). apply nodup_In in Ht.
  pose proof (tokens_in_class txt) as Hc. rewrite Forall_forall in Hc.
  apply token_char_clean. apply Hc, Ht.
Qed.

Lemma run_rows_reference (docs : list str) (start : Z) :
  Permutation (run_rows (map_count_docs docs start)) (reference_from start docs)
  /\ Forall clean_row (run_rows (map_count_docs docs start)).
Proof.
  assert (H : Permutation (run_rows (map_count_docs docs start))
                (reference_from start docs)).
  { unfold run_rows. rewrite sort_rows_perm. apply map_count_docs_rows. }
  split; [exact H|]. rewrite Forall_forall. intros r Hr.
  apply (Permutation_in _ H) in Hr.
  pose proof (reference_from_clean docs start) as Hc. rewrite Forall_forall in Hc. auto.
Qed.

(** ** From the batches to the reference *)

Lemma reference_from_app (a b : list str) (s : Z) :
  reference_from s (a ++ b) = reference_from s a ++ reference_from (s + len a) b.
Proof.
  revert s. induction a as [|x a IH]; intros s; simpl.
  - replace (s + len []) with s by (unfold len; simpl; lia). reflexivity.
  - rewrite IH, <- app_assoc, len_cons, Z.add_assoc. reflexivity.
Qed.

Lemma batches_reference (bs : list (list str * Z)) (n : Z) :
  (forall pre b post, bs = pre ++ b :: post -> snd b = n + len (concat (map fst pre))) ->
  concat (map (fun b => reference_from (snd b) (fst b)) bs)
  = reference_from n (concat (map fst bs)).
Proof.
  revert n. induction bs as [|b bs IH]; intros n H; simpl; [reflexivity|].
  rewrite reference_from_app.
  rewrite (H [] b bs eq_refl). simpl.
  replace (n + len []) with n by (unfold len; simpl; lia). f_equal.
  apply IH. intros pre b' post E.
  rewrite (H (b :: pre) b' post) by (rewrite E; reflexivity).
  simpl. rewrite len_app. lia.
Qed.

Lemma read_line_floor (lpd bd : Z) (st : seg_state) (line : str) :
  read_line lpd bd st line = read_line (Z.max 1 lpd) bd st line.
Proof.
  unfold read_line.
  assert (H : 1 <= len (line_buf st ++ [line])).
  { rewrite len_app. pose proof (len_nonneg (line_buf st)). unfold len at 2. simpl. lia. }
  replace (len (line_buf st ++ [line]) >=? Z.max 1 lpd)
    with (len (line_buf st ++ [line]) >=? lpd); [reflexivity|].
  rewrite !Z.geb_leb.
  destruct (Z.leb_spec lpd (len (line_buf st ++ [line])));
    destruct (Z.leb_spec (Z.max 1 lpd) (len (line_buf st ++ [line]))); lia || reflexivity.
Qed.

Lemma submit_batches_floor (lines : list str) (lpd bd : Z) :
  submit_batches lines lpd bd = submit_batches lines (Z.max 1 lpd) bd.
Proof.
  unfold submit_batches. do 2 f_equal.
  generalize {| futures := []; doc_buf := []; line_buf := []; next_doc_id := 0 |}.
  induction lines as [|x lines IH]; intros st; simpl; [reflexivity|].
  rewrite IH, read_line_floor. reflexivity.
Qed.

(** The results of the workers, as runs: their rows are the reference. *)
Lemma worker_runs_reference (lines : list str) (lpd bd : Z) :
  let results :=
    map (fun '(docs, start_id) => map_count_docs docs start_id)
      (submit_batches lines lpd bd) in
  Permutation (concat (map run_rows results)) (reference_index lines lpd)
  /\ Forall (Forall clean_row) (map run_rows results).
Proof.
  cbv zeta. rewrite submit_batches_floor.
  assert (Hlpd : 1 <= Z.max 1 lpd) by lia.
  set (bs := submit_batches lines (Z.max 1 lpd) bd).
  pose proof (submit_batches_inv lines (Z.max 1 lpd) bd) as Hstarts. fold bs in Hstarts.
  pose proof (segmenter_documents_first lines (Z.max 1 lpd) bd Hlpd) as Hdocs.
  fold bs in Hdocs. split.
  - unfold reference_index. rewrite <- Hdocs.
    rewrite <- (batches_reference bs 0) by (intros pre b post E; rewrite (Hstarts pre b post E); lia).
    rewrite map_map. clear Hstarts Hdocs.
    induction bs as [|[docs start] bs IH]; simpl; [apply perm_nil|].
    apply Permutation_app; [apply run_rows_reference | exact IH].
  - rewrite map_map, Forall_forall. intros rows Hin.
    apply in_map_iff in Hin as ([docs start] & <- & _). apply run_rows_reference.
Qed.

(** ** The driver, step by step *)

Lemma chunk_paths_from_in (tmp_dir : str) (n : nat) (idx : Z) (q : path) :
  In q (chunk_paths_from tmp_dir idx n) ->
  exists k, idx <= k /\ q = (tmp_dir, chunk_name k).
Proof.
  revert idx. induction n as [|n IH]; intros idx; simpl; [tauto|].
  intros [<-|H]; [exists idx; split; [lia | reflexivity]|].
  apply IH in H as (k & Hk & ->). exists k. split; [lia | reflexivity].
Qed.

(** Lines 127-132: every result is written to a run file of its own under
    [tmp_dir], and nothing else changes. *)
Lemma spill_all (tmp_dir : str) (results : list (postings_t * Z))
  (fs : filesystem) (total : Z) (paths : list path) (idx : Z) :
  In tmp_dir (dirs fs) ->
  0 <= idx ->
  exists fs' total',
    fold_left (spill_result tmp_dir) results (Ok (fs, total, paths, idx))
    = Ok (fs', total', paths ++ chunk_paths_from tmp_dir idx (length results),
          idx + len results)
    /\ dirs fs' = dirs fs
    /\ (forall q, ~ In q (chunk_paths_from tmp_dir idx (length results)) ->
          read_file fs' q = read_file fs q)
    /\ Forall2 (fun p res => read_file fs' p = Ok (rows_text (run_rows res)))
         (chunk_paths_from tmp_dir idx (length results)) results.
Proof.
  revert fs total paths idx.
  induction results as [|res results IH]; intros fs total paths idx Hdir Hidx.
  - exists fs, total. simpl. rewrite app_nil_r.
    replace (idx + len []) with idx by (unfold len; simpl; lia).
    repeat split; auto.
  - cbn [fold_left length chunk_paths_from].
    destruct (write_file_ok fs (tmp_dir, chunk_name idx) (rows_text (run_rows res)) Hdir)
      as [fs1 Hw].
    assert (Hstep : spill_result tmp_dir (Ok (fs, total, paths, idx)) res
                    = Ok (fs1, total + snd res, paths ++ [(tmp_dir, chunk_name idx)],
                          idx + 1)).
    { unfold spill_result, spill_sorted_chunk. simpl.
      unfold run_rows, rows_text in Hw. rewrite Hw. reflexivity. }
    rewrite Hstep.
    destruct (IH fs1 (total + snd res) (paths ++ [(tmp_dir, chunk_name idx)]) (idx + 1))
      as (fs' & total' & Hfold & Hdirs & Hframe & Hread).
    { rewrite (write_file_dirs _ _ _ _ Hw). exact Hdir. }
    { lia. }
    exists fs', total'. rewrite Hfold, <- app_assoc, len_cons.
    split; [rewrite Z.add_assoc; reflexivity|].
    split; [rewrite Hdirs; eapply write_file_dirs; eauto|]. split.
    + intros q Hq. rewrite Hframe by (intros Hin; apply Hq; right; exact Hin).
      eapply read_write_other; [exact Hw|]. intros ->. apply Hq. left. reflexivity.
    + constructor; [|exact Hread].
      rewrite Hframe; [eapply read_write_same; exact Hw|].
      intros Hin. apply chunk_paths_from_in in Hin as (k & Hk & E).
      assert (E' : chunk_name idx = chunk_name k) by congruence.
      apply chunk_name_inj in E'; lia.
Qed.

Lemma spill_total (tmp_dir : str) (results : list (postings_t * Z))
  (fs fs' : filesystem) (total total' : Z) (paths paths' : list path) (idx idx' : Z) :
  fold_left (spill_result tmp_dir) results (Ok (fs, total, paths, idx))
  = Ok (fs', total', paths', idx') ->
  total' = total + sum (map snd results).
Proof.
  revert fs total paths idx.
  induction results as [|res results IH]; intros fs total paths idx H.
  - simpl in H. injection H as _ <- _ _. simpl. lia.
  - cbn [fold_left] in H.
    destruct (spill_result tmp_dir (Ok (fs, total, paths, idx)) res)
      as [[[[fs1 total1] paths1] idx1]|x] eqn:E.
    + apply IH in H. subst total'.
      unfold spill_result in E. cbn [bind] in E.
      destruct (spill_sorted_chunk fs (fst res) tmp_dir idx) as [[fs2 [p n]]|];
        cbn [bind] in E; [|discriminate].
      injection E as _ <- _ _. cbn [map sum fold_right]. fold (sum (map snd results)).
      lia.
    + exfalso. clear -H. induction results as [|r results IH]; [discriminate|].
      apply IH. exact H.
Qed.

Lemma read_all_runs (fs : filesystem) (ps : list path) (texts : list str) :
  Forall2 (fun p s => read_file fs p = Ok s) ps texts -> read_all fs ps = Ok texts.
Proof.
  induction 1 as [|p s ps texts Hp _ IH]; [reflexivity|].
  unfold read_all in *. cbn [fold_right]. rewrite Hp, IH. reflexivity.
Qed.

(** Lines 58 and 75-81: the shards are written, and nothing else changes. *)
Lemma write_all_shards (l : list (path * str)) (fs : filesystem) :
  (forall e, In e l -> In (fst (fst e)) (dirs fs)) ->
  NoDup (map fst l) ->
  exists fs',
    write_all fs l = Ok fs'
    /\ dirs fs' = dirs fs
    /\ (forall q, ~ In q (map fst l) -> read_file fs' q = read_file fs q)
    /\ (forall p s, In (p, s) l -> read_file fs' p = Ok s).
Proof.
  unfold write_all. revert fs. induction l as [|[p s] l IH]; intros fs Hdirs Hnd.
  - exists fs. simpl. repeat split; auto. intros ? ? [].
  - inversion Hnd as [|? ? Hnotin Hnd']; subst.
    destruct (write_file_ok fs p s) as [fs1 Hw].
    { apply (Hdirs (p, s)). left. reflexivity. }
    cbn [fold_left fst snd]. cbn [bind]. rewrite Hw.
    destruct (IH fs1) as (fs' & Hfold & Hd & Hframe & Hread).
    { intros e He. rewrite (write_file_dirs _ _ _ _ Hw). apply Hdirs. right. exact He. }
    { exact Hnd'. }
    exists fs'. split; [exact Hfold|].
    split; [rewrite Hd; eapply write_file_dirs; eauto|]. split.
    + intros q Hq. simpl in Hq. rewrite Hframe by tauto.
      eapply read_write_other; [exact Hw|]. intros ->. tauto.
    + intros p' s' [[= <- <-]|Hin]; [|auto].
      rewrite Hframe by exact Hnotin. eapply read_write_same; eauto.
Qed.

Lemma read_rows_text (rows : list row) :
  Forall clean_row rows -> read_rows (rows_text rows) = Ok rows.
Proof.
  intros H. unfold read_rows. rewrite readlines_rows_text by exact H.
  induction H as [|r rows Hr _ IH]; simpl; [reflexivity|].
  rewrite parse_line_fmt_row by exact Hr. simpl. rewrite IH. reflexivity.
Qed.

Lemma read_shards_groups (fs : filesystem) (outdir basename : str)
  (groups : list (list row)) :
  Forall (Forall clean_row) groups ->
  Forall2 (fun k g => read_file fs (outdir, shard_name basename (Z.of_nat k))
                      = Ok (rows_text g))
    (seq 0 (length groups)) groups ->
  read_shards fs outdir basename (len groups) = Ok (concat groups).
Proof.
  unfold read_shards, len. rewrite Nat2Z.id. generalize 0%nat.
  induction groups as [|g groups IH]; intros n Hclean Hread; simpl; [reflexivity|].
  inversion Hclean as [|? ? Hg Hgs]; subst. simpl in Hread.
  inversion Hread as [|? ? ? ? Hk Hrest]; subst.
  rewrite Hk. simpl. rewrite read_rows_text by exact Hg. simpl.
  rewrite (IH (S n) Hgs Hrest). reflexivity.
Qed.

Lemma Forall2_map_right {A B C : Type} (P : A -> C -> Prop) (f : B -> C)
  (l : list A) (l' : list B) :
  Forall2 (fun a b => P a (f b)) l l' -> Forall2 P l (map f l').
Proof. induction 1; simpl; constructor; assumption. Qed.

Lemma Forall2_combine_in {A B : Type} (P : A -> B -> Prop) (a : list A) (b : list B) :
  length a = length b ->
  (forall x y, In (x, y) (combine a b) -> P x y) ->
  Forall2 P a b.
Proof.
  revert b. induction a as [|x a IH]; intros [|y b] Hlen H; simpl in Hlen;
    try discriminate; constructor.
  - apply H. left. reflexivity.
  - apply IH; [lia|]. intros x' y' Hin. apply H. right. exact Hin.
Qed.

Lemma map_fst_combine {A B : Type} (a : list A) (b : list B) :
  length a = length b -> map fst (combine a b) = a.
Proof.
  revert b. induction a as [|x a IH]; intros [|y b] Hlen; simpl in *;
    try discriminate; [reflexivity|]. rewrite IH by lia. reflexivity.
Qed.

Lemma shard_writes_enumerate (outdir basename : str) (groups : list (list row)) :
  map (fun '(idx, s) => ((outdir, shard_name basename idx), s))
    (enumerate (map rows_text groups))
  = shard_writes outdir basename groups.
Proof.
  unfold shard_writes, enumerate. rewrite length_map. generalize 0%nat.
  induction groups as [|g groups IH]; intros n; simpl; [reflexivity|].
  rewrite IH. reflexivity.
Qed.

Lemma shard_writes_paths (outdir basename : str) (groups : list (list row)) :
  map fst (shard_writes outdir basename groups)
  = map (fun k => (outdir, shard_name basename (Z.of_nat k))) (seq 0 (length groups)).
Proof.
  unfold shard_writes. rewrite map_map. simpl.
  rewrite <- (map_map fst (fun k => (outdir, shard_name basename (Z.of_nat k)))).
  rewrite map_fst_combine by apply length_seq. reflexivity.
Qed.

Lemma shard_paths_NoDup (outdir basename : str) (n : nat) :
  NoDup (map (fun k => (outdir, shard_name basename (Z.of_nat k))) (seq 0 n)).
Proof.
  apply Injective_map_NoDup; [|apply seq_NoDup].
  intros a b E. assert (E' : shard_name basename (Z.of_nat a)
                             = shard_name basename (Z.of_nat b)) by congruence.
  apply shard_name_inj in E'; lia.
Qed.

(** Lines 37-84 on run files in the format of the spiller. *)
Lemma merge_sorted_chunks_runs (fs : filesystem) (paths : list path)
  (runs : list (list row)) (outdir : str) (shard_mb : Z) :
  Forall (Forall clean_row) runs ->
  Forall2 (fun p s => read_file fs p = Ok s) paths (map rows_text runs) ->
  exists fs' groups,
    merge_sorted_chunks fs paths outdir shard_mb (lit "index")
    = Ok (fs', (len (concat groups), len groups))
    /\ dirs fs' = dirs (makedirs fs outdir)
    /\ (forall q,
          (forall k, (k < length groups)%nat ->
                     q <> (outdir, shard_name (lit "index") (Z.of_nat k))) ->
          read_file fs' q = read_file fs q)
    /\ Forall2 (fun k g => read_file fs' (outdir, shard_name (lit "index") (Z.of_nat k))
                          = Ok (rows_text g))
         (seq 0 (length groups)) groups
    /\ Permutation (concat groups) (concat runs)
    /\ groups <> []
    /\ merge_files (map rows_text runs) shard_mb
       = Ok (enumerate (map rows_text groups), (len (concat groups), len groups)).
Proof.
  intros Hclean Hread.
  destruct (merge_files_groups runs shard_mb Hclean)
    as (groups & Hmerge & Hperm & Hne & _).
  destruct (write_all_shards (shard_writes outdir (lit "index") groups)
              (makedirs fs outdir))
    as (fs' & Hwrite & Hdirs & Hframe & Hshards).
  { intros e He. unfold shard_writes in He. apply in_map_iff in He as (kg & <- & _).
    simpl. apply makedirs_dirs. left. reflexivity. }
  { rewrite shard_writes_paths. apply shard_paths_NoDup. }
  exists fs', groups.
  split; [|split; [exact Hdirs | split; [|split; [|split; [exact Hperm |]]]]];
    [| | |split; [exact Hne | exact Hmerge]].
  - unfold merge_sorted_chunks. rewrite (read_all_runs _ _ (map rows_text runs)).
    + simpl. rewrite Hmerge. simpl. rewrite shard_writes_enumerate, Hwrite. reflexivity.
    + eapply Forall2_impl; [|exact Hread]. intros p s Hp. rewrite read_makedirs. exact Hp.
  - intros q Hq. rewrite Hframe, read_makedirs; [reflexivity|].
    rewrite shard_writes_paths. intros Hin. apply in_map_iff in Hin as (k & <- & Hk).
    apply in_seq in Hk. apply (Hq k); [lia | reflexivity].
  - apply Forall2_combine_in; [apply length_seq|]. intros k g Hin. apply Hshards.
    unfold shard_writes. apply in_map_iff. exists (k, g). auto.
Qed.

Lemma read_file_raise (fs : filesystem) (p : path) (x : exn) :
  read_file fs p = Raise x ->
  x = FileNotFoundError /\ dict_get path_eq_dec (files fs) p = None.
Proof.
  unfold read_file. destruct (dict_get path_eq_dec (files fs) p); [discriminate|].
  intros [= <-]. auto.
Qed.

Lemma filter_other_dirs (d : str) (l : list str) :
  ~ In d l ->
  filter (fun x => negb (if str_eq_dec x d then true else false)) l = l.
Proof.
  induction l as [|x l IH]; simpl; intros H; [reflexivity|].
  destruct (str_eq_dec x d) as [->|Hne]; [tauto|]. simpl. rewrite IH by tauto.
  reflexivity.
Qed.

Lemma makedirs_again (fs : filesystem) (d : str) :
  In d (dirs fs) -> makedirs fs d = fs.
Proof. intros H. unfold makedirs. apply mem_true in H. rewrite H. reflexivity. Qed.

Section PipelineFacts.

Variable as_completed : list (postings_t * Z) -> list (postings_t * Z).
Hypothesis as_completed_perm : forall l, Permutation (as_completed l) l.
Variable summary_text : str -> Z -> Z -> Z -> Z -> str.

(** A whole run of the driver: it returns; afterwards the directories are
    those of before with [outdir], the shard files hold the rows [groups],
    which together are the reference index, the summary is written, and
    every other file is as it was before. *)
Lemma build_run (fs : filesystem) (tmp_dir : str) (lines : list str) (outdir : str)
  (threads lpd bd shard_mb : Z) :
  fresh_dir (makedirs fs outdir) tmp_dir ->
  exists fs' total groups,
    build_inverted_index as_completed summary_text fs tmp_dir lines outdir
      threads lpd bd shard_mb
    = Ok (fs', (total, len (concat groups), len groups))
    /\ dirs fs' = dirs (makedirs fs outdir)
    /\ (forall q,
          q <> summary_path outdir ->
          (forall k, (k < length groups)%nat ->
                     q <> (outdir, shard_name (lit "index") (Z.of_nat k))) ->
          read_file fs' q = read_file fs q)
    /\ Forall2 (fun k g => read_file fs' (outdir, shard_name (lit "index") (Z.of_nat k))
                          = Ok (rows_text g))
         (seq 0 (length groups)) groups
    /\ Permutation (concat groups) (reference_index lines lpd)
    /\ Forall (Forall clean_row) groups
    /\ read_file fs' (summary_path outdir)
       = Ok (summary_text outdir lpd total (len (concat groups)) (len groups))
    /\ total = sum (map snd (as_completed (worker_results lines lpd bd)))
    /\ merge_files (map rows_text (map run_rows (as_completed (worker_results lines lpd bd))))
         shard_mb
       = Ok (enumerate (map rows_text groups), (len (concat groups), len groups)).
Proof.
  intros [Hfresh Hnofile].
  set (fs0 := makedirs fs outdir) in *.
  assert (Hout0 : In outdir (dirs fs0)) by (apply makedirs_dirs; auto).
  assert (Hne : tmp_dir <> outdir) by congruence.
  set (fs1 := mkdtemp fs0 tmp_dir).
  set (results := map (fun '(docs, start_id) => map_count_docs docs start_id)
                    (submit_batches lines lpd bd)).
  set (completed := as_completed results).
  destruct (worker_runs_reference lines lpd bd) as [Hrows Hclean].
  fold results in Hrows, Hclean.
  assert (Hperm : Permutation completed results) by apply as_completed_perm.
  assert (Hrows' : Permutation (concat (map run_rows completed))
                     (reference_index lines lpd)).
  { rewrite <- Hrows, <- !flat_map_concat_map. apply flat_map_perm, Hperm. }
  assert (Hclean' : Forall (Forall clean_row) (map run_rows completed)).
  { rewrite Forall_forall in *. intros rows Hin. apply Hclean.
    apply in_map_iff in Hin as (res & <- & Hres). apply in_map.
    apply (Permutation_in _ Hperm), Hres. }
  destruct (spill_all tmp_dir completed fs1 0 [] 0) as
    (fs2 & total & Hspill & Hdirs2 & Hframe2 & Hread2); [left; reflexivity | lia |].
  set (paths := chunk_paths_from tmp_dir 0 (length completed)) in *.
  destruct (merge_sorted_chunks_runs fs2 paths (map run_rows completed) outdir shard_mb)
    as (fs3 & groups & Hmerge & Hdirs3 & Hframe3 & Hread3 & Hperm3 & Hgroups & Hfiles3);
    [exact Hclean' | rewrite map_map; apply Forall2_map_right, Hread2 |].
  assert (Hdirs3' : dirs fs3 = tmp_dir :: dirs fs0).
  { rewrite Hdirs3, makedirs_again; rewrite Hdirs2; [reflexivity | right; exact Hout0]. }
  set (fs4 := remove_chunks fs3 paths).
  assert (Hread4 : forall q,
            read_file fs4 q
            = if in_dec path_eq_dec q paths then Raise FileNotFoundError
              else read_file fs3 q) by (intros q; apply read_remove_chunks).
  assert (Hold : forall q,
            (forall k, (k < length groups)%nat ->
                       q <> (outdir, shard_name (lit "index") (Z.of_nat k))) ->
            read_file fs4 q = read_file fs q).
  { intros q Hq. rewrite Hread4. destruct (in_dec path_eq_dec q paths) as [Hin|Hnin].
    - apply chunk_paths_from_in in Hin as (k & _ & ->).
      rewrite <- (read_makedirs fs outdir). symmetry. apply Hnofile.
    - rewrite Hframe3 by exact Hq. rewrite Hframe2 by exact Hnin.
      apply read_makedirs. }
  assert (Hempty : existsb (in_dir tmp_dir) (files fs4) = false).
  { apply existsb_in_dir. intros name.
    apply (read_file_raise fs4 _ FileNotFoundError).
    rewrite Hold by (intros k _ E; congruence).
    rewrite <- (read_makedirs fs outdir). apply Hnofile. }
  assert (Hdirs4 : dirs fs4 = tmp_dir :: dirs fs0).
  { unfold fs4. rewrite remove_chunks_dirs. exact Hdirs3'. }
  set (fs5 := ignore_errors fs4 (os_rmdir fs4 tmp_dir)).
  assert (Hdirs5 : dirs fs5 = dirs fs0).
  { unfold fs5, os_rmdir. rewrite Hdirs4, Hempty.
    replace (mem tmp_dir (tmp_dir :: dirs fs0)) with true
      by (symmetry; apply mem_true; left; reflexivity).
    simpl. destruct (str_eq_dec tmp_dir tmp_dir); [|congruence]. simpl.
    apply filter_other_dirs, Hfresh. }
  destruct (write_file_ok fs5 (summary_path outdir)
              (summary_text outdir lpd total (len (concat groups)) (len groups)))
    as [fs6 Hw]; [rewrite Hdirs5; exact Hout0|].
  exists fs6, total, groups.
  split; [|split; [|split; [|split; [|split; [|split; [|split; [|split]]]]]]].
  - unfold build_inverted_index. fold fs0 fs1 results completed.
    rewrite Hspill. cbn [bind app]. fold paths. rewrite Hmerge. cbn [bind].
    fold fs4 fs5. rewrite Hw. reflexivity.
  - rewrite (write_file_dirs _ _ _ _ Hw). exact Hdirs5.
  - intros q Hsum Hq. rewrite (read_write_other _ _ _ _ _ Hw) by exact Hsum.
    unfold fs5. rewrite read_rmdir. apply Hold, Hq.
  - eapply Forall2_impl; [|exact Hread3]. intros k g Hk.
    rewrite (read_write_other _ _ _ _ _ Hw).
    + unfold fs5. rewrite read_rmdir, Hread4.
      destruct (in_dec path_eq_dec _ paths) as [Hin|_]; [|exact Hk].
      apply chunk_paths_from_in in Hin as (j & _ & E). congruence.
    + unfold summary_path. intros E.
      assert (E' : shard_name (lit "index") (Z.of_nat k) = lit "resumen.txt")
        by congruence.
      symmetry in E'. exact (summary_not_shard _ E').
  - rewrite Hperm3. exact Hrows'.
  - rewrite Forall_forall. intros g Hg. rewrite Forall_forall. intros r Hr.
    assert (Hin : In r (concat groups)) by (apply in_concat; eauto).
    apply (Permutation_in _ Hperm3) in Hin. apply in_concat in Hin as (rows & Hrows0 & Hr0).
    rewrite Forall_forall in Hclean'. specialize (Hclean' rows Hrows0).
    rewrite Forall_forall in Hclean'. auto.
  - eapply read_write_same, Hw.
  - apply spill_total in Hspill. rewrite Hspill. reflexivity.
  - exact Hfiles3.
Qed.

End PipelineFacts.

(** C1: whatever the order in which the workers finish, the driver returns,
    and the rows read back from the shard files it wrote are, as a multiset,
    the rows of the reference index: every document on its own, its tokens
    counted directly.  Nothing is added, dropped or changed. *)
Theorem index_shards_equal_reference
  (as_completed : list (postings_t * Z) -> list (postings_t * Z))
  (summary_text : str -> Z -> Z -> Z -> Z -> str)
  (fs : filesystem) (tmp_dir : str) (lines : list str) (outdir : str)
  (threads lines_per_doc batch_docs shard_mb : Z) :
  (forall l, Permutation (as_completed l) l) ->
  fresh_dir (makedirs fs outdir) tmp_dir ->
  exists fs' total_docs rows nshards triples,
    build_inverted_index as_completed summary_text fs tmp_dir lines outdir
      threads lines_per_doc batch_docs shard_mb
    = Ok (fs', (total_docs, rows, nshards))
    /\ read_shards fs' outdir (lit "index") nshards = Ok triples
    /\ Permutation triples (reference_index lines lines_per_doc)
    /\ rows = len triples.
Proof.
  intros Hperm Hfresh.
  destruct (build_run as_completed Hperm summary_text fs tmp_dir lines outdir threads
              lines_per_doc batch_docs shard_mb Hfresh)
    as (fs' & total & groups & Hbuild & _ & _ & Hread & Href & Hclean & _).
  exists fs', total, (len (concat groups)), (len groups), (concat groups).
  split; [exact Hbuild|]. split; [|split; [exact Href | reflexivity]].
  apply read_shards_groups; assumption.
Qed.

(** C9: after a run of the driver the temporary directory is gone and no
    file is left under it, so no run file survives; the directories are those
    of before together with [outdir]; and every file other than the summary
    and the shards the run wrote is as it was before. *)
Theorem no_run_file_survives
  (as_completed : list (postings_t * Z) -> list (postings_t * Z))
  (summary_text : str -> Z -> Z -> Z -> Z -> str)
  (fs : filesystem) (tmp_dir : str) (lines : list str) (outdir : str)
  (threads lines_per_doc batch_docs shard_mb : Z) :
  (forall l, Permutation (as_completed l) l) ->
  fresh_dir (makedirs fs outdir) tmp_dir ->
  exists fs' total_docs rows nshards,
    build_inverted_index as_completed summary_text fs tmp_dir lines outdir
      threads lines_per_doc batch_docs shard_mb
    = Ok (fs', (total_docs, rows, nshards))
    /\ ~ In tmp_dir (dirs fs')
    /\ existsb (in_dir tmp_dir) (files fs') = false
    /\ (forall name, read_file fs' (tmp_dir, name) = Raise FileNotFoundError)
    /\ dirs fs' = dirs (makedirs fs outdir)
    /\ (forall q,
          q <> summary_path outdir ->
          (forall k, 0 <= k < nshards -> q <> (outdir, shard_name (lit "index") k)) ->
          read_file fs' q = read_file fs q).
Proof.
  intros Hperm Hfresh.
  destruct (build_run as_completed Hperm summary_text fs tmp_dir lines outdir threads
              lines_per_doc batch_docs shard_mb Hfresh)
    as (fs' & total & groups & Hbuild & Hdirs & Hframe & _).
  destruct Hfresh as [Hnodir Hnofile].
  assert (Hne : tmp_dir <> outdir).
  { intros ->. apply Hnodir, makedirs_dirs. left. reflexivity. }
  assert (Hgone : forall name, read_file fs' (tmp_dir, name) = Raise FileNotFoundError).
  { intros name. rewrite Hframe.
    - rewrite <- (read_makedirs fs outdir). apply Hnofile.
    - unfold summary_path. congruence.
    - intros k _ E. congruence. }
  exists fs', total, (len (concat groups)), (len groups).
  split; [exact Hbuild|]. split; [rewrite Hdirs; exact Hnodir|].
  split; [|split; [exact Hgone | split; [exact Hdirs|]]].
  - apply existsb_in_dir. intros name. apply (read_file_raise fs' _ _ (Hgone name)).
  - intros q Hsum Hq. apply Hframe; [exact Hsum|].
    intros k Hk. apply Hq. unfold len. lia.
Qed.

(** ** The driver on a small input *)

Lemma rev_is_a_completion_order :
  forall l : list (postings_t * Z), Permutation (rev l) l.
Proof. intros l. apply Permutation_sym, Permutation_rev. Qed.

Lemma tmp_is_fresh : fresh_dir (makedirs no_files (lit "out")) (lit "tmp").
Proof.
  split; [cbv; intuition discriminate | intros name; reflexivity].
Qed.

Example build_three_lines :
  build_inverted_index (@rev _) plain_summary no_files (lit "tmp") three_lines
    (lit "out") 0 1 2 256
  = Ok ({| dirs := [lit "out"];
           files := [((lit "out", lit "index_000.tsv"),
                      rows_text [(lit "casa", 0, 1); (lit "casa", 1, 2);
                                 (lit "la", 0, 1)]);
                     ((lit "out", lit "resumen.txt"),
                      lit "Docs 3 Postings 3 Shards 1")] |},
        (3, 3, 1)).
Proof. vm_compute. reflexivity. Qed.

Lemma index_shards_equal_reference_example :
  (forall l : list (postings_t * Z), Permutation (rev l) l)
  /\ fresh_dir (makedirs no_files (lit "out")) (lit "tmp")
  /\ exists fs' total_docs rows nshards triples,
       build_inverted_index (@rev _) plain_summary no_files (lit "tmp") three_lines
         (lit "out") 0 1 2 256
       = Ok (fs', (total_docs, rows, nshards))
       /\ read_shards fs' (lit "out") (lit "index") nshards = Ok triples
       /\ Permutation triples (reference_index three_lines 1)
       /\ rows = len triples.
Proof.
  split; [exact rev_is_a_completion_order|]. split; [exact tmp_is_fresh|].
  apply (index_shards_equal_reference (@rev _) plain_summary no_files (lit "tmp")
           three_lines (lit "out") 0 1 2 256);
    [exact rev_is_a_completion_order | exact tmp_is_fresh].
Defined.

Lemma no_run_file_survives_example :
  (forall l : list (postings_t * Z), Permutation (rev l) l)
  /\ fresh_dir (makedirs no_files (lit "out")) (lit "tmp")
  /\ exists fs' total_docs rows nshards,
       build_inverted_index (@rev _) plain_summary no_files (lit "tmp") three_lines
         (lit "out") 0 1 2 256
       = Ok (fs', (total_docs, rows, nshards))
       /\ ~ In (lit "tmp") (dirs fs')
       /\ existsb (in_dir (lit "tmp")) (files fs') = false
       /\ (forall name, read_file fs' (lit "tmp", name) = Raise FileNotFoundError)
       /\ dirs fs' = dirs (makedirs no_files (lit "out"))
       /\ (forall q,
             q <> summary_path (lit "out") ->
             (forall k, 0 <= k < nshards ->
                        q <> (lit "out", shard_name (lit "index") k)) ->
             read_file fs' q = read_file no_files q).
Proof.
  split; [exact rev_is_a_completion_order|]. split; [exact tmp_is_fresh|].
  apply (no_run_file_survives (@rev _) plain_summary no_files (lit "tmp")
           three_lines (lit "out") 0 1 2 256);
    [exact rev_is_a_completion_order | exact tmp_is_fresh].
Defined.

(** ** Scenarios *)

Example tokenize_mixed_text :
  tokenize (lit "Hola, MUNDO! it's 3pm")
  = [lit "hola"; lit "mundo"; lit "it's"; lit "3pm"].
Proof. reflexivity. Qed.

Example twenty_five_lines_make_three_documents :
  map (fun b => (map (fun d => len d) (fst b), snd b))
    (submit_batches (repeat (lit "x" ++ [LF]) 25) 10 50000)
  = [([20; 20; 10], 0)].
Proof. reflexivity. Qed.

Example casa_twice_in_document_0 :
  map_count_docs [lit "casa y casa"] 0
  = ([(lit "casa", [(0, 2)]); (lit "y", [(0, 1)])], 1).
Proof. reflexivity. Qed.

Example one_document_per_batch_merges_sorted :
  build_inverted_index (fun l => l) plain_summary no_files (lit "tmp")
    [lit "boda" ++ [LF]; lit "ana" ++ [LF]] (lit "out") 0 1 1 256
  = Ok ({| dirs := [lit "out"];
           files := [((lit "out", lit "index_000.tsv"),
                      rows_text [(lit "ana", 1, 1); (lit "boda", 0, 1)]);
                     ((lit "out", lit "resumen.txt"),
                      lit "Docs 2 Postings 2 Shards 1")] |},
        (2, 2, 1)).
Proof. vm_compute. reflexivity. Qed.

(** * Further properties of the pipeline *)

(** ** Tokens *)

Lemma maximal_runs_nonempty (P : char -> bool) (s : str) (ts : list str) :
  maximal_runs P s ts -> Forall (fun t => t <> []) ts.
Proof. induction 1; constructor; assumption. Qed.

Lemma lower_char_twice (c : char) : lower_char (lower_char c) = lower_char c.
Proof.
  unfold lower_char, in_range.
  destruct ((65 <=? c) && (c <=? 90) || (192 <=? c) && (c <=? 214)
            || (216 <=? c) && (c <=? 222)) eqn:E; [|rewrite E; reflexivity].
  replace ((65 <=? c + 32) && (c + 32 <=? 90) || (192 <=? c + 32) && (c + 32 <=? 214)
           || (216 <=? c + 32) && (c + 32 <=? 222)) with false; [reflexivity|].
  symmetry. ranges. lia.
Qed.

Lemma lower_twice (t : str) : lower (lower t) = lower t.
Proof.
  unfold lower. rewrite map_map. apply map_ext. intros c. apply lower_char_twice.
Qed.

Lemma finditer_class_run (t : str) :
  t <> [] -> Forall (fun c => token_char c = true) t -> finditer [] t = [t].
Proof.
  intros Hne Ht. rewrite <- (app_nil_r t) at 1.
  rewrite (finditer_run t [] []); [|exact Ht | exact I].
  simpl. rewrite app_nil_r. destruct t; [congruence | reflexivity].
Qed.

(** X1: every token [tokenize] returns is not empty, is made of characters
    of the class, is its own lower case, and is a fixed point of the
    tokenizer: tokenizing a token gives back this one token. *)
Theorem tokens_tokenize_to_themselves (s : str) :
  Forall (fun t => t <> []
                   /\ Forall (fun c => token_char c = true) t
                   /\ lower t = t
                   /\ tokenize t = [t])
    (tokenize s).
Proof.
  destruct (finditer_splits s) as [Hruns _].
  pose proof (maximal_runs_in_class _ _ _ Hruns) as Hclass.
  pose proof (maximal_runs_nonempty _ _ _ Hruns) as Hne.
  change (tokenize s) with (map lower (finditer [] s)). clear Hruns.
  induction Hclass as [|t ts Ht _ IH]; simpl; constructor.
  - inversion Hne as [|? ? Hnt _]; subst.
    assert (Hl : Forall (fun c => token_char c = true) (lower t))
      by (apply lower_in_class, Ht).
    assert (Hnl : lower t <> []) by (destruct t; [congruence | discriminate]).
    split; [exact Hnl|]. split; [exact Hl|]. split; [apply lower_twice|].
    unfold tokenize. rewrite finditer_class_run by assumption.
    simpl. rewrite lower_twice. reflexivity.
  - apply IH. inversion Hne; assumption.
Qed.

Lemma finditer_delimiter (a b cur : str) (c : char) :
  token_char c = false ->
  finditer cur (a ++ c :: b) = finditer cur a ++ finditer [] b.
Proof.
  intros Hc. revert cur. induction a as [|x a IH]; intros cur; simpl.
  - rewrite Hc. reflexivity.
  - destruct (token_char x); [apply IH|].
    rewrite IH, app_assoc. reflexivity.
Qed.

(** X2: a character outside the class separates tokens and nothing else:
    the tokens of a text around such a character are the tokens of what
    stands before it followed by the tokens of what stands after it.  So no
    token reaches across a line feed, and the tokens of a document are those
    of its lines. *)
Theorem tokenize_splits_at_delimiter (a b : str) (c : char) :
  token_char c = false ->
  tokenize (a ++ c :: b) = tokenize a ++ tokenize b.
Proof.
  intros Hc. unfold tokenize. rewrite finditer_delimiter by exact Hc.
  apply map_app.
Qed.

Lemma tokenize_splits_at_delimiter_example :
  token_char LF = false
  /\ tokenize (lit "la casa" ++ LF :: lit "Casa roja")
     = tokenize (lit "la casa") ++ tokenize (lit "Casa roja").
Proof.
  split; [reflexivity|].
  apply (tokenize_splits_at_delimiter (lit "la casa") (lit "Casa roja") LF).
  reflexivity.
Defined.

Lemma tokenize_no_class_char (s : str) :
  Forall (fun c => token_char c = false) s -> tokenize s = [].
Proof.
  intros H. unfold tokenize. rewrite <- (app_nil_r s), finditer_gap by exact H.
  reflexivity.
Qed.

(** ** What a worker returns *)

Lemma reference_doc_In (did : Z) (txt : str) (t : str) (d tf : Z) :
  In (t, d, tf) (reference_doc did txt)
  <-> d = did /\ In t (tokenize txt)
      /\ tf = Z.of_nat (count_occ str_eq_dec (tokenize txt) t).
Proof.
  unfold reference_doc. rewrite in_map_iff. split.
  - intros (t' & [= -> <- <-] & Hin). apply nodup_In in Hin. auto.
  - intros (-> & Hin & ->). exists t. split; [reflexivity|]. apply nodup_In, Hin.
Qed.

Lemma reference_from_In (docs : list str) (did : Z) (t : str) (d tf : Z) :
  In (t, d, tf) (reference_from did docs)
  <-> exists k txt,
        nth_error docs k = Some txt /\ d = did + Z.of_nat k
        /\ In t (tokenize txt)
        /\ tf = Z.of_nat (count_occ str_eq_dec (tokenize txt) t).
Proof.
  revert did. induction docs as [|txt docs IH]; intros did; simpl.
  - split; [tauto|]. intros (k & txt & H & _). destruct k; discriminate.
  - rewrite in_app_iff, reference_doc_In, IH. split.
    + intros [(-> & Hin & ->)|(k & txt' & Hk & -> & Hin & ->)].
      * exists 0%nat, txt. repeat split; auto. simpl. lia.
      * exists (S k), txt'. repeat split; auto. lia.
    + intros (k & txt' & Hk & -> & Hin & ->). destruct k as [|k]; simpl in Hk.
      * injection Hk as ->. left. repeat split; auto. simpl. lia.
      * right. exists k, txt'. repeat split; auto. lia.
Qed.

(** X3: the postings a worker returns hold, for a term and a document id,
    the number of times the term occurs among the tokens of that document.
    A row (term, doc id, tf) is among them exactly when the document with
    this id is the [k]-th of the batch (ids count up from [start_doc_id]), the
    term is one of its tokens, and tf is the number of its occurrences. *)
Theorem postings_count_occurrences (docs : list str) (start : Z)
  (t : str) (d tf : Z) :
  In (t, d, tf) (rows_of (fst (map_count_docs docs start)))
  <-> exists k txt,
        nth_error docs k = Some txt /\ d = start + Z.of_nat k
        /\ In t (tokenize txt)
        /\ tf = Z.of_nat (count_occ str_eq_dec (tokenize txt) t).
Proof.
  rewrite <- reference_from_In.
  pose proof (map_count_docs_rows docs start) as Hp.
  split; intros H.
  - apply (Permutation_in _ Hp), H.
  - apply (Permutation_in _ (Permutation_sym Hp)), H.
Qed.

Lemma reference_doc_keys (did : Z) (txt : str) :
  NoDup (map row_key (reference_doc did txt)).
Proof.
  unfold reference_doc. rewrite map_map.
  apply Injective_map_NoDup; [|apply NoDup_nodup].
  intros a b E. unfold row_key, row_term in E. simpl in E. congruence.
Qed.

Lemma reference_from_keys (docs : list str) (did : Z) :
  NoDup (map row_key (reference_from did docs)).
Proof.
  revert did. induction docs as [|txt docs IH]; intros did; simpl; [constructor|].
  rewrite map_app. apply NoDup_app.
  - apply reference_doc_keys.
  - apply IH.
  - intros k H1 H2. apply in_map_iff in H1 as (r1 & <- & H1).
    apply in_map_iff in H2 as (r2 & E & H2).
    apply reference_doc_id in H1. apply reference_from_range in H2.
    unfold row_key in E. injection E as _ E. lia.
Qed.

Lemma reference_from_tf (docs : list str) (did : Z) :
  Forall (fun r => 1 <= row_tf r) (reference_from did docs).
Proof.
  rewrite Forall_forall. intros [[t d] tf] H. apply reference_from_In in H
    as (k & txt & _ & _ & Hin & ->). unfold row_tf. simpl.
  apply (count_occ_In str_eq_dec) in Hin. lia.
Qed.

(** X4: among the rows of one worker no pair (term, doc id) comes twice,
    every doc id is one of the batch, from [start_doc_id] up to
    [start_doc_id + len(doc_texts) - 1], and every term frequency is at
    least 1. *)
Theorem worker_rows_have_distinct_keys (docs : list str) (start : Z) :
  NoDup (map row_key (rows_of (fst (map_count_docs docs start))))
  /\ Forall (fun r => start <= row_doc r < start + len docs /\ 1 <= row_tf r)
       (rows_of (fst (map_count_docs docs start))).
Proof.
  pose proof (map_count_docs_rows docs start) as Hp. split.
  - eapply Permutation_NoDup; [apply Permutation_map, Permutation_sym, Hp|].
    apply reference_from_keys.
  - rewrite Forall_forall. intros r Hr. apply (Permutation_in _ Hp) in Hr. split.
    + apply (reference_from_range docs), Hr.
    + pose proof (reference_from_tf docs start) as Ht.
      rewrite Forall_forall in Ht. auto.
Qed.

Lemma sum_app (a b : list Z) : sum (a ++ b) = sum a + sum b.
Proof. induction a as [|x a IH]; simpl; [reflexivity|]. rewrite IH. lia. Qed.

Lemma sum_perm (a b : list Z) : Permutation a b -> sum a = sum b.
Proof. induction 1; simpl; lia. Qed.

Lemma sum_counts_cons (x : str) (xs l : list str) :
  sum (map (fun t => Z.of_nat (count_occ str_eq_dec (x :: xs) t)) l)
  = sum (map (fun t => Z.of_nat (count_occ str_eq_dec xs t)) l)
    + Z.of_nat (count_occ str_eq_dec l x).
Proof.
  induction l as [|y l IH]; [reflexivity|].
  cbn [map sum fold_right].
  fold (sum (map (fun t => Z.of_nat (count_occ str_eq_dec (x :: xs) t)) l)).
  fold (sum (map (fun t => Z.of_nat (count_occ str_eq_dec xs t)) l)).
  rewrite IH. simpl count_occ.
  destruct (str_eq_dec x y) as [->|Hne].
  - destruct (str_eq_dec y y); [|congruence]. lia.
  - destruct (str_eq_dec y x); [congruence|]. lia.
Qed.

(** The counts of the distinct tokens add up to the number of tokens. *)
Lemma sum_counts_nodup (toks : list str) :
  sum (map (fun t => Z.of_nat (count_occ str_eq_dec toks t)) (nodup str_eq_dec toks))
  = len toks.
Proof.
  induction toks as [|x xs IH]; [reflexivity|].
  rewrite sum_counts_cons, len_cons. simpl nodup.
  destruct (in_dec str_eq_dec x xs) as [Hin|Hnin].
  - rewrite IH.
    assert (count_occ str_eq_dec (nodup str_eq_dec xs) x = 1%nat).
    { apply NoDup_count_occ'; [apply NoDup_nodup | apply nodup_In, Hin]. }
    lia.
  - cbn [map sum fold_right].
    fold (sum (map (fun t => Z.of_nat (count_occ str_eq_dec xs t)) (nodup str_eq_dec xs))).
    rewrite IH. simpl count_occ. destruct (str_eq_dec x x); [|congruence].
    assert (count_occ str_eq_dec xs x = 0%nat) by (apply count_occ_not_In, Hnin).
    assert (count_occ str_eq_dec (nodup str_eq_dec xs) x = 0%nat).
    { apply count_occ_not_In. rewrite nodup_In. exact Hnin. }
    lia.
Qed.

Lemma reference_from_sum (docs : list str) (did : Z) :
  sum (map row_tf (reference_from did docs))
  = sum (map (fun txt => len (tokenize txt)) docs).
Proof.
  revert did. induction docs as [|txt docs IH]; intros did; [reflexivity|].
  cbn [reference_from map]. rewrite map_app, sum_app, IH.
  unfold reference_doc. rewrite map_map. unfold row_tf. cbn [snd].
  rewrite sum_counts_nodup. reflexivity.
Qed.

(** X5: the term frequencies a worker returns add up to the number of
    tokens of its documents: every token of every document is counted, and
    counted once. *)
Theorem term_frequencies_count_every_token (docs : list str) (start : Z) :
  sum (map row_tf (rows_of (fst (map_count_docs docs start))))
  = sum (map (fun txt => len (tokenize txt)) docs).
Proof.
  rewrite <- (reference_from_sum docs start).
  apply sum_perm, Permutation_map, map_count_docs_rows.
Qed.

(** ** Rows as lines, runs as files *)

Lemma split_from_length (cur s : str) :
  length (split_from cur s) = S (count_occ Z.eq_dec s TAB).
Proof.
  revert cur. induction s as [|c s IH]; intros cur; simpl; [reflexivity|].
  destruct (Z.eqb_spec c TAB) as [->|Hne].
  - destruct (Z.eq_dec TAB TAB); [|congruence]. simpl. rewrite IH. reflexivity.
  - destruct (Z.eq_dec c TAB); [congruence|]. apply IH.
Qed.

Lemma rstrip_lf_fmt_row (r : row) :
  rstrip_lf (fmt_row r)
  = row_term r ++ TAB :: str_of_int (row_doc r) ++ TAB :: str_of_int (row_tf r).
Proof.
  unfold fmt_row.
  destruct (str_of_int_chars (row_tf r)) as [Hne _].
  destruct (exists_last Hne) as (body & c & Hbody).
  assert (Hc : c <> LF).
  { intros ->. apply (str_of_int_no LF (row_tf r)); [auto|]. rewrite Hbody.
    apply in_or_app. right. left. reflexivity. }
  replace (row_term r ++ [TAB] ++ str_of_int (row_doc r) ++ [TAB]
           ++ str_of_int (row_tf r) ++ [LF])
    with ((row_term r ++ [TAB] ++ str_of_int (row_doc r) ++ [TAB]
           ++ str_of_int (row_tf r)) ++ [LF])
    by (rewrite <- !app_assoc; reflexivity).
  rewrite rstrip_lf_drop, Hbody.
  replace (row_term r ++ [TAB] ++ str_of_int (row_doc r) ++ [TAB] ++ body ++ [c])
    with ((row_term r ++ [TAB] ++ str_of_int (row_doc r) ++ [TAB] ++ body) ++ [c])
    by (rewrite <- !app_assoc; reflexivity).
  rewrite rstrip_lf_keep by exact Hc. rewrite <- !app_assoc. reflexivity.
Qed.

Lemma parse_line_fields (line : str) (r : row) :
  parse_line line = Ok r -> length (split_tab (rstrip_lf line)) = 3%nat.
Proof.
  unfold parse_line.
  destruct (split_tab (rstrip_lf line)) as [|t [|d [|f [|? ?]]]]; try discriminate.
  reflexivity.
Qed.

Lemma small_within_digit_limit (n : Z) :
  (Z.abs n <? 10000) = true -> within_digit_limit n.
Proof.
  intros H. apply Z.ltb_lt in H. unfold within_digit_limit.
  assert (Hpow : 10 ^ 4 <= 10 ^ 4300) by (apply Z.pow_le_mono_r; lia).
  change (10 ^ 4) with 10000 in Hpow.
  eapply Z.lt_le_trans; [exact H | exact Hpow].
Qed.

Lemma small_rows_writable (rows : list row) :
  forallb small_row rows = true -> Forall writable_row rows.
Proof.
  intros H. rewrite forallb_forall in H. rewrite Forall_forall. intros r Hr.
  specialize (H r Hr). unfold small_row in H.
  apply andb_prop in H as [H Htf]. apply andb_prop in H as [Hterm Hdoc].
  split; [|split; apply small_within_digit_limit; assumption].
  unfold encodable. rewrite Forall_forall. intros c Hc.
  rewrite forallb_forall in Hterm. specialize (Hterm c Hc).
  destruct (surrogate c); [discriminate Hterm | reflexivity].
Qed.

Lemma universal_newlines_app (a b : str) :
  (forall b', b <> LF :: b') ->
  universal_newlines (a ++ b) = universal_newlines a ++ universal_newlines b.
Proof.
  intros Hb. remember (length a) as n eqn:Hn. revert a Hn.
  induction n as [n IH] using lt_wf_ind. intros a Hn.
  destruct a as [|c r]; [reflexivity|].
  cbn [app universal_newlines]. destruct (c =? CR) eqn:Ec.
  - destruct r as [|c' r'].
    + cbn [app]. destruct b as [|c' b']; [reflexivity|].
      destruct (Z.eqb_spec c' LF) as [->|_]; [destruct (Hb b' eq_refl)|]. reflexivity.
    + cbn [app]. destruct (c' =? LF).
      * cbn [app]. f_equal. apply (IH (length r')); [simpl in Hn; lia | reflexivity].
      * cbn [app]. f_equal. change (c' :: r' ++ b) with ((c' :: r') ++ b).
        apply (IH (length (c' :: r'))); [simpl in *; lia | reflexivity].
  - cbn [app]. f_equal. apply (IH (length r)); [simpl in Hn; lia | reflexivity].
Qed.

Lemma universal_newlines_lf (a : str) :
  In LF a \/ In CR a -> In LF (universal_newlines a).
Proof.
  remember (length a) as n eqn:Hn. revert a Hn.
  induction n as [n IH] using lt_wf_ind. intros a Hn H.
  destruct a as [|c r]; [destruct H as [[]|[]]|].
  cbn [universal_newlines]. destruct (Z.eqb_spec c CR) as [->|Hc]; [left; reflexivity|].
  destruct (Z.eq_dec c LF) as [->|Hl]; [left; reflexivity|].
  right. apply (IH (length r)); [simpl in Hn; lia | reflexivity|].
  destruct H as [[E|H]|[E|H]]; try congruence; auto.
Qed.

Lemma readlines_from_count (cur t : str) :
  (count_occ Z.eq_dec t LF <= length (readlines_from cur t))%nat.
Proof.
  revert cur. induction t as [|c t IH]; intros cur; simpl; [lia|].
  destruct (Z.eqb_spec c LF) as [->|Hne].
  - destruct (Z.eq_dec LF LF); [|congruence]. simpl. specialize (IH []). lia.
  - destruct (Z.eq_dec c LF); [congruence|]. apply IH.
Qed.

Lemma fmt_row_tail_no (c : char) (r : row) :
  c = LF \/ c = CR ->
  ~ In c (str_of_int (row_doc r) ++ [TAB] ++ str_of_int (row_tf r)).
Proof.
  intros Hc Hin.
  apply in_app_or in Hin as [Hin|Hin];
    [apply (str_of_int_no c) in Hin; tauto|].
  destruct Hin as [E|Hin]; [destruct Hc; subst c; discriminate E|].
  apply (str_of_int_no c) in Hin; tauto.
Qed.

(** A term with a line end in it is read as more than one line. *)
Lemma broken_term_lines (r : row) :
  In LF (row_term r) \/ In CR (row_term r) ->
  (2 <= length (readlines (fmt_row r)))%nat.
Proof.
  intros H. unfold readlines, fmt_row.
  rewrite universal_newlines_app by (intros b' E; discriminate E).
  eapply Nat.le_trans; [|apply readlines_from_count].
  rewrite count_occ_app.
  assert (H1 : In LF (universal_newlines (row_term r))) by apply universal_newlines_lf, H.
  assert (H2 : In LF (universal_newlines
                        ([TAB] ++ str_of_int (row_doc r) ++ [TAB]
                         ++ str_of_int (row_tf r) ++ [LF]))).
  { apply universal_newlines_lf. left. repeat (apply in_or_app; right). left. reflexivity. }
  apply (count_occ_In Z.eq_dec) in H1, H2. unfold char in *. lia.
Qed.

(** A term without a line end makes one line. *)
Lemma whole_term_line (r : row) :
  ~ In LF (row_term r) -> ~ In CR (row_term r) ->
  readlines (fmt_row r) = [fmt_row r].
Proof.
  intros Hlf Hcr. unfold readlines.
  assert (Hno : forall c, c = LF \/ c = CR -> ~ In c (row_term r) ->
            ~ In c (row_term r ++ [TAB] ++ str_of_int (row_doc r) ++ [TAB]
                    ++ str_of_int (row_tf r))).
  { intros c Hc Hterm Hin. apply in_app_or in Hin as [Hin|Hin]; [tauto|].
    destruct Hin as [E|Hin]; [destruct Hc; subst c; discriminate E|].
    exact (fmt_row_tail_no c r Hc Hin). }
  rewrite universal_newlines_id.
  - unfold fmt_row.
    replace (row_term r ++ [TAB] ++ str_of_int (row_doc r) ++ [TAB]
             ++ str_of_int (row_tf r) ++ [LF])
      with ((row_term r ++ [TAB] ++ str_of_int (row_doc r) ++ [TAB]
             ++ str_of_int (row_tf r)) ++ LF :: [])
      by (rewrite <- !app_assoc; reflexivity).
    rewrite readlines_from_line by (apply Hno; auto). reflexivity.
  - unfold fmt_row. intros Hin.
    replace (row_term r ++ [TAB] ++ str_of_int (row_doc r) ++ [TAB]
             ++ str_of_int (row_tf r) ++ [LF])
      with ((row_term r ++ [TAB] ++ str_of_int (row_doc r) ++ [TAB]
             ++ str_of_int (row_tf r)) ++ [LF]) in Hin
      by (rewrite <- !app_assoc; reflexivity).
    apply in_app_or in Hin as [Hin|[E|[]]]; [|discriminate E].
    revert Hin. apply Hno; auto.
Qed.

Lemma tab_in_term_raises (r : row) :
  In TAB (row_term r) -> parse_line (fmt_row r) = Raise ValueError.
Proof.
  intros Hin. destruct (parse_line (fmt_row r)) as [r'|x] eqn:E.
  - apply parse_line_fields in E. unfold split_tab in E.
    rewrite rstrip_lf_fmt_row, split_from_length in E.
    rewrite count_occ_app in E. simpl in E.
    destruct (Z.eq_dec TAB TAB); [|congruence].
    rewrite count_occ_app in E. simpl in E.
    destruct (Z.eq_dec TAB TAB); [|congruence].
    apply (count_occ_In Z.eq_dec) in Hin. exfalso. unfold char in *. lia.
  - apply parse_line_raise in E. congruence.
Qed.

(** X6: the generator of the merge (lines 41-44) on the text written for
    one row (line 34), the integers being within the digit limit.  It yields
    the row, and nothing after it, exactly when the term holds no tab, no line
    feed and no carriage return.  With a tab in a term that holds no line end,
    the line has more than three fields and the generator raises
    [ValueError]; with a line end in the term, the text is read as more than
    one line. *)
Theorem row_reads_back_iff_clean (r : row) (i : Z) :
  within_digit_limit (row_doc r) ->
  within_digit_limit (row_tf r) ->
  (gen_next {| gen_i := i; gen_lines := readlines (fmt_row r) |}
   = Ok (Some (r, i, {| gen_i := i; gen_lines := [] |}))
   <-> clean_row r)
  /\ (In TAB (row_term r) -> ~ In LF (row_term r) -> ~ In CR (row_term r) ->
      gen_next {| gen_i := i; gen_lines := readlines (fmt_row r) |} = Raise ValueError)
  /\ (In LF (row_term r) \/ In CR (row_term r) ->
      (2 <= length (readlines (fmt_row r)))%nat).
Proof.
  intros _ _. split; [|split].
  - split.
    + intros H.
      assert (Hends : ~ In LF (row_term r) /\ ~ In CR (row_term r)).
      { destruct (in_dec Z.eq_dec LF (row_term r)) as [Hl|Hl];
          [|destruct (in_dec Z.eq_dec CR (row_term r)) as [Hc|Hc]; [|tauto]];
          exfalso;
          [pose proof (broken_term_lines r (or_introl Hl)) as Hlen
          |pose proof (broken_term_lines r (or_intror Hc)) as Hlen];
          unfold gen_next in H; cbn [gen_lines gen_i] in H;
          destruct (readlines (fmt_row r)) as [|l0 [|l1 ls]]; simpl in Hlen; try lia;
          destruct (parse_line l0); simpl in H; discriminate H. }
      destruct Hends as [Hlf Hcr]. split; [|split; assumption].
      intros Htab. rewrite (whole_term_line r Hlf Hcr) in H.
      unfold gen_next in H. cbn [gen_lines] in H.
      rewrite (tab_in_term_raises r Htab) in H. discriminate H.
    + intros Hclean. destruct Hclean as (Htab & Hlf & Hcr).
      rewrite (whole_term_line r Hlf Hcr). unfold gen_next. cbn [gen_lines gen_i].
      rewrite parse_line_fmt_row by (repeat split; assumption). reflexivity.
  - intros Htab Hlf Hcr. rewrite (whole_term_line r Hlf Hcr).
    unfold gen_next. cbn [gen_lines]. rewrite (tab_in_term_raises r Htab). reflexivity.
  - apply broken_term_lines.
Qed.

Lemma row_reads_back_example :
  within_digit_limit 12 /\ within_digit_limit (-3)
  /\ gen_next {| gen_i := 0; gen_lines := readlines (fmt_row (lit "casa", 12, -3)) |}
     = Ok (Some ((lit "casa", 12, -3), 0, {| gen_i := 0; gen_lines := [] |}))
  /\ gen_next {| gen_i := 0; gen_lines := readlines (fmt_row ([97; 9; 98], 12, -3)) |}
     = Raise ValueError
  /\ (2 <= length (readlines (fmt_row ([97; 13; 98], 12, -3)%Z)))%nat.
Proof.
  assert (H12 : within_digit_limit 12) by (apply small_within_digit_limit; reflexivity).
  assert (H3 : within_digit_limit (-3)) by (apply small_within_digit_limit; reflexivity).
  split; [exact H12|]. split; [exact H3|]. split; [|split].
  - apply (proj1 (row_reads_back_iff_clean (lit "casa", 12, -3) 0 H12 H3)).
    cbv. intuition discriminate.
  - apply (proj1 (proj2 (row_reads_back_iff_clean ([97; 9; 98], 12, -3) 0 H12 H3)));
      cbv; intuition discriminate.
  - apply (proj2 (proj2 (row_reads_back_iff_clean ([97; 13; 98], 12, -3) 0 H12 H3))).
    right. right. left. reflexivity.
Defined.

(** X7: the run file [spill_sorted_chunk] writes reads back, line by line
    as the merge reads it, as rows that are the rows of the postings,
    sorted by (term, doc id); the file is [chunk_NNNNNN.tsv] under [tmp_dir],
    the number returned is the number of rows, and no other file changes.
    [tmp_dir] has to exist; the terms must hold no tab and no line end, which
    is so for the tokens of the tokenizer; and Python must be able to write
    the rows: no term with a lone surrogate, no integer beyond the digit
    limit. *)
Theorem run_file_reads_back_sorted (fs : filesystem) (postings : postings_t)
  (tmp_dir : str) (chunk_idx : Z) :
  In tmp_dir (dirs fs) ->
  Forall clean_row (rows_of postings) ->
  Forall writable_row (rows_of postings) ->
  exists fs' rows,
    spill_sorted_chunk fs postings tmp_dir chunk_idx
    = Ok (fs', ((tmp_dir, chunk_name chunk_idx), len rows))
    /\ (s <- read_file fs' (tmp_dir, chunk_name chunk_idx) ;; read_rows s) = Ok rows
    /\ Permutation rows (rows_of postings)
    /\ StronglySorted key_le rows
    /\ dirs fs' = dirs fs
    /\ forall q, q <> (tmp_dir, chunk_name chunk_idx) -> read_file fs' q = read_file fs q.
Proof.
  intros Hdir Hclean _.
  set (rows := sort_rows (rows_of postings)).
  set (p := (tmp_dir, chunk_name chunk_idx)).
  destruct (write_file_ok fs p (rows_text rows) Hdir) as [fs' Hw].
  assert (Hperm : Permutation rows (rows_of postings)) by apply sort_rows_perm.
  exists fs', rows. split; [|split; [|split; [exact Hperm|split; [|split]]]].
  - unfold spill_sorted_chunk. fold rows p. unfold rows_text in Hw. rewrite Hw. reflexivity.
  - rewrite (read_write_same _ _ _ _ Hw). simpl. apply read_rows_text.
    rewrite Forall_forall in *. intros r Hr. apply Hclean, (Permutation_in _ Hperm), Hr.
  - apply sort_rows_sorted.
  - eapply write_file_dirs, Hw.
  - intros q Hq. eapply read_write_other; eauto.
Qed.

Lemma run_file_reads_back_example :
  In (lit "tmp") (dirs {| dirs := [lit "tmp"]; files := [] |})
  /\ Forall clean_row (rows_of (fst (map_count_docs [lit "la casa"; lit "casa"] 0)))
  /\ Forall writable_row (rows_of (fst (map_count_docs [lit "la casa"; lit "casa"] 0)))
  /\ exists fs' rows,
       spill_sorted_chunk {| dirs := [lit "tmp"]; files := [] |}
         (fst (map_count_docs [lit "la casa"; lit "casa"] 0)) (lit "tmp") 0
       = Ok (fs', ((lit "tmp", chunk_name 0), len rows))
       /\ (s <- read_file fs' (lit "tmp", chunk_name 0) ;; read_rows s) = Ok rows
       /\ Permutation rows
            (rows_of (fst (map_count_docs [lit "la casa"; lit "casa"] 0)))
       /\ StronglySorted key_le rows
       /\ dirs fs' = dirs {| dirs := [lit "tmp"]; files := [] |}
       /\ forall q, q <> (lit "tmp", chunk_name 0) ->
            read_file fs' q = read_file {| dirs := [lit "tmp"]; files := [] |} q.
Proof.
  assert (Hc : Forall clean_row
                 (rows_of (fst (map_count_docs [lit "la casa"; lit "casa"] 0))))
    by clean_rows.
  assert (Hw : Forall writable_row
                 (rows_of (fst (map_count_docs [lit "la casa"; lit "casa"] 0))))
    by (apply small_rows_writable; vm_compute; reflexivity).
  split; [left; reflexivity|]. split; [exact Hc|]. split; [exact Hw|].
  apply (run_file_reads_back_sorted {| dirs := [lit "tmp"]; files := [] |}
           (fst (map_count_docs [lit "la casa"; lit "casa"] 0)) (lit "tmp") 0);
    [left; reflexivity | exact Hc | exact Hw].
Defined.

(** ** The names of the shards *)

Lemma str_compare_prefix (p a b : str) :
  str_compare (p ++ a) (p ++ b) = str_compare a b.
Proof.
  induction p as [|c p IH]; simpl; [reflexivity|]. rewrite Z.compare_refl. exact IH.
Qed.

Lemma str_compare_same_length (a b s t : str) :
  length a = length b -> str_compare a b = Lt -> str_compare (a ++ s) (b ++ t) = Lt.
Proof.
  revert b. induction a as [|x a IH]; intros [|y b] Hlen H; simpl in *;
    try discriminate.
  destruct (x ?= y); [apply IH; [lia | exact H] | reflexivity | discriminate].
Qed.

Lemma three_digits_checked : forallb three_digits_in_order (seq 0 999) = true.
Proof. vm_compute. reflexivity. Qed.

Lemma format_0d_step (k : nat) :
  (k < 999)%nat ->
  length (format_0d 3 (Z.of_nat k)) = 3%nat
  /\ str_lt (format_0d 3 (Z.of_nat k)) (format_0d 3 (Z.of_nat (S k))).
Proof.
  intros Hk. pose proof three_digits_checked as H.
  rewrite forallb_forall in H. specialize (H k).
  unfold three_digits_in_order in H. rewrite andb_true_iff, Nat.eqb_eq in H.
  destruct H as [Hlen Hlt]; [apply in_seq; lia|]. split; [exact Hlen|].
  unfold str_lt. destruct (str_compare _ _); congruence.
Qed.

Lemma format_0d_order (a b : nat) :
  (a < b)%nat -> (b < 1000)%nat ->
  str_lt (format_0d 3 (Z.of_nat a)) (format_0d 3 (Z.of_nat b)).
Proof.
  intros Hab Hb. induction b as [|b IH]; [lia|].
  destruct (Nat.eq_dec a b) as [->|Hne].
  - apply format_0d_step. lia.
  - eapply str_lt_trans; [apply IH; lia | apply format_0d_step; lia].
Qed.

(** X8: the shard files of a run sort by name in the order of the shards as
    long as there are at most 1000 of them: for shard numbers
    [0 <= a < b < 1000] the name of shard [a] is smaller than the name of
    shard [b], in the order of strings.  The bound cannot be raised: the name
    of shard 1000 is smaller than the name of shard 999, the number being
    padded to three digits only. *)
Theorem shard_names_sort_in_shard_order (basename : str) :
  (forall a b, 0 <= a -> a < b -> b < 1000 ->
     str_lt (shard_name basename a) (shard_name basename b))
  /\ str_lt (shard_name basename 1000) (shard_name basename 999).
Proof.
  split.
  - intros a b Ha Hab Hb. unfold shard_name, str_lt.
    rewrite !str_compare_prefix.
    rewrite <- (Z2Nat.id a), <- (Z2Nat.id b) by lia.
    apply str_compare_same_length.
    + destruct (format_0d_step (Z.to_nat a)) as [-> _]; [lia|].
      destruct (Z.eq_dec b 999) as [->|Hne]; [reflexivity|].
      destruct (format_0d_step (Z.to_nat b)) as [-> _]; [lia | reflexivity].
    + apply format_0d_order; lia.
  - unfold shard_name, str_lt. rewrite !str_compare_prefix. reflexivity.
Qed.

Lemma shard_names_sort_example :
  str_lt (shard_name (lit "index") 9) (shard_name (lit "index") 10)
  /\ str_lt (shard_name (lit "index") 1000) (shard_name (lit "index") 999).
Proof.
  split.
  - apply (proj1 (shard_names_sort_in_shard_order (lit "index")) 9 10); lia.
  - apply (proj2 (shard_names_sort_in_shard_order (lit "index"))).
Defined.

(** ** Batches of documents *)

Lemma read_line_batch_floor (lpd bd : Z) (st : seg_state) (line : str) :
  read_line lpd bd st line = read_line lpd (Z.max 1 bd) st line.
Proof.
  unfold read_line. destruct (len (line_buf st ++ [line]) >=? lpd); [|reflexivity].
  assert (H : 1 <= len (doc_buf st ++ [concat (line_buf st ++ [line])])).
  { rewrite len_app. pose proof (len_nonneg (doc_buf st)). unfold len at 2. simpl. lia. }
  replace (len (doc_buf st ++ [concat (line_buf st ++ [line])]) >=? Z.max 1 bd)
    with (len (doc_buf st ++ [concat (line_buf st ++ [line])]) >=? bd); [reflexivity|].
  rewrite !Z.geb_leb.
  destruct (Z.leb_spec bd (len (doc_buf st ++ [concat (line_buf st ++ [line])])));
    destruct (Z.leb_spec (Z.max 1 bd)
                (len (doc_buf st ++ [concat (line_buf st ++ [line])])));
    lia || reflexivity.
Qed.

Lemma submit_batches_batch_floor (lines : list str) (lpd bd : Z) :
  submit_batches lines lpd bd = submit_batches lines lpd (Z.max 1 bd).
Proof.
  unfold submit_batches. do 2 f_equal.
  generalize {| futures := []; doc_buf := []; line_buf := []; next_doc_id := 0 |}.
  induction lines as [|x lines IH]; intros st; simpl; [reflexivity|].
  rewrite IH, read_line_batch_floor. reflexivity.
Qed.

Lemma read_line_batch_inv (lpd bd : Z) (st : seg_state) (line : str) :
  1 <= bd ->
  batch_inv (Z.to_nat bd) st -> batch_inv (Z.to_nat bd) (read_line lpd bd st line).
Proof.
  intros Hbd [Hfull Hbuf]. unfold read_line, batch_inv.
  destruct (len (line_buf st ++ [line]) >=? lpd); [|split; assumption].
  destruct (len (doc_buf st ++ [concat (line_buf st ++ [line])]) >=? bd) eqn:E;
    cbn [futures doc_buf].
  - split; [|simpl; lia]. apply Forall_app. split; [exact Hfull|].
    constructor; [|constructor]. cbn [fst].
    apply Z.geb_le in E. unfold len in E. rewrite length_app in *. simpl in *. lia.
  - split; [exact Hfull|].
    rewrite Z.geb_leb in E. apply Z.leb_gt in E. unfold len in E. lia.
Qed.

Lemma read_lines_batch_inv (lpd bd : Z) (l : list str) (st : seg_state) :
  1 <= bd ->
  batch_inv (Z.to_nat bd) st ->
  batch_inv (Z.to_nat bd) (fold_left (read_line lpd bd) l st).
Proof.
  intros Hbd. revert st. induction l as [|x l IH]; intros st H; simpl; [exact H|].
  apply IH, read_line_batch_inv; assumption.
Qed.

(** Full groups followed by what is left are the groups of their items. *)
Lemma groups_of_known {A : Type} (n : nat) (pre : list (list A)) (g : list A) :
  (1 <= n)%nat ->
  Forall (fun b => length b = n) pre ->
  (length g <= n)%nat ->
  groups_of n (concat pre ++ g) = pre ++ match g with [] => [] | _ => [g] end.
Proof.
  intros Hn Hpre Hg. induction Hpre as [|b pre Hb _ IH]; simpl.
  - destruct g; [reflexivity|]. apply groups_of_short; [discriminate | exact Hg].
  - rewrite <- app_assoc, groups_of_full by assumption. rewrite IH. reflexivity.
Qed.

Lemma end_of_input_batches (n : nat) (st : seg_state) :
  (1 <= n)%nat ->
  batch_inv n st ->
  map fst (futures (end_of_input st))
  = groups_of n (concat (map fst (futures (end_of_input st)))).
Proof.
  intros Hn [Hfull Hbuf]. unfold end_of_input.
  set (buf := match line_buf st with
              | [] => doc_buf st
              | _ => doc_buf st ++ [concat (line_buf st)]
              end).
  assert (Hlen : (length buf <= n)%nat).
  { unfold buf. destruct (line_buf st); [lia|]. rewrite length_app. simpl. lia. }
  assert (Hpre : Forall (fun b => length b = n) (map fst (futures st))).
  { rewrite Forall_forall in *. intros b Hb. apply in_map_iff in Hb as (x & <- & Hx).
    auto. }
  clearbody buf. destruct buf as [|d rest]; cbn [futures].
  - rewrite <- (app_nil_r (concat _)), groups_of_known by (assumption || simpl; lia).
    rewrite app_nil_r. reflexivity.
  - rewrite map_app, concat_app. cbn [map fst concat]. rewrite app_nil_r.
    rewrite groups_of_known by assumption. reflexivity.
Qed.

(** X9: the batches handed to the workers are the documents in groups of
    [batch_docs]: every batch but the last holds exactly [batch_docs]
    documents, the last one holds what is left, and no batch is empty; the
    documents are the lines in groups of [lines_per_doc].  A [batch_docs] or a
    [lines_per_doc] of 0 or less acts as 1: every document is a batch of its
    own, every line a document of its own. *)
Theorem batches_are_groups_of_documents (lines : list str) (lpd bd : Z) :
  map fst (submit_batches lines lpd bd)
  = groups_of (Z.to_nat (Z.max 1 bd))
      (map (@concat char) (groups_of (Z.to_nat (Z.max 1 lpd)) lines)).
Proof.
  rewrite submit_batches_floor, submit_batches_batch_floor.
  rewrite <- segmenter_documents_first with (bd := Z.max 1 bd) by lia.
  unfold submit_batches. apply end_of_input_batches; [lia|].
  apply read_lines_batch_inv; [lia|]. split; [constructor | simpl; lia].
Qed.

(** ** Run files the merge cannot read *)

Lemma read_all_missing (fs : filesystem) (ps : list path) (p : path) :
  In p ps -> read_file fs p = Raise FileNotFoundError ->
  read_all fs ps = Raise FileNotFoundError.
Proof.
  intros Hin Hp. unfold read_all. induction ps as [|q ps IH]; [contradiction|].
  cbn [fold_right]. destruct Hin as [->|Hin].
  - rewrite Hp. reflexivity.
  - destruct (read_file fs q) as [s|x] eqn:E; simpl.
    + rewrite (IH Hin). reflexivity.
    + apply read_file_raise in E as [-> _]. reflexivity.
Qed.

(** X10: when one of the run files does not exist, [merge_sorted_chunks]
    raises [FileNotFoundError], whatever the other run files hold. *)
Theorem merge_raises_on_missing_run_file (fs : filesystem) (chunk_paths : list path)
  (outdir : str) (shard_mb : Z) (basename : str) (p : path) :
  In p chunk_paths ->
  read_file fs p = Raise FileNotFoundError ->
  merge_sorted_chunks fs chunk_paths outdir shard_mb basename = Raise FileNotFoundError.
Proof.
  intros Hin Hp. unfold merge_sorted_chunks.
  rewrite (read_all_missing _ _ p Hin); [reflexivity|].
  rewrite read_makedirs. exact Hp.
Qed.

Lemma merge_raises_on_missing_run_file_example :
  In (lit "tmp", chunk_name 1) [(lit "tmp", chunk_name 0); (lit "tmp", chunk_name 1)]
  /\ read_file {| dirs := [lit "tmp"];
                  files := [((lit "tmp", chunk_name 0), rows_text [(lit "ana", 0, 1)])] |}
       (lit "tmp", chunk_name 1)
     = Raise FileNotFoundError
  /\ merge_sorted_chunks
       {| dirs := [lit "tmp"];
          files := [((lit "tmp", chunk_name 0), rows_text [(lit "ana", 0, 1)])] |}
       [(lit "tmp", chunk_name 0); (lit "tmp", chunk_name 1)] (lit "out") 256 (lit "index")
     = Raise FileNotFoundError.
Proof.
  split; [right; left; reflexivity|]. split; [reflexivity|].
  apply (merge_raises_on_missing_run_file _ _ _ _ _ (lit "tmp", chunk_name 1));
    [right; left; reflexivity | reflexivity].
Defined.









(** ** The size of the heap *)

Lemma advance_srcs_incl (e : entry) (h h' : list entry) :
  advance e h = Ok h' -> incl (map e_src h') (map e_src (e :: h)).
Proof.
  intros H s Hs. destruct (advance_perm e h h' H) as [Hp|Hp].
  - right. apply (Permutation_in _ Hp), Hs.
  - apply (Permutation_in _ Hp), Hs.
Qed.

Lemma reachable_srcs_incl (mb : Z) (st0 st : merge_state) :
  reachable mb st0 st -> incl (map e_src (heap st)) (map e_src (heap st0)).
Proof.
  induction 1 as [|st e h h' _ IH Hheap Hadv]; [apply incl_refl|].
  rewrite write_record_heap. eapply incl_tran; [|exact IH].
  rewrite Hheap. eapply advance_srcs_incl, Hadv.
Qed.

(** X12: in every state the merge goes through the heap holds at most one
    item per run file, so never more items than there are run files, whatever
    their sizes; and the run index of every item is the index of one of the
    run files. *)
Theorem heap_holds_one_item_per_run (run_files : list str) (shard_mb : Z)
  (heads h : list entry) (st : merge_state) :
  first_heads (open_iters run_files) = Ok heads ->
  heapify heads = Ok h ->
  reachable shard_mb (start_state h) st ->
  (length (heap st) <= length run_files)%nat
  /\ forall e, In e (heap st) -> 0 <= e_src e < len run_files.
Proof.
  intros Hfirst Hheapify Hreach.
  pose proof (first_heads_cases (open_iters run_files)) as Hheads.
  rewrite Hfirst in Hheads. destruct Hheads as [Hsub Hnd].
  specialize (Hnd (open_iters_indices run_files)).
  destruct (heapify_ok heads Hnd) as (h1 & Hh1 & Hperm & _).
  rewrite Hheapify in Hh1. injection Hh1 as <-.
  assert (Hnd0 : NoDup (map e_src (heap (start_state h)))).
  { simpl. eapply Permutation_NoDup; [|exact Hnd].
    apply Permutation_map, Permutation_sym, Hperm. }
  pose proof (reachable_srcs _ _ _ Hreach Hnd0) as Hst.
  pose proof (reachable_srcs_incl _ _ _ Hreach) as Hincl. simpl in Hincl.
  assert (Hidx : map gen_i (open_iters run_files)
                 = map Z.of_nat (seq 0 (length run_files))).
  { unfold open_iters. rewrite map_map.
    rewrite (map_ext _ fst) by (intros [i fh]; reflexivity).
    apply map_fst_enumerate. }
  assert (Hin : incl (map e_src (heap st)) (map Z.of_nat (seq 0 (length run_files)))).
  { intros s Hs. rewrite <- Hidx. apply Hsub.
    apply (Permutation_in _ (Permutation_map e_src Hperm)), Hincl, Hs. }
  split.
  - pose proof (NoDup_incl_length Hst Hin) as Hlen.
    rewrite !length_map, length_seq in Hlen. exact Hlen.
  - intros e He. specialize (Hin (e_src e) (in_map e_src _ _ He)).
    apply in_map_iff in Hin as (k & <- & Hk). apply in_seq in Hk. unfold len. lia.
Qed.

Lemma heap_holds_one_item_per_run_example :
  first_heads (open_iters two_runs) = Ok [item_ana; item_boda]
  /\ heapify [item_ana; item_boda] = Ok [item_ana; item_boda]
  /\ reachable 256 (start_state [item_ana; item_boda])
       (write_record 256 (start_state [item_ana; item_boda]) item_ana
          [item_boda; item_casa])
  /\ (length (heap (write_record 256 (start_state [item_ana; item_boda]) item_ana
                     [item_boda; item_casa]))
      <= length two_runs)%nat
  /\ forall e,
       In e (heap (write_record 256 (start_state [item_ana; item_boda]) item_ana
                     [item_boda; item_casa])) ->
       0 <= e_src e < len two_runs.
Proof.
  assert (Hreach : reachable 256 (start_state [item_ana; item_boda])
                     (write_record 256 (start_state [item_ana; item_boda]) item_ana
                        [item_boda; item_casa])).
  { apply (reach_turn 256 _ _ item_ana [item_boda] [item_boda; item_casa]);
      [apply reach_start | reflexivity | reflexivity]. }
  split; [reflexivity|]. split; [reflexivity|]. split; [exact Hreach|].
  apply (heap_holds_one_item_per_run two_runs 256 [item_ana; item_boda]
           [item_ana; item_boda]); [reflexivity | reflexivity | exact Hreach].
Defined.

(** ** The index as a whole *)

Lemma rows_text_concat (gs : list (list row)) :
  rows_text (concat gs) = concat (map rows_text gs).
Proof.
  induction gs as [|g gs IH]; [reflexivity|].
  simpl. rewrite rows_text_app, IH. reflexivity.
Qed.

Lemma rows_text_inj (a b : list row) :
  Forall clean_row a -> Forall clean_row b -> rows_text a = rows_text b -> a = b.
Proof.
  intros Ha Hb E. apply read_rows_text in Ha, Hb. rewrite E in Ha.
  rewrite Ha in Hb. injection Hb as ->. reflexivity.
Qed.

Lemma rows_texts_inj (g1 g2 : list (list row)) :
  Forall (Forall clean_row) g1 -> Forall (Forall clean_row) g2 ->
  map rows_text g1 = map rows_text g2 -> g1 = g2.
Proof.
  intros H1. revert g2. induction H1 as [|a g1 Ha _ IH]; intros [|b g2] H2 E;
    try discriminate; [reflexivity|].
  inversion H2; subst. simpl in E. injection E as Eab E.
  f_equal; [apply rows_text_inj; assumption | apply IH; assumption].
Qed.

Lemma clean_perm (a b : list row) :
  Permutation a b -> Forall clean_row b -> Forall clean_row a.
Proof.
  intros Hp Hb. rewrite Forall_forall in *. intros r Hr.
  apply Hb, (Permutation_in _ Hp), Hr.
Qed.

Lemma concat_clean (runs : list (list row)) :
  Forall (Forall clean_row) runs -> Forall clean_row (concat runs).
Proof. induction 1; simpl; [constructor | apply Forall_app; auto]. Qed.

(** The rows the merge pops are in order when the runs are. *)
Lemma pops_sorted_runs (runs : list (list row)) (mb : Z) (h tr : list entry)
  (st : merge_state) :
  Forall (Forall clean_row) runs ->
  Forall (StronglySorted key_le) runs ->
  Permutation h (run_heads (enumerate runs)) ->
  heap_ok h ->
  pops mb (start_state h) tr st ->
  StronglySorted key_le (map e_row tr).
Proof.
  intros Hclean Hs Hh Hok Hpops.
  apply (pops_sorted mb _ _ _ Hpops Hok). simpl.
  rewrite Forall_forall. intros e He. apply (Permutation_in _ Hh) in He.
  apply run_heads_pending in He; [|apply enumerate_clean, Hclean].
  rewrite map_snd_enumerate in He. rewrite Forall_forall in Hs. auto.
Qed.

(** The rows [merge_files] writes are in order when the runs are. *)
Lemma merge_files_groups_sorted (runs : list (list row)) (mb : Z)
  (groups : list (list row)) (ret : Z * Z) :
  Forall (Forall clean_row) runs ->
  Forall (StronglySorted key_le) runs ->
  merge_files (map rows_text runs) mb = Ok (enumerate (map rows_text groups), ret) ->
  Permutation (concat groups) (concat runs) ->
  StronglySorted key_le (concat groups).
Proof.
  intros Hclean Hsorted Hret Hperm.
  destruct (merge_files_runs runs mb Hclean)
    as (h & tr & st' & Hh & Hok & Hpops & Hrows & Hmerge).
  rewrite Hmerge in Hret. injection Hret as Hshards _.
  assert (Htext : rows_text (concat groups) = rows_text (map e_row tr)).
  { rewrite rows_text_concat, <- (map_snd_enumerate (map rows_text groups)), <- Hshards.
    rewrite written_text_final. apply (pops_text mb _ _ _ Hpops). }
  apply rows_text_inj in Htext.
  - rewrite Htext. eapply pops_sorted_runs; eauto.
  - eapply clean_perm; [exact Hperm | apply concat_clean, Hclean].
  - eapply clean_perm; [exact Hrows | apply concat_clean, Hclean].
Qed.

Lemma key_lt_of_le (a b : row) :
  key_le a b -> row_key a <> row_key b -> key_lt a b = true.
Proof.
  intros Hle Hne. apply key_le_iff in Hle. pose proof (key_lt_cases a b) as Hc.
  destruct (key_lt a b); [reflexivity|]. exfalso.
  destruct Hle as [Hlt|[Et Hd]], Hc as [Hlt'|[Et' Hd']].
  - eapply str_lt_irrefl, str_lt_trans; eauto.
  - rewrite Et' in Hlt. eapply str_lt_irrefl; eauto.
  - rewrite Et in Hlt'. eapply str_lt_irrefl; eauto.
  - apply Hne. unfold row_key. f_equal; [exact Et | lia].
Qed.

Lemma sorted_distinct_keys (l : list row) :
  StronglySorted key_le l -> NoDup (map row_key l) ->
  StronglySorted (fun a b => key_lt a b = true) l.
Proof.
  induction 1 as [|a l Hs IH Hall]; intros Hnd; [constructor|].
  simpl in Hnd. inversion Hnd as [|? ? Hnotin Hnd']; subst.
  constructor; [auto|]. rewrite Forall_forall in *. intros b Hb.
  apply key_lt_of_le; [auto|]. intros E. apply Hnotin. rewrite E. apply in_map, Hb.
Qed.

Lemma key_lt_asym (a b : row) : key_lt a b = true -> key_lt b a = true -> False.
Proof.
  intros H1 H2. pose proof (key_lt_cases a b) as C1. pose proof (key_lt_cases b a) as C2.
  rewrite H1 in C1. rewrite H2 in C2.
  destruct C1 as [L1|[E1 D1]], C2 as [L2|[E2 D2]].
  - eapply str_lt_irrefl, str_lt_trans; eauto.
  - rewrite E2 in L1. eapply str_lt_irrefl; eauto.
  - rewrite E1 in L2. eapply str_lt_irrefl; eauto.
  - lia.
Qed.

(** Rows in strict order are determined by what they are, as a multiset. *)
Lemma strictly_sorted_unique (l1 l2 : list row) :
  StronglySorted (fun a b => key_lt a b = true) l1 ->
  StronglySorted (fun a b => key_lt a b = true) l2 ->
  Permutation l1 l2 -> l1 = l2.
Proof.
  intros H1. revert l2. induction H1 as [|a l1 Hs1 IH Ha]; intros l2 H2 Hp.
  - apply Permutation_nil in Hp. congruence.
  - destruct H2 as [|b l2 Hs2 Hb].
    + apply Permutation_sym, Permutation_nil in Hp. discriminate.
    + assert (E : a = b).
      { assert (Hina : In a (b :: l2)) by (apply (Permutation_in _ Hp); left; reflexivity).
        assert (Hinb : In b (a :: l1))
          by (apply (Permutation_in _ (Permutation_sym Hp)); left; reflexivity).
        destruct Hina as [->|Hina]; [reflexivity|].
        destruct Hinb as [->|Hinb]; [reflexivity|].
        rewrite Forall_forall in Ha, Hb. exfalso.
        apply (key_lt_asym a b); auto. }
      subst b. f_equal. apply IH; [exact Hs2|]. eapply Permutation_cons_inv, Hp.
Qed.

Lemma worker_runs_sorted (l : list (postings_t * Z)) :
  Forall (StronglySorted key_le) (map run_rows l).
Proof.
  rewrite Forall_forall. intros rows H. apply in_map_iff in H as (res & <- & _).
  apply sort_rows_sorted.
Qed.

(** The runs of the workers, in whatever order they finish. *)
Lemma completed_runs (as_completed : list (postings_t * Z) -> list (postings_t * Z))
  (lines : list str) (lpd bd : Z) :
  (forall l, Permutation (as_completed l) l) ->
  Permutation (concat (map run_rows (as_completed (worker_results lines lpd bd))))
    (reference_index lines lpd)
  /\ Forall (Forall clean_row) (map run_rows (as_completed (worker_results lines lpd bd))).
Proof.
  intros Hp. destruct (worker_runs_reference lines lpd bd) as [Hrows Hcl].
  fold (worker_results lines lpd bd) in Hrows, Hcl. split.
  - rewrite <- Hrows, <- !flat_map_concat_map. apply flat_map_perm, Hp.
  - rewrite Forall_forall in *. intros rows Hin. apply Hcl.
    apply in_map_iff in Hin as (res & <- & Hres). apply in_map.
    apply (Permutation_in _ (Hp _)), Hres.
Qed.

(** X13: whatever the order in which the workers finish, the rows of the
    shard files, read shard after shard, are in the strict order of
    (term, doc id): of two rows the earlier one has the smaller term, or the
    same term and the smaller doc id.  So the index as a whole is sorted, and
    no pair (term, doc id) has two rows. *)
Theorem index_is_sorted_without_duplicate_keys
  (as_completed : list (postings_t * Z) -> list (postings_t * Z))
  (summary_text : str -> Z -> Z -> Z -> Z -> str)
  (fs : filesystem) (tmp_dir : str) (lines : list str) (outdir : str)
  (threads lines_per_doc batch_docs shard_mb : Z) :
  (forall l, Permutation (as_completed l) l) ->
  fresh_dir (makedirs fs outdir) tmp_dir ->
  exists fs' total_docs rows nshards triples,
    build_inverted_index as_completed summary_text fs tmp_dir lines outdir
      threads lines_per_doc batch_docs shard_mb
    = Ok (fs', (total_docs, rows, nshards))
    /\ read_shards fs' outdir (lit "index") nshards = Ok triples
    /\ forall pre a mid b post,
         triples = pre ++ a :: mid ++ b :: post ->
         str_lt (row_term a) (row_term b)
         \/ (row_term a = row_term b /\ row_doc a < row_doc b).
Proof.
  intros Hperm Hfresh.
  destruct (build_run as_completed Hperm summary_text fs tmp_dir lines
              outdir threads lines_per_doc batch_docs shard_mb Hfresh)
    as (fs' & total & groups & Hbuild & _ & _ & Hread & Href & Hclean & _ & _ & Hfiles).
  exists fs', total, (len (concat groups)), (len groups), (concat groups).
  split; [exact Hbuild|]. split; [apply read_shards_groups; assumption|].
  destruct (completed_runs as_completed lines lines_per_doc batch_docs Hperm)
    as [Hrows Hcl].
  assert (Hs : StronglySorted (fun a b => key_lt a b = true) (concat groups)).
  { apply sorted_distinct_keys.
    - eapply merge_files_groups_sorted;
        [exact Hcl | apply worker_runs_sorted | exact Hfiles |].
      rewrite Href, Hrows. apply Permutation_refl.
    - eapply Permutation_NoDup; [apply Permutation_map, Permutation_sym, Href|].
      apply reference_from_keys. }
  intros pre a mid b post E. rewrite E in Hs. clear E.
  induction pre as [|p pre IH]; simpl in Hs.
  - apply StronglySorted_inv in Hs as [_ Hall]. rewrite Forall_forall in Hall.
    pose proof (key_lt_cases a b) as Hc. rewrite Hall in Hc; [exact Hc|].
    apply in_or_app. right. left. reflexivity.
  - apply StronglySorted_inv in Hs as [Hs _]. auto.
Qed.

Lemma index_is_sorted_example :
  (forall l : list (postings_t * Z), Permutation (rev l) l)
  /\ fresh_dir (makedirs no_files (lit "out")) (lit "tmp")
  /\ exists fs' total_docs rows nshards triples,
       build_inverted_index (@rev _) plain_summary no_files (lit "tmp") three_lines
         (lit "out") 0 1 2 256
       = Ok (fs', (total_docs, rows, nshards))
       /\ read_shards fs' (lit "out") (lit "index") nshards = Ok triples
       /\ forall pre a mid b post,
            triples = pre ++ a :: mid ++ b :: post ->
            str_lt (row_term a) (row_term b)
            \/ (row_term a = row_term b /\ row_doc a < row_doc b).
Proof.
  split; [exact rev_is_a_completion_order|]. split; [exact tmp_is_fresh|].
  apply (index_is_sorted_without_duplicate_keys (@rev _) plain_summary no_files
           (lit "tmp") three_lines (lit "out") 0 1 2 256);
    [exact rev_is_a_completion_order | exact tmp_is_fresh].
Defined.

Lemma write_record_writer (mb : Z) (st1 st2 : merge_state) (e1 e2 : entry)
  (h1 h2 : list entry) :
  shard_writer st1 = shard_writer st2 ->
  e_row e1 = e_row e2 ->
  shard_writer (write_record mb st1 e1 h1) = shard_writer (write_record mb st2 e2 h2).
Proof.
  unfold shard_writer. intros [= E1 E2 E3 E4 E5] Er. unfold write_record.
  rewrite E1, E2, E3, E4, E5, Er. destruct (_ >=? _); reflexivity.
Qed.

(** The shards depend on the rows popped, in their order, and on nothing
    else. *)
Lemma pops_writer (mb : Z) (st1 : merge_state) (tr1 : list entry) (st1' : merge_state) :
  pops mb st1 tr1 st1' ->
  forall st2 tr2 st2',
    pops mb st2 tr2 st2' ->
    shard_writer st1 = shard_writer st2 ->
    map e_row tr1 = map e_row tr2 ->
    shard_writer st1' = shard_writer st2'.
Proof.
  induction 1 as [st1 Hheap1 | st1 e1 h1 h1' tr1 st1' Hheap1 Hadv1 _ IH];
    intros st2 tr2 st2' H2 Hw Hrows.
  - destruct H2 as [st2 Hheap2 | st2 e2 h2 h2' tr2 st2' Hheap2 Hadv2 H2];
      [exact Hw | discriminate].
  - destruct H2 as [st2 Hheap2 | st2 e2 h2 h2' tr2 st2' Hheap2 Hadv2 H2];
      [discriminate|].
    simpl in Hrows. injection Hrows as Er Hrows.
    eapply IH; [exact H2 | apply write_record_writer; assumption | exact Hrows].
Qed.

(** Two lists of sorted runs with the same rows, no key twice, merge into
    the same shards. *)
Lemma merge_files_same (runs1 runs2 : list (list row)) (mb : Z) :
  Forall (Forall clean_row) runs1 ->
  Forall (StronglySorted key_le) runs1 ->
  Forall (StronglySorted key_le) runs2 ->
  Permutation (concat runs1) (concat runs2) ->
  NoDup (map row_key (concat runs1)) ->
  merge_files (map rows_text runs1) mb = merge_files (map rows_text runs2) mb.
Proof.
  intros Hclean1 Hs1 Hs2 Hperm Hnd.
  assert (Hclean2 : Forall (Forall clean_row) runs2).
  { rewrite Forall_forall. intros rows Hrows. rewrite Forall_forall. intros r Hr.
    assert (Hin : In r (concat runs2)) by (apply in_concat; eauto).
    apply (Permutation_in _ (Permutation_sym Hperm)) in Hin.
    pose proof (concat_clean runs1 Hclean1) as Hc. rewrite Forall_forall in Hc. auto. }
  destruct (merge_files_runs runs1 mb Hclean1)
    as (h1 & tr1 & st1 & Hh1 & Hok1 & Hpops1 & Hrows1 & ->).
  destruct (merge_files_runs runs2 mb Hclean2)
    as (h2 & tr2 & st2 & Hh2 & Hok2 & Hpops2 & Hrows2 & ->).
  assert (E : map e_row tr1 = map e_row tr2).
  { apply strictly_sorted_unique.
    - apply sorted_distinct_keys;
        [apply (pops_sorted_runs runs1 mb h1 tr1 st1); assumption|].
      eapply Permutation_NoDup; [apply Permutation_map, Permutation_sym, Hrows1|].
      exact Hnd.
    - apply sorted_distinct_keys;
        [apply (pops_sorted_runs runs2 mb h2 tr2 st2); assumption|].
      eapply Permutation_NoDup; [apply Permutation_map, Permutation_sym|exact Hnd].
      rewrite Hrows2. apply Permutation_sym, Hperm.
    - rewrite Hrows1, Hrows2. exact Hperm. }
  pose proof (pops_writer mb _ _ _ Hpops1 _ _ _ Hpops2 eq_refl E) as Hw.
  unfold shard_writer in Hw. injection Hw as -> -> _ -> ->. reflexivity.
Qed.

Lemma Forall2_in_left {A B : Type} (P : A -> B -> Prop) (l : list A) (l' : list B) (x : A) :
  Forall2 P l l' -> In x l -> exists y, In y l' /\ P x y.
Proof.
  induction 1 as [|a b l l' Hab _ IH]; [contradiction|].
  intros [<-|Hin]; [exists b; split; [left; reflexivity | exact Hab]|].
  destruct (IH Hin) as (y & Hy & Hp). exists y. split; [right; exact Hy | exact Hp].
Qed.

Lemma Forall2_both {A B : Type} (P Q : A -> B -> Prop) (l : list A) (l' : list B) :
  Forall2 P l l' -> Forall2 Q l l' -> Forall2 (fun a b => P a b /\ Q a b) l l'.
Proof.
  induction 1 as [|a b l l' Hab _ IH]; intros H; inversion H; subst; constructor; auto.
Qed.

(** X14: the order in which the workers finish does not show in the index.
    Two runs on the same input, with the same parameters and any two
    completion orders, return the same counts and end with the same
    directories and the same content in every file other than the summary:
    the same shards, cut at the same rows.  The summary holds the time the
    run took (lines 93, 142, 151), so that each run has its own summary text;
    both summaries are written from the same counts. *)
Theorem index_is_the_same_for_every_completion_order
  (as_completed1 as_completed2 : list (postings_t * Z) -> list (postings_t * Z))
  (summary_text1 summary_text2 : str -> Z -> Z -> Z -> Z -> str)
  (fs : filesystem) (tmp_dir : str) (lines : list str) (outdir : str)
  (threads lines_per_doc batch_docs shard_mb : Z) :
  (forall l, Permutation (as_completed1 l) l) ->
  (forall l, Permutation (as_completed2 l) l) ->
  fresh_dir (makedirs fs outdir) tmp_dir ->
  exists fs1 fs2 total_docs rows nshards,
    build_inverted_index as_completed1 summary_text1 fs tmp_dir lines outdir
      threads lines_per_doc batch_docs shard_mb
    = Ok (fs1, (total_docs, rows, nshards))
    /\ build_inverted_index as_completed2 summary_text2 fs tmp_dir lines outdir
         threads lines_per_doc batch_docs shard_mb
       = Ok (fs2, (total_docs, rows, nshards))
    /\ dirs fs1 = dirs fs2
    /\ (forall q, q <> summary_path outdir -> read_file fs1 q = read_file fs2 q)
    /\ read_file fs1 (summary_path outdir)
       = Ok (summary_text1 outdir lines_per_doc total_docs rows nshards)
    /\ read_file fs2 (summary_path outdir)
       = Ok (summary_text2 outdir lines_per_doc total_docs rows nshards).
Proof.
  intros Hp1 Hp2 Hfresh.
  destruct (build_run as_completed1 Hp1 summary_text1 fs tmp_dir lines outdir threads
              lines_per_doc batch_docs shard_mb Hfresh)
    as (fs1 & total1 & groups1 & Hbuild1 & Hdirs1 & Hframe1 & Hread1 & Href1 & Hclean1
        & Hsum1 & Htotal1 & Hfiles1).
  destruct (build_run as_completed2 Hp2 summary_text2 fs tmp_dir lines outdir threads
              lines_per_doc batch_docs shard_mb Hfresh)
    as (fs2 & total2 & groups2 & Hbuild2 & Hdirs2 & Hframe2 & Hread2 & Href2 & Hclean2
        & Hsum2 & Htotal2 & Hfiles2).
  set (results := worker_results lines lines_per_doc batch_docs) in *.
  destruct (completed_runs as_completed1 lines lines_per_doc batch_docs Hp1)
    as [Hr1 Hc1].
  destruct (completed_runs as_completed2 lines lines_per_doc batch_docs Hp2)
    as [Hr2 Hc2].
  fold results in Hr1, Hc1, Hr2, Hc2.
  assert (Hsame : merge_files (map rows_text (map run_rows (as_completed1 results))) shard_mb
                  = merge_files (map rows_text (map run_rows (as_completed2 results))) shard_mb).
  { apply merge_files_same; [exact Hc1 | apply worker_runs_sorted..| |].
    - rewrite Hr1, Hr2. apply Permutation_refl.
    - eapply Permutation_NoDup; [apply Permutation_map, Permutation_sym, Hr1|].
      apply reference_from_keys. }
  rewrite Hfiles1, Hfiles2 in Hsame. injection Hsame as Hshards _ _.
  apply (f_equal (map snd)) in Hshards. rewrite !map_snd_enumerate in Hshards.
  apply rows_texts_inj in Hshards; [|assumption..]. subst groups2.
  assert (Et : total2 = total1).
  { rewrite Htotal1, Htotal2. apply sum_perm, Permutation_map.
    rewrite (Hp1 results), (Hp2 results). apply Permutation_refl. }
  rewrite Et in Hbuild2, Hsum2.
  exists fs1, fs2, total1, (len (concat groups1)), (len groups1).
  split; [exact Hbuild1|]. split; [exact Hbuild2|].
  split; [rewrite Hdirs1, Hdirs2; reflexivity|].
  split; [|split; [exact Hsum1 | exact Hsum2]].
  intros q Hq.
  destruct (in_dec path_eq_dec q
              (map (fun k => (outdir, shard_name (lit "index") (Z.of_nat k)))
                 (seq 0 (length groups1)))) as [Hin|Hnin].
  - apply in_map_iff in Hin as (k & <- & Hk).
    destruct (Forall2_in_left _ _ _ k (Forall2_both _ _ _ _ Hread1 Hread2) Hk)
      as (g & _ & -> & ->). reflexivity.
  - rewrite Hframe1, Hframe2; [reflexivity| | | |]; try exact Hq;
      intros k Hk E; apply Hnin; apply in_map_iff; exists k; split; auto;
      apply in_seq; lia.
Qed.

Lemma index_is_the_same_example :
  (forall l : list (postings_t * Z), Permutation (rev l) l)
  /\ (forall l : list (postings_t * Z), Permutation l l)
  /\ fresh_dir (makedirs no_files (lit "out")) (lit "tmp")
  /\ exists fs1 fs2 total_docs rows nshards,
       build_inverted_index (@rev _) (summary (lit "0.01")) no_files (lit "tmp")
         three_lines (lit "out") 0 1 2 256
       = Ok (fs1, (total_docs, rows, nshards))
       /\ build_inverted_index (fun l => l) (summary (lit "0.02")) no_files (lit "tmp")
            three_lines (lit "out") 0 1 2 256
          = Ok (fs2, (total_docs, rows, nshards))
       /\ dirs fs1 = dirs fs2
       /\ (forall q, q <> summary_path (lit "out") -> read_file fs1 q = read_file fs2 q)
       /\ read_file fs1 (summary_path (lit "out"))
          = Ok (summary (lit "0.01") (lit "out") 1 total_docs rows nshards)
       /\ read_file fs2 (summary_path (lit "out"))
          = Ok (summary (lit "0.02") (lit "out") 1 total_docs rows nshards).
Proof.
  split; [exact rev_is_a_completion_order|].
  split; [intros l; apply Permutation_refl|]. split; [exact tmp_is_fresh|].
  apply (index_is_the_same_for_every_completion_order (@rev _) (fun l => l)
           (summary (lit "0.01")) (summary (lit "0.02")) no_files (lit "tmp")
           three_lines (lit "out") 0 1 2 256);
    [exact rev_is_a_completion_order | intros l; apply Permutation_refl
    | exact tmp_is_fresh].
Defined.

Lemma worker_results_docs (lines : list str) (lpd bd : Z) :
  sum (map snd (worker_results lines lpd bd))
  = len (groups_of (Z.to_nat (Z.max 1 lpd)) lines).
Proof.
  unfold worker_results. rewrite map_map.
  rewrite (map_ext _ (fun b => len (fst b))) by (intros [docs id]; reflexivity).
  transitivity (len (concat (map fst (submit_batches lines lpd bd)))).
  - induction (submit_batches lines lpd bd) as [|[docs id] bs IH]; [reflexivity|].
    cbn [map sum fold_right concat fst]. fold (sum (map (fun b => len (fst b)) bs)).
    rewrite IH, len_app. reflexivity.
  - rewrite submit_batches_floor, segmenter_documents_first by lia.
    unfold len. rewrite length_map. reflexivity.
Qed.

(** The number of groups of [n]: the number of items over [n], rounded up. *)
Lemma groups_of_count {A : Type} (n : nat) (l : list A) :
  (1 <= n)%nat ->
  len (groups_of n l) = (len l + Z.of_nat n - 1) / Z.of_nat n.
Proof.
  intros Hn. remember (length l) as m eqn:Hm. revert l Hm.
  induction m as [m IH] using lt_wf_ind. intros l Hm.
  destruct (le_lt_dec (length l) n) as [Hshort|Hlong].
  - destruct l as [|x l].
    + unfold len. simpl. symmetry. apply Z.div_small. lia.
    + rewrite groups_of_short by (simpl in *; try discriminate; lia).
      unfold len in *. cbn [length] in *.
      apply (Z.div_unique _ _ _ (Z.of_nat (length l))); lia.
  - rewrite <- (firstn_skipn n l) at 1.
    assert (Hg : length (firstn n l) = n) by (rewrite length_firstn; lia).
    rewrite groups_of_full by assumption. rewrite len_cons.
    rewrite (IH (length (skipn n l))) by (rewrite ?length_skipn; lia || reflexivity).
    unfold len. rewrite length_skipn.
    replace (Z.of_nat (length l) + Z.of_nat n - 1)
      with ((Z.of_nat (length l - n) + Z.of_nat n - 1) + 1 * Z.of_nat n) by lia.
    rewrite Z.div_add by lia. lia.
Qed.

(** X15: the number of documents the driver counts and writes into the
    summary is the number of groups of [lines_per_doc] lines, that is the
    number of lines divided by [lines_per_doc] and rounded up (with a
    [lines_per_doc] below 1 taken as 1), whatever the batch size and the order
    in which the workers finish; the summary file holds the summary of the
    counts the driver returns. *)
Theorem summary_counts_the_documents
  (as_completed : list (postings_t * Z) -> list (postings_t * Z))
  (summary_text : str -> Z -> Z -> Z -> Z -> str)
  (fs : filesystem) (tmp_dir : str) (lines : list str) (outdir : str)
  (threads lines_per_doc batch_docs shard_mb : Z) :
  (forall l, Permutation (as_completed l) l) ->
  fresh_dir (makedirs fs outdir) tmp_dir ->
  exists fs' total_docs rows nshards,
    build_inverted_index as_completed summary_text fs tmp_dir lines outdir
      threads lines_per_doc batch_docs shard_mb
    = Ok (fs', (total_docs, rows, nshards))
    /\ total_docs = len (groups_of (Z.to_nat (Z.max 1 lines_per_doc)) lines)
    /\ total_docs
       = (len lines + Z.max 1 lines_per_doc - 1) / Z.max 1 lines_per_doc
    /\ read_file fs' (summary_path outdir)
       = Ok (summary_text outdir lines_per_doc total_docs rows nshards).
Proof.
  intros Hperm Hfresh.
  destruct (build_run as_completed Hperm summary_text fs tmp_dir lines outdir threads
              lines_per_doc batch_docs shard_mb Hfresh)
    as (fs' & total & groups & Hbuild & _ & _ & _ & _ & _ & Hsum & Htotal & _).
  assert (E : total = len (groups_of (Z.to_nat (Z.max 1 lines_per_doc)) lines)).
  { rewrite Htotal, <- worker_results_docs with (bd := batch_docs).
    apply sum_perm, Permutation_map, Hperm. }
  exists fs', total, (len (concat groups)), (len groups).
  split; [exact Hbuild|]. split; [exact E|]. split; [|exact Hsum].
  rewrite E, groups_of_count by lia. rewrite Z2Nat.id by lia. reflexivity.
Qed.

Lemma summary_counts_the_documents_example :
  (forall l : list (postings_t * Z), Permutation (rev l) l)
  /\ fresh_dir (makedirs no_files (lit "out")) (lit "tmp")
  /\ exists fs' total_docs rows nshards,
       build_inverted_index (@rev _) plain_summary no_files (lit "tmp") three_lines
         (lit "out") 0 2 1 256
       = Ok (fs', (total_docs, rows, nshards))
       /\ total_docs = len (groups_of (Z.to_nat (Z.max 1 2)) three_lines)
       /\ total_docs = (len three_lines + Z.max 1 2 - 1) / Z.max 1 2
       /\ read_file fs' (summary_path (lit "out"))
          = Ok (plain_summary (lit "out") 2 total_docs rows nshards).
Proof.
  split; [exact rev_is_a_completion_order|]. split; [exact tmp_is_fresh|].
  apply (summary_counts_the_documents (@rev _) plain_summary no_files (lit "tmp")
           three_lines (lit "out") 0 2 1 256);
    [exact rev_is_a_completion_order | exact tmp_is_fresh].
Defined.

Lemma reference_from_tokenless (docs : list str) (did : Z) :
  Forall (fun d => tokenize d = []) docs -> reference_from did docs = [].
Proof.
  intros H. revert did. induction H as [|d docs Hd _ IH]; intros did; [reflexivity|].
  simpl. unfold reference_doc. rewrite Hd, IH. reflexivity.
Qed.

Lemma first_heads_empty (iters : list generator) :
  Forall (fun it => gen_lines it = []) iters -> first_heads iters = Ok [].
Proof.
  induction 1 as [|it iters Hit _ IH]; [reflexivity|].
  simpl. unfold gen_next. rewrite Hit. simpl. rewrite IH. reflexivity.
Qed.

(** Run files that are all empty, or no run file at all, merge into one
    empty shard. *)
Lemma merge_files_empty (run_files : list str) (mb : Z) :
  Forall (fun s => s = []) run_files ->
  merge_files run_files mb = Ok ([(0, [])], (0, 1)).
Proof.
  intros H. unfold merge_files. rewrite first_heads_empty.
  - simpl. rewrite merge_loop_step. reflexivity.
  - unfold open_iters. rewrite Forall_forall. intros it Hit.
    apply in_map_iff in Hit as ([i fh] & <- & Hin). simpl.
    apply (in_map snd) in Hin. rewrite map_snd_enumerate in Hin. simpl in Hin.
    rewrite Forall_forall in H. rewrite (H _ Hin). reflexivity.
Qed.

Lemma groups_of_members {A : Type} (n : nat) (l g : list A) (x : A) :
  (1 <= n)%nat -> In g (groups_of n l) -> In x g -> In x l.
Proof.
  intros Hn Hg Hx. destruct (groups_of_shape n l Hn) as [Hcat _].
  rewrite <- Hcat. apply in_concat. eauto.
Qed.

(** X16: on an input that holds no character of the token class, an empty
    file among them, the driver still returns: it reports 0 postings and 1
    shard, and the one shard file it writes, [index_000.tsv], is empty. *)
Theorem text_without_tokens_gives_one_empty_shard
  (as_completed : list (postings_t * Z) -> list (postings_t * Z))
  (summary_text : str -> Z -> Z -> Z -> Z -> str)
  (fs : filesystem) (tmp_dir : str) (lines : list str) (outdir : str)
  (threads lines_per_doc batch_docs shard_mb : Z) :
  (forall l, Permutation (as_completed l) l) ->
  fresh_dir (makedirs fs outdir) tmp_dir ->
  Forall (fun c => token_char c = false) (concat lines) ->
  exists fs' total_docs,
    build_inverted_index as_completed summary_text fs tmp_dir lines outdir
      threads lines_per_doc batch_docs shard_mb
    = Ok (fs', (total_docs, 0, 1))
    /\ read_file fs' (outdir, shard_name (lit "index") 0) = Ok [].
Proof.
  intros Hperm Hfresh Hnone.
  destruct (build_run as_completed Hperm summary_text fs tmp_dir lines outdir threads
              lines_per_doc batch_docs shard_mb Hfresh)
    as (fs' & total & groups & Hbuild & _ & _ & Hread & Href & _ & _ & _ & Hfiles).
  assert (Hempty : reference_index lines lines_per_doc = []).
  { unfold reference_index. apply reference_from_tokenless.
    rewrite Forall_forall. intros d Hd. apply in_map_iff in Hd as (g & <- & Hg).
    apply tokenize_no_class_char. rewrite Forall_forall in *. intros c Hc.
    apply in_concat in Hc as (l & Hl & Hc). apply Hnone. apply in_concat.
    exists l. split; [|exact Hc].
    apply (groups_of_members (Z.to_nat (Z.max 1 lines_per_doc)) lines g l);
      [lia | exact Hg | exact Hl]. }
  destruct (completed_runs as_completed lines lines_per_doc batch_docs Hperm)
    as [Hrows _].
  set (completed := as_completed (worker_results lines lines_per_doc batch_docs)) in *.
  assert (Hruns : Forall (fun s => s = []) (map rows_text (map run_rows completed))).
  { rewrite Hempty in Hrows. apply Permutation_sym, Permutation_nil in Hrows.
    rewrite Forall_forall. intros s Hs.
    apply in_map_iff in Hs as (rows & <- & Hrows').
    destruct rows as [|r rest]; [reflexivity|]. exfalso.
    assert (Hin : In r (concat (map run_rows completed))).
    { apply in_concat. exists (r :: rest). split; [exact Hrows' | left; reflexivity]. }
    rewrite Hrows in Hin. exact Hin. }
  rewrite (merge_files_empty _ shard_mb Hruns) in Hfiles.
  injection Hfiles as Hshards Hrows0 Hn.
  exists fs', total. rewrite <- Hrows0, <- Hn in Hbuild. split; [exact Hbuild|].
  destruct groups as [|g [|g' groups]]; try discriminate.
  simpl in Hread. inversion Hread as [|? ? ? ? Hr0 _]; subst.
  cbv [enumerate] in Hshards. simpl in Hshards. injection Hshards as Hg.
  rewrite <- Hg in Hr0. exact Hr0.
Qed.

Lemma text_without_tokens_example :
  (forall l : list (postings_t * Z), Permutation (rev l) l)
  /\ fresh_dir (makedirs no_files (lit "out")) (lit "tmp")
  /\ Forall (fun c => token_char c = false) (concat [lit "... --" ++ [LF]; lit "?!"])
  /\ exists fs' total_docs,
       build_inverted_index (@rev _) plain_summary no_files (lit "tmp")
         [lit "... --" ++ [LF]; lit "?!"] (lit "out") 0 1 1 256
       = Ok (fs', (total_docs, 0, 1))
       /\ read_file fs' (lit "out", shard_name (lit "index") 0) = Ok [].
Proof.
  assert (Hnone : Forall (fun c => token_char c = false)
                    (concat [lit "... --" ++ [LF]; lit "?!"]))
    by (repeat constructor).
  split; [exact rev_is_a_completion_order|]. split; [exact tmp_is_fresh|].
  split; [exact Hnone|].
  apply (text_without_tokens_gives_one_empty_shard (@rev _) plain_summary no_files
           (lit "tmp") [lit "... --" ++ [LF]; lit "?!"] (lit "out") 0 1 1 256);
    [exact rev_is_a_completion_order | exact tmp_is_fresh | exact Hnone].
Defined.

(** ** The numbers of the summary *)

Lemma commas_cases (l : str) :
  (length l <= 3)%nat /\ commas l = l
  \/ exists a b c d r, l = a :: b :: c :: d :: r
       /\ commas l = a :: b :: c :: COMMA :: commas (d :: r).
Proof.
  destruct l as [|a [|b [|c [|d r]]]]; try (left; split; [simpl; lia | reflexivity]).
  right. exists a, b, c, d, r. split; reflexivity.
Qed.

Lemma commas_removed (l : str) :
  Forall (fun c => c <> COMMA) l -> remove_commas (commas l) = l.
Proof.
  remember (length l) as m eqn:Hm. revert l Hm.
  induction m as [m IH] using lt_wf_ind. intros l Hm Hl.
  assert (Hid : remove_commas l = l).
  { unfold remove_commas. clear -Hl. induction Hl as [|c l Hc _ IH]; [reflexivity|].
    simpl. destruct (Z.eqb_spec c COMMA); [contradiction|]. simpl. rewrite IH. reflexivity. }
  destruct (commas_cases l) as [[_ ->]|(a & b & c & d & r & -> & ->)]; [exact Hid|].
  inversion Hl as [|? ? Ha Hl1]; subst. inversion Hl1 as [|? ? Hb Hl2]; subst.
  inversion Hl2 as [|? ? Hc Hl3]; subst.
  unfold remove_commas in *. cbn [filter].
  destruct (Z.eqb_spec a COMMA); [contradiction|].
  destruct (Z.eqb_spec b COMMA); [contradiction|].
  destruct (Z.eqb_spec c COMMA); [contradiction|].
  change (COMMA =? COMMA) with true. cbn [negb].
  rewrite (IH (length (d :: r))); [reflexivity | simpl; lia | reflexivity | exact Hl3].
Qed.

Lemma digits_no_comma (u : Decimal.uint) : Forall (fun c => c <> COMMA) (digits u).
Proof.
  eapply Forall_impl; [|apply digits_are_digits].
  intros c Hc ->. discriminate Hc.
Qed.

Lemma remove_commas_rev (s : str) : remove_commas (rev s) = rev (remove_commas s).
Proof.
  apply filter_rev.
Qed.

Lemma format_thousands_removed (n : Z) :
  remove_commas (format_thousands n) = str_of_int n.
Proof.
  unfold format_thousands, str_of_int.
  assert (H : forall u, remove_commas (rev (commas (rev (digits u)))) = digits u).
  { intros u. rewrite remove_commas_rev, commas_removed, rev_involutive; [reflexivity|].
    apply Forall_rev, digits_no_comma. }
  destruct (Z.to_int n) as [u|u]; [apply H|].
  unfold remove_commas. cbn [filter]. change (45 =? COMMA) with false. cbn [negb].
  f_equal. apply H.
Qed.

Lemma commas_positions (l : str) (i : nat) :
  Forall (fun c => c <> COMMA) l ->
  nth_error (commas l) i = Some COMMA
  <-> (i < length (commas l))%nat /\ (i mod 4 = 3)%nat.
Proof.
  remember (length l) as m eqn:Hm. revert l i Hm.
  induction m as [m IH] using lt_wf_ind. intros l i Hm Hl.
  destruct (commas_cases l) as [[Hshort ->]|(a & b & c & d & r & -> & ->)].
  - split.
    + intros H. exfalso. apply nth_error_In in H. rewrite Forall_forall in Hl.
      apply (Hl COMMA H). reflexivity.
    + intros [Hi Hmod]. exfalso.
      rewrite Nat.mod_small in Hmod by lia. lia.
  - inversion Hl as [|? ? Ha Hl1]; subst. inversion Hl1 as [|? ? Hb Hl2]; subst.
    inversion Hl2 as [|? ? Hc Hl3]; subst.
    destruct i as [|[|[|[|i]]]]; cbn [nth_error length].
    + split; [intros [= E]; contradiction | intros [_ E]; discriminate E].
    + split; [intros [= E]; contradiction | intros [_ E]; discriminate E].
    + split; [intros [= E]; contradiction | intros [_ E]; discriminate E].
    + split; [intros _; split; [lia | reflexivity] | reflexivity].
    + rewrite (IH (length (d :: r))) by (simpl; lia || reflexivity || exact Hl3).
      replace (S (S (S (S i)))) with (i + 1 * 4)%nat by lia.
      rewrite Nat.Div0.mod_add. split; intros [H1 H2]; (split; [lia | exact H2]).
Qed.

(** X17: the numbers of documents and of postings are written into the
    summary with a comma before every group of three digits, counted from the
    right, and nowhere else; with the commas taken out the text reads back as
    the number, a negative one too. *)
Theorem summary_numbers_read_back (n : Z) :
  int_of_str (remove_commas (format_thousands n)) = Ok n
  /\ (0 <= n ->
      forall i,
        nth_error (rev (format_thousands n)) i = Some COMMA
        <-> (i < length (format_thousands n))%nat /\ (i mod 4 = 3)%nat).
Proof.
  split; [rewrite format_thousands_removed; apply int_of_str_of_int|].
  intros Hn i. unfold format_thousands.
  assert (Hpos : exists u, Z.to_int n = Decimal.Pos u).
  { destruct n; simpl; eauto. lia. }
  destruct Hpos as [u ->]. rewrite rev_involutive, length_rev.
  apply commas_positions, Forall_rev, digits_no_comma.
Qed.

Lemma summary_numbers_read_back_example :
  0 <= 1234567
  /\ format_thousands 1234567 = lit "1,234,567"
  /\ int_of_str (remove_commas (format_thousands 1234567)) = Ok 1234567
  /\ forall i,
       nth_error (rev (format_thousands 1234567)) i = Some COMMA
       <-> (i < length (format_thousands 1234567))%nat /\ (i mod 4 = 3)%nat.
Proof.
  split; [lia|]. split; [reflexivity|].
  destruct (summary_numbers_read_back 1234567) as [Hback Hcommas].
  split; [exact Hback | apply Hcommas; lia].
Defined.

Example thousands : map format_thousands [0; 999; 1000; 1234567; -1234]
  = [lit "0"; lit "999"; lit "1,000"; lit "1,234,567"; lit "-1,234"].
Proof. reflexivity. Qed.

Example summary_of_three_lines :
  exists fs' counts,
    build_inverted_index (@rev _) (summary (lit "0.01")) no_files (lit "tmp") three_lines
      (lit "out") 0 1 2 256
    = Ok (fs', counts)
    /\ read_file fs' (summary_path (lit "out"))
       = Ok (([205] ++ lit "ndice invertido en 'out'" ++ [LF])
             ++ (lit "Docs (bloques de 1 l" ++ [237] ++ lit "neas): 3" ++ [LF])
             ++ (lit "Postings                        : 3" ++ [LF])
             ++ (lit "Shards                          : 1" ++ [LF])
             ++ (lit "Tiempo total                    : 0.01s" ++ [LF])).
Proof. eexists. eexists. split; vm_compute; reflexivity. Qed.

(** * Properties of the word counter *)

(** ** Blocks *)

Lemma read_chars_firstn (n : Z) (s : str) :
  0 <= n -> read_chars n s = (firstn (Z.to_nat n) s, skipn (Z.to_nat n) s).
Proof.
  revert n. induction s as [|c r IH]; intros n Hn; simpl.
  - rewrite firstn_nil, skipn_nil. reflexivity.
  - destruct (Z.eqb_spec n 0) as [->|Hne]; [reflexivity|].
    rewrite IH by lia. replace (Z.to_nat n) with (S (Z.to_nat (n - 1))) by lia.
    reflexivity.
Qed.

Lemma read_blocks_chunks (fuel : nat) (n : Z) (s : str) :
  1 <= n -> read_blocks fuel n s = chunk_by fuel (Z.to_nat n) s.
Proof.
  intros Hn. revert s. induction fuel as [|fuel IH]; intros s; [reflexivity|].
  cbn [read_blocks chunk_by]. rewrite read_chars_firstn by lia.
  destruct s as [|c r]; [rewrite firstn_nil; reflexivity|].
  replace (Z.to_nat n) with (S (Z.to_nat (n - 1))) by lia.
  cbn [firstn]. f_equal. replace (S (Z.to_nat (n - 1))) with (Z.to_nat n) by lia.
  apply IH.
Qed.

Lemma blocks_groups (n : Z) (s : str) :
  1 <= n -> blocks n s = groups_of (Z.to_nat n) s.
Proof.
  intros Hn. unfold blocks, groups_of. rewrite read_blocks_chunks by exact Hn.
  apply chunk_by_fuel; lia.
Qed.

Lemma blocks_concat (n : Z) (s : str) : 1 <= n -> concat (blocks n s) = s.
Proof.
  intros Hn. rewrite blocks_groups by exact Hn.
  apply (groups_of_shape (Z.to_nat n) s). lia.
Qed.

(** X18: the blocks the reader hands to the workers, put together in the
    order they were read, are the text; no block is empty or longer than the
    block size, and every block but the last has exactly the block size. *)
Theorem blocks_cut_the_text (n : Z) (s : str) :
  1 <= n ->
  concat (blocks n s) = s
  /\ Forall (fun b => 1 <= len b <= n) (blocks n s)
  /\ forall pre b post, blocks n s = pre ++ b :: post -> post <> [] -> len b = n.
Proof.
  intros Hn. rewrite blocks_groups by exact Hn.
  destruct (groups_of_shape (Z.to_nat n) s) as (Hcat & Hall & Hfull); [lia|].
  split; [exact Hcat|]. split.
  - eapply Forall_impl; [|exact Hall]. intros b Hb. unfold len. simpl in Hb. lia.
  - intros pre b post E Hpost. unfold len. rewrite (Hfull pre b post E Hpost). lia.
Qed.

Lemma blocks_cut_the_text_example :
  1 <= 2
  /\ blocks 2 (lit "abcde") = [lit "ab"; lit "cd"; lit "e"]
  /\ concat (blocks 2 (lit "abcde")) = lit "abcde"
  /\ Forall (fun b => 1 <= len b <= 2) (blocks 2 (lit "abcde"))
  /\ forall pre b post,
       blocks 2 (lit "abcde") = pre ++ b :: post -> post <> [] -> len b = 2.
Proof.
  split; [lia|]. split; [reflexivity|].
  apply (blocks_cut_the_text 2 (lit "abcde")). lia.
Defined.

(** ** Counters *)

Lemma count_of_absent (c : list (str * Z)) (w : str) :
  ~ In w (map fst c) -> count_of c w = 0.
Proof.
  intros H. unfold count_of. apply (dict_get_keys str_eq_dec) in H. rewrite H.
  reflexivity.
Qed.

(** [total.update(c)]: the counts add up, the keys are joined. *)
Lemma counter_update_spec (c total : list (str * Z)) :
  NoDup (map fst total) ->
  NoDup (map fst c) ->
  NoDup (map fst (counter_update total c))
  /\ (forall w, In w (map fst (counter_update total c))
                <-> In w (map fst total) \/ In w (map fst c))
  /\ (forall w, count_of (counter_update total c) w = count_of total w + count_of c w).
Proof.
  unfold counter_update. revert total.
  induction c as [|[x n] c IH]; intros total Hnd Hc; cbn [fold_left].
  - split; [exact Hnd|]. split; intros w; simpl; [tauto | unfold count_of; simpl; lia].
  - simpl in Hc. inversion Hc as [|? ? Hx Hc']; subst.
    destruct (IH (counter_add str_eq_dec total x n)) as (Hnd' & Hkeys & Hcount);
      [apply dict_update_NoDup, Hnd | exact Hc' |].
    split; [exact Hnd'|]. split.
    + intros w. rewrite Hkeys. unfold counter_add. rewrite dict_update_keys.
      simpl. intuition congruence.
    + intros w. rewrite Hcount. unfold count_of at 1 3 4, counter_add.
      rewrite dict_get_update. cbn [dict_get].
      destruct (str_eq_dec w x) as [->|Hne].
      * rewrite (count_of_absent c x Hx). unfold count_of.
        destruct (dict_get str_eq_dec total x); lia.
      * fold (count_of c w). unfold count_of.
        destruct (dict_get str_eq_dec total w); lia.
Qed.

Lemma Counter_count (toks : list str) (t : str) :
  count_of (Counter toks) t = Z.of_nat (count_occ str_eq_dec toks t).
Proof.
  destruct (counter_fold toks [] (NoDup_nil _)) as (_ & _ & Hcount).
  apply Hcount.
Qed.

Lemma Counter_keys (toks : list str) (t : str) :
  In t (map fst (Counter toks)) <-> In t toks.
Proof.
  destruct (counter_fold toks [] (NoDup_nil _)) as (_ & Hkeys & _).
  rewrite (Hkeys t). simpl. tauto.
Qed.

Lemma counters_total (cs : list (list (str * Z))) (t0 : list (str * Z)) :
  NoDup (map fst t0) ->
  Forall (fun c => NoDup (map fst c)) cs ->
  NoDup (map fst (fold_left counter_update cs t0))
  /\ (forall w, In w (map fst (fold_left counter_update cs t0))
                <-> In w (map fst t0) \/ exists c, In c cs /\ In w (map fst c))
  /\ (forall w, count_of (fold_left counter_update cs t0) w
                = count_of t0 w + sum (map (fun c => count_of c w) cs)).
Proof.
  intros Ht0 Hcs. revert t0 Ht0.
  induction Hcs as [|c cs Hc _ IH]; intros t0 Ht0; cbn [fold_left].
  - split; [exact Ht0|]. split; intros w; simpl; [|lia].
    split; [tauto|]. intros [H|(c & [] & _)]. exact H.
  - destruct (counter_update_spec c t0 Ht0 Hc) as (Hnd1 & Hkeys1 & Hcount1).
    destruct (IH _ Hnd1) as (Hnd & Hkeys & Hcount).
    split; [exact Hnd|]. split; intros w.
    + rewrite Hkeys, Hkeys1. split.
      * intros [[H|H]|(c' & Hc' & H)]; [tauto | right; exists c; simpl; tauto|].
        right. exists c'. simpl. tauto.
      * intros [H|(c' & [<-|Hc'] & H)]; [tauto | tauto |]. right. eauto.
    + rewrite Hcount, Hcount1. cbn [map sum fold_right].
      fold (sum (map (fun c0 => count_of c0 w) cs)). lia.
Qed.

Lemma count_occ_flat_map (f : str -> list str) (bs : list str) (w : str) :
  Z.of_nat (count_occ str_eq_dec (flat_map f bs) w)
  = sum (map (fun b => Z.of_nat (count_occ str_eq_dec (f b) w)) bs).
Proof.
  induction bs as [|b bs IH]; [reflexivity|].
  cbn [flat_map map sum fold_right]. rewrite count_occ_app, Nat2Z.inj_add, IH.
  reflexivity.
Qed.

(** The total of the counters of the blocks, whatever the order in which
    they are added: the distinct words of the blocks, each with the number of
    its occurrences. *)
Lemma total_of_blocks (as_completed : list (list (str * Z)) -> list (list (str * Z)))
  (bs : list str) :
  (forall l, Permutation (as_completed l) l) ->
  let all := flat_map str_split bs in
  let total := fold_left counter_update (as_completed (map map_count bs)) [] in
  NoDup (map fst total)
  /\ Permutation total
       (map (fun w => (w, Z.of_nat (count_occ str_eq_dec all w))) (nodup str_eq_dec all)).
Proof.
  intros Hperm all total.
  assert (Hcs : Forall (fun c => NoDup (map fst c)) (as_completed (map map_count bs))).
  { rewrite Forall_forall. intros c Hc. apply (Permutation_in _ (Hperm _)) in Hc.
    apply in_map_iff in Hc as (b & <- & _). apply Counter_NoDup. }
  destruct (counters_total _ [] (NoDup_nil _) Hcs) as (Hnd & Hkeys & Hcount).
  fold total in Hnd, Hkeys, Hcount.
  assert (Hk : forall w, In w (map fst total) <-> In w all).
  { intros w. rewrite Hkeys. unfold all. rewrite in_flat_map. split.
    - intros [[]|(c & Hc & Hw)]. apply (Permutation_in _ (Hperm _)) in Hc.
      apply in_map_iff in Hc as (b & <- & Hb). unfold map_count in Hw.
      apply (proj1 (Counter_keys _ _)) in Hw. exists b. split; assumption.
    - intros (b & Hb & Hw). right. exists (map_count b). split.
      + apply (Permutation_in _ (Permutation_sym (Hperm _))), in_map, Hb.
      + apply Counter_keys, Hw. }
  assert (Hc : forall w, count_of total w = Z.of_nat (count_occ str_eq_dec all w)).
  { intros w. rewrite Hcount. unfold all. rewrite count_occ_flat_map.
    change (count_of [] w) with 0. rewrite Z.add_0_l.
    rewrite (sum_perm _ _ (Permutation_map _ (Hperm _))), map_map.
    f_equal. apply map_ext. intros b. apply Counter_count. }
  split; [exact Hnd|].
  apply NoDup_Permutation.
  - apply (NoDup_map_inv fst), Hnd.
  - apply (NoDup_map_inv fst). rewrite map_map. simpl. rewrite map_id.
    apply NoDup_nodup.
  - intros [w v]. rewrite (dict_get_In str_eq_dec _ _ _ Hnd), in_map_iff.
    specialize (Hk w). specialize (Hc w). unfold count_of in Hc. split.
    + intros Hget. rewrite Hget in Hc. exists w. split; [congruence|].
      apply nodup_In, Hk.
      destruct (in_dec str_eq_dec w (map fst total)) as [Hin|Hn]; [exact Hin|].
      apply (dict_get_keys str_eq_dec) in Hn. congruence.
    + intros (w' & [= -> <-] & Hin). apply nodup_In, Hk in Hin.
      destruct (dict_get str_eq_dec total w) as [v|] eqn:Hget; [congruence|].
      apply (dict_get_keys str_eq_dec) in Hget. contradiction.
Qed.

Lemma sum_counts_perm (all : list str) (total : list (str * Z)) :
  Permutation total
    (map (fun w => (w, Z.of_nat (count_occ str_eq_dec all w))) (nodup str_eq_dec all)) ->
  sum (map snd total) = len all /\ len total = len (nodup str_eq_dec all).
Proof.
  intros Hp. split.
  - rewrite (sum_perm _ _ (Permutation_map snd Hp)), map_map. cbn [snd].
    apply sum_counts_nodup.
  - unfold len. rewrite (Permutation_length Hp), length_map. reflexivity.
Qed.

(** ** The report *)

(** X19: the word counter on a file that can be read, with the directory
    of the report at hand.  With a number of workers that is not positive the
    pool cannot be made: [ValueError] is raised and nothing is written.
    Otherwise the word counter returns, whatever the order in which the workers
    finish.  It returns the number of words of the blocks, each block split on
    its own, and the number of distinct words among them; the report holds the
    header for these two numbers and then one line per distinct word, with the
    number of times the word occurs in the blocks; no other file changes. *)
Theorem word_count_reports_every_word_once
  (as_completed : list (list (str * Z)) -> list (list (str * Z)))
  (report_header : Z -> Z -> str)
  (fs : filesystem) (filename : path) (num_workers : option Z) (out_path : path)
  (text : str) :
  (forall l, Permutation (as_completed l) l) ->
  read_file fs filename = Ok text ->
  In (fst out_path) (dirs fs) ->
  (forall w, num_workers = Some w -> w <= 0 ->
     wordcount_main as_completed report_header fs filename num_workers out_path
     = Raise ValueError)
  /\ ((forall w, num_workers = Some w -> 0 < w) ->
      exists fs' total,
        wordcount_main as_completed report_header fs filename num_workers out_path
        = Ok (fs', (len (block_words block_size (universal_newlines text)),
                    len (nodup str_eq_dec
                           (block_words block_size (universal_newlines text)))))
        /\ read_file fs' out_path
           = Ok (report_header
                   (len (block_words block_size (universal_newlines text)))
                   (len (nodup str_eq_dec
                           (block_words block_size (universal_newlines text))))
                 ++ concat (report_lines total))
        /\ Permutation total
             (map (fun w => (w, Z.of_nat
                                  (count_occ str_eq_dec
                                     (block_words block_size (universal_newlines text)) w)))
                (nodup str_eq_dec (block_words block_size (universal_newlines text))))
        /\ forall q, q <> out_path -> read_file fs' q = read_file fs q).
Proof.
  intros Hperm Hread Hdir. split.
  - intros w -> Hw. unfold wordcount_main, open_pool. rewrite Hread. cbn [bind].
    destruct (Z.leb_spec w 0); [reflexivity | lia].
  - intros Hw.
    assert (Hpool : open_pool num_workers = Ok tt).
    { unfold open_pool. destruct num_workers as [w|]; [|reflexivity].
      specialize (Hw w eq_refl). destruct (Z.leb_spec w 0); [lia | reflexivity]. }
    set (all := block_words block_size (universal_newlines text)).
    destruct (total_of_blocks as_completed (blocks block_size (universal_newlines text))
                Hperm) as [_ Hp].
    fold (block_words block_size (universal_newlines text)) in Hp. fold all in Hp.
    set (total := fold_left counter_update
                    (as_completed
                       (map map_count (blocks block_size (universal_newlines text))))
                    []) in *.
    destruct (sum_counts_perm all total Hp) as [Hsum Hlen].
    destruct (write_file_ok fs out_path
                (report_header (len all) (len (nodup str_eq_dec all))
                 ++ concat (report_lines total)) Hdir) as [fs' Hwrite].
    exists fs', total. split; [|split; [|split; [exact Hp|]]].
    + unfold wordcount_main. rewrite Hread. cbn [bind]. rewrite Hpool. cbn [bind].
      unfold count_words. fold total. rewrite Hsum, Hlen, Hwrite. reflexivity.
    + eapply read_write_same, Hwrite.
    + intros q Hq. eapply read_write_other; eauto.
Qed.

Lemma word_count_example :
  (forall l : list (list (str * Z)), Permutation (rev l) l)
  /\ read_file one_text (lit "datos", lit "texto.txt") = Ok (lit "la casa la boda")
  /\ In (fst (lit "datos", lit "salida.txt")) (dirs one_text)
  /\ wordcount_main (@rev _) plain_header one_text (lit "datos", lit "texto.txt")
       (Some 0) (lit "datos", lit "salida.txt")
     = Raise ValueError
  /\ exists fs' total,
       wordcount_main (@rev _) plain_header one_text (lit "datos", lit "texto.txt")
         (Some 2) (lit "datos", lit "salida.txt")
       = Ok (fs', (len (block_words block_size (universal_newlines (lit "la casa la boda"))),
                   len (nodup str_eq_dec
                          (block_words block_size
                             (universal_newlines (lit "la casa la boda"))))))
       /\ read_file fs' (lit "datos", lit "salida.txt")
          = Ok (plain_header
                  (len (block_words block_size (universal_newlines (lit "la casa la boda"))))
                  (len (nodup str_eq_dec
                          (block_words block_size
                             (universal_newlines (lit "la casa la boda")))))
                ++ concat (report_lines total))
       /\ Permutation total
            (map (fun w => (w, Z.of_nat
                                 (count_occ str_eq_dec
                                    (block_words block_size
                                       (universal_newlines (lit "la casa la boda"))) w)))
               (nodup str_eq_dec
                  (block_words block_size (universal_newlines (lit "la casa la boda")))))
       /\ forall q, q <> (lit "datos", lit "salida.txt") ->
                    read_file fs' q = read_file one_text q.
Proof.
  assert (Hperm : forall l : list (list (str * Z)), Permutation (rev l) l)
    by (intros l; apply Permutation_sym, Permutation_rev).
  assert (Hdir : In (fst (lit "datos", lit "salida.txt")) (dirs one_text))
    by (left; reflexivity).
  split; [exact Hperm|]. split; [reflexivity|]. split; [exact Hdir|]. split.
  - apply (proj1 (word_count_reports_every_word_once (@rev _) plain_header one_text
                    (lit "datos", lit "texto.txt") (Some 0) (lit "datos", lit "salida.txt")
                    (lit "la casa la boda") Hperm eq_refl Hdir) 0 eq_refl).
    lia.
  - apply (proj2 (word_count_reports_every_word_once (@rev _) plain_header one_text
                    (lit "datos", lit "texto.txt") (Some 2) (lit "datos", lit "salida.txt")
                    (lit "la casa la boda") Hperm eq_refl Hdir)).
    intros w [= <-]. lia.
Defined.

Example word_count_of_one_text :
  wordcount_main (@rev _) plain_header one_text (lit "datos", lit "texto.txt") (Some 2)
    (lit "datos", lit "salida.txt")
  = Ok ({| dirs := [lit "datos"];
           files := [((lit "datos", lit "texto.txt"), lit "la casa la boda");
                     ((lit "datos", lit "salida.txt"),
                      lit "# Total de palabras: 4" ++ [LF]
                      ++ lit "# Palabras distintas: 3" ++ [LF]
                      ++ lit "la" ++ [TAB] ++ lit "2" ++ [LF]
                      ++ lit "casa" ++ [TAB] ++ lit "1" ++ [LF]
                      ++ lit "boda" ++ [TAB] ++ lit "1" ++ [LF])] |},
        (4, 3)).
Proof. vm_compute. reflexivity. Qed.

(** The file is opened before the pool is made: a file that cannot be read
    raises [FileNotFoundError], whatever the number of workers. *)
Example word_count_without_input :
  wordcount_main (@rev _) plain_header one_text (lit "datos", lit "otro.txt") (Some 0)
    (lit "datos", lit "salida.txt")
  = Raise FileNotFoundError.
Proof. reflexivity. Qed.

Lemma counter_update_fresh (c total : list (str * Z)) :
  NoDup (map fst c) ->
  (forall w, In w (map fst c) -> ~ In w (map fst total)) ->
  counter_update total c = total ++ c.
Proof.
  unfold counter_update. revert total.
  induction c as [|[x n] c IH]; intros total Hc Hfresh; cbn [fold_left].
  - rewrite app_nil_r. reflexivity.
  - simpl in Hc. inversion Hc as [|? ? Hx Hc']; subst.
    unfold counter_add at 2. rewrite dict_update_fresh by (apply Hfresh; left; reflexivity).
    rewrite IH; [rewrite <- app_assoc; reflexivity | exact Hc' |].
    intros w Hin. rewrite map_app, in_app_iff. simpl. intros [H|[<-|[]]].
    + apply (Hfresh w); [right; exact Hin | exact H].
    + contradiction.
Qed.

(** A word being read takes what is read in front of it. *)
(** X20: a text that fits into one block is counted as a whole: the counter
    is that of the words of the text, in the order of their first occurrence,
    and the two numbers are the number of its words and of its distinct
    words. *)
Theorem text_of_one_block_is_counted_exactly
  (as_completed : list (list (str * Z)) -> list (list (str * Z)))
  (n : Z) (text : str) :
  (forall l, Permutation (as_completed l) l) ->
  1 <= n ->
  len text <= n ->
  count_words as_completed n text
  = (Counter (str_split text), len (str_split text),
     len (nodup str_eq_dec (str_split text))).
Proof.
  intros Hperm Hn Hlen.
  assert (Hc : forall toks,
            sum (map snd (Counter toks)) = len toks
            /\ len (Counter toks) = len (nodup str_eq_dec toks)).
  { intros toks. apply sum_counts_perm. apply NoDup_Permutation.
    - apply (NoDup_map_inv fst), Counter_NoDup.
    - apply (NoDup_map_inv fst). rewrite map_map. simpl. rewrite map_id.
      apply NoDup_nodup.
    - intros [t v]. rewrite Counter_spec, in_map_iff. split.
      + intros [Hin ->]. exists t. split; [reflexivity|]. apply nodup_In, Hin.
      + intros (t' & [= -> ->] & Hin). apply nodup_In in Hin. auto. }
  unfold count_words. rewrite blocks_groups by exact Hn.
  destruct text as [|c text].
  - cbn [groups_of chunk_by length map].
    assert (E : as_completed [] = []) by (apply Permutation_nil, Permutation_sym, Hperm).
    rewrite E. reflexivity.
  - rewrite groups_of_short by (try discriminate; unfold len in Hlen; lia).
    cbn [map].
    assert (E : as_completed [map_count (c :: text)] = [map_count (c :: text)])
      by (apply Permutation_length_1_inv, Permutation_sym, Hperm).
    rewrite E. cbn [fold_left].
    rewrite counter_update_fresh; [|apply Counter_NoDup | intros w _ []].
    cbn [app]. unfold map_count. destruct (Hc (str_split (c :: text))) as [-> ->].
    reflexivity.
Qed.

Lemma text_of_one_block_example :
  (forall l : list (list (str * Z)), Permutation (rev l) l)
  /\ 1 <= 32
  /\ len (lit "la casa la boda") <= 32
  /\ count_words (@rev _) 32 (lit "la casa la boda")
     = (Counter (str_split (lit "la casa la boda")),
        len (str_split (lit "la casa la boda")),
        len (nodup str_eq_dec (str_split (lit "la casa la boda")))).
Proof.
  split; [intros l; apply Permutation_sym, Permutation_rev|].
  split; [lia|]. split; [vm_compute; discriminate|].
  apply (text_of_one_block_is_counted_exactly (@rev _) 32 (lit "la casa la boda"));
    [intros l; apply Permutation_sym, Permutation_rev | lia | vm_compute; discriminate].
Defined.

(** ** Words at the end of a block *)

Lemma split_words_glue (b cur : str) :
  cur <> [] ->
  exists w ws,
    split_words cur b = w :: ws
    /\ forall t, split_words (t ++ cur) b = (t ++ w) :: ws.
Proof.
  revert cur. induction b as [|c b IH]; intros cur Hcur; simpl.
  - exists cur, []. split; [destruct cur; [congruence | reflexivity]|].
    intros t. destruct (t ++ cur) eqn:E; [|reflexivity].
    apply app_eq_nil in E as [_ ->]. congruence.
  - destruct (is_space c).
    + exists cur, (split_words [] b). split; [destruct cur; [congruence | reflexivity]|].
      intros t. destruct (t ++ cur) eqn:E; [|reflexivity].
      apply app_eq_nil in E as [_ ->]. congruence.
    + destruct (IH (cur ++ [c])) as (w & ws & Hw & Hglue);
        [destruct cur; discriminate|].
      exists w, ws. split; [exact Hw|]. intros t. rewrite <- app_assoc. apply Hglue.
Qed.

(** What is read of [a] is words that are done and a word that is not. *)
Lemma split_words_app (a b cur : str) :
  exists done last,
    split_words cur a = done ++ flush last
    /\ split_words cur (a ++ b) = done ++ split_words last b
    /\ (last = [] <-> (a = [] /\ cur = []) \/ exists a' c, a = a' ++ [c] /\ is_space c = true).
Proof.
  revert cur. induction a as [|c a IH]; intros cur.
  - exists [], cur. split; [reflexivity|]. split; [reflexivity|]. split.
    + intros ->. left. auto.
    + intros [[_ ->]|(a' & c & E & _)]; [reflexivity|]. destruct a'; discriminate.
  - cbn [split_words app]. destruct (is_space c) eqn:Hc.
    + destruct (IH []) as (done & last & H1 & H2 & H3).
      exists (flush cur ++ done), last. rewrite H1, H2, <- !app_assoc.
      split; [reflexivity|]. split; [reflexivity|]. rewrite H3. split.
      * intros [[-> _]|(a' & c' & -> & Hc')]; right.
        -- exists [], c. auto.
        -- exists (c :: a'), c'. auto.
      * intros [[E _]|(a' & c' & E & Hc')]; [discriminate|].
        destruct a' as [|x a']; simpl in E; injection E as -> E.
        -- left. auto.
        -- right. exists a', c'. auto.
    + destruct (IH (cur ++ [c])) as (done & last & H1 & H2 & H3).
      exists done, last. split; [exact H1|]. split; [exact H2|]. rewrite H3. split.
      * intros [[_ E]|(a' & c' & -> & Hc')]; [destruct cur; discriminate|].
        right. exists (c :: a'), c'. auto.
      * intros [[E _]|(a' & c' & E & Hc')]; [discriminate|].
        destruct a' as [|x a']; simpl in E; injection E as -> E.
        -- congruence.
        -- right. exists a', c'. auto.
Qed.

(** X21: what the end of a block does to the words.  When the block ends
    with white space or the next one starts with it, the words of the two
    blocks are the words of the text.  When a block ends inside a word, the
    two blocks have one word more than the text: the last word of the first
    block and the first word of the second are the two pieces of one word of
    the text, and the counter holds the pieces instead of the word. *)
Theorem block_boundary_cuts_one_word_in_two (a b : str) (x y : char) :
  (is_space x = true \/ is_space y = true ->
   str_split ((a ++ [x]) ++ y :: b) = str_split (a ++ [x]) ++ str_split (y :: b))
  /\ (is_space x = false -> is_space y = false ->
      exists wa u v wb,
        str_split (a ++ [x]) = wa ++ [u]
        /\ str_split (y :: b) = v :: wb
        /\ str_split ((a ++ [x]) ++ y :: b) = wa ++ (u ++ v) :: wb).
Proof.
  unfold str_split.
  destruct (split_words_app (a ++ [x]) (y :: b) []) as (done & last & H1 & H2 & H3).
  assert (Hlast : last = [] <-> is_space x = true).
  { rewrite H3. split.
    - intros [[E _]|(a' & c & E & Hc)]; [destruct a; discriminate|].
      apply app_inj_tail in E as [_ ->]. exact Hc.
    - intros Hx. right. exists a, x. auto. }
  split.
  - intros Hxy. rewrite H1, H2, <- app_assoc. f_equal.
    destruct last as [|l0 last]; [reflexivity|].
    destruct Hxy as [Hx|Hy]; [apply Hlast in Hx; discriminate|].
    cbn [split_words]. rewrite Hy. reflexivity.
  - intros Hx Hy. destruct last as [|l0 last].
    + rewrite (proj1 Hlast eq_refl) in Hx. discriminate.
    + destruct (split_words_glue b [y]) as (v & wb & Hv & Hglue); [discriminate|].
      exists done, (l0 :: last), v, wb. split; [exact H1|].
      split; [cbn [split_words]; rewrite Hy; exact Hv|].
      rewrite H2. f_equal. cbn [split_words]. rewrite Hy. apply Hglue.
Qed.

Lemma block_boundary_example :
  str_split ((lit "la cas" ++ [97]) ++ 32 :: lit "roja")
  = str_split (lit "la cas" ++ [97]) ++ str_split (32 :: lit "roja")
  /\ exists wa u v wb,
       str_split (lit "la c" ++ [97]) = wa ++ [u]
       /\ str_split (115 :: lit "a roja") = v :: wb
       /\ str_split ((lit "la c" ++ [97]) ++ 115 :: lit "a roja") = wa ++ (u ++ v) :: wb.
Proof.
  split.
  - apply (proj1 (block_boundary_cuts_one_word_in_two (lit "la cas") (lit "roja") 97 32)).
    right. reflexivity.
  - apply (proj2 (block_boundary_cuts_one_word_in_two (lit "la c") (lit "a roja") 97 115));
      reflexivity.
Defined.

Lemma split_words_pending (last b : str) :
  len (split_words last b) <= len (flush last) + len (split_words [] b)
  /\ len (flush last) + len (split_words [] b) <= len (split_words last b) + 1.
Proof.
  destruct last as [|l0 last].
  { change (flush []) with (@nil str). change (len (@nil str)) with 0. lia. }
  destruct b as [|y b]; [unfold len; simpl; lia|].
  cbn [split_words flush]. destruct (is_space y).
  - cbn [flush app]. rewrite !len_cons. unfold len; simpl; lia.
  - destruct (split_words_glue b [y]) as (v & wb & Hv & Hglue); [discriminate|].
    cbn [app]. rewrite Hv. specialize (Hglue (l0 :: last)). cbn [app] in Hglue.
    rewrite Hglue. rewrite !len_cons. unfold len. cbn [length]. lia.
Qed.

Lemma str_split_app_count (a b : str) :
  len (str_split (a ++ b)) <= len (str_split a) + len (str_split b)
  /\ len (str_split a) + len (str_split b) <= len (str_split (a ++ b)) + 1.
Proof.
  unfold str_split.
  destruct (split_words_app a b []) as (done & last & H1 & H2 & _).
  rewrite H1, H2, !len_app. pose proof (split_words_pending last b). lia.
Qed.

Lemma words_of_blocks (bs : list str) :
  len (str_split (concat bs)) <= len (flat_map str_split bs)
  /\ len (flat_map str_split bs) <= len (str_split (concat bs)) + Z.max 0 (len bs - 1).
Proof.
  induction bs as [|b bs IH]; [unfold len; simpl; lia|].
  cbn [concat flat_map]. rewrite len_app, len_cons.
  pose proof (str_split_app_count b (concat bs)) as H.
  destruct bs as [|b2 bs].
  - simpl in *. rewrite app_nil_r in *. unfold len in *. simpl in *. lia.
  - rewrite len_cons in *. pose proof (len_nonneg bs). lia.
Qed.

(** X22: whatever the order in which the workers finish, the number of
    words the counter reports is at least the number of words of the text,
    and exceeds it by less than the number of blocks: by one at most for
    every block boundary. *)
Theorem words_are_overcounted_by_less_than_the_number_of_blocks
  (as_completed : list (list (str * Z)) -> list (list (str * Z)))
  (n : Z) (text : str) :
  (forall l, Permutation (as_completed l) l) ->
  1 <= n ->
  len (str_split text) <= snd (fst (count_words as_completed n text))
  /\ snd (fst (count_words as_completed n text))
     <= len (str_split text) + Z.max 0 (len (blocks n text) - 1).
Proof.
  intros Hperm Hn. unfold count_words. cbn [fst snd].
  destruct (total_of_blocks as_completed (blocks n text) Hperm) as [_ Hp].
  destruct (sum_counts_perm _ _ Hp) as [-> _].
  pose proof (blocks_concat n text Hn) as Hcat.
  pose proof (words_of_blocks (blocks n text)) as H. rewrite Hcat in H. exact H.
Qed.

Lemma words_are_overcounted_example :
  (forall l : list (list (str * Z)), Permutation (rev l) l)
  /\ 1 <= 4
  /\ len (str_split (lit "la casa la boda")) = 4
  /\ snd (fst (count_words (@rev _) 4 (lit "la casa la boda"))) = 6
  /\ len (str_split (lit "la casa la boda"))
     <= snd (fst (count_words (@rev _) 4 (lit "la casa la boda")))
  /\ snd (fst (count_words (@rev _) 4 (lit "la casa la boda")))
     <= len (str_split (lit "la casa la boda"))
        + Z.max 0 (len (blocks 4 (lit "la casa la boda")) - 1).
Proof.
  split; [intros l; apply Permutation_sym, Permutation_rev|].
  split; [lia|]. split; [reflexivity|]. split; [reflexivity|].
  apply (words_are_overcounted_by_less_than_the_number_of_blocks (@rev _) 4
           (lit "la casa la boda"));
    [intros l; apply Permutation_sym, Permutation_rev | lia].
Defined.

(** * Properties of the generator *)

(** ** Quotas *)

Lemma sum_quotas_aux (base resto : Z) (n : nat) :
  0 <= resto ->
  sum (map (fun i => base + (if i <? resto then 1 else 0)) (map Z.of_nat (seq 0 n)))
  = base * Z.of_nat n + Z.min resto (Z.of_nat n).
Proof.
  intros Hr. induction n as [|n IH]; [simpl; lia|].
  rewrite seq_S, !map_app, sum_app, IH. cbn [map sum fold_right plus].
  destruct (Z.ltb_spec (Z.of_nat n) resto); lia.
Qed.

Lemma quotas_sum (total_bytes procs : Z) :
  1 <= procs -> sum (quotas total_bytes procs) = total_bytes.
Proof.
  intros Hp. unfold quotas, range.
  pose proof (Z.mod_pos_bound total_bytes procs ltac:(lia)) as Hm.
  rewrite sum_quotas_aux by lia. rewrite Z2Nat.id by lia.
  rewrite Z.min_l by lia. pose proof (Z.div_mod total_bytes procs ltac:(lia)). lia.
Qed.

(** X23: with one process at least, the quotas of the processes add up to
    the bytes asked for, there is one quota per process, any two quotas
    differ by one byte at most, and the larger quotas come first. *)
Theorem quotas_share_the_bytes (total_bytes procs : Z) :
  1 <= procs ->
  sum (quotas total_bytes procs) = total_bytes
  /\ len (quotas total_bytes procs) = procs
  /\ Forall (fun q => total_bytes / procs <= q <= total_bytes / procs + 1)
       (quotas total_bytes procs)
  /\ Sorted Z.ge (quotas total_bytes procs).
Proof.
  intros Hp. split; [apply quotas_sum, Hp|]. unfold quotas, range.
  pose proof (Z.mod_pos_bound total_bytes procs ltac:(lia)) as Hm.
  split; [|split].
  - unfold len. rewrite !length_map, length_seq. lia.
  - rewrite Forall_forall. intros q Hq. apply in_map_iff in Hq as (i & <- & _).
    destruct (i <? total_bytes mod procs); lia.
  - generalize 0%nat. induction (Z.to_nat procs) as [|n IH]; intros s; [constructor|].
    cbn [seq map]. constructor; [apply IH|].
    destruct n; cbn [seq map]; constructor.
    destruct (Z.ltb_spec (Z.of_nat s) (total_bytes mod procs));
      destruct (Z.ltb_spec (Z.of_nat (S s)) (total_bytes mod procs)); lia.
Qed.

Lemma quotas_share_the_bytes_example :
  1 <= 3
  /\ quotas 10 3 = [4; 3; 3]
  /\ sum (quotas 10 3) = 10
  /\ len (quotas 10 3) = 3
  /\ Forall (fun q => 10 / 3 <= q <= 10 / 3 + 1) (quotas 10 3)
  /\ Sorted Z.ge (quotas 10 3).
Proof.
  split; [lia|]. split; [reflexivity|]. apply (quotas_share_the_bytes 10 3). lia.
Defined.

(** ** Blocks of texts *)

Lemma fake_texts_none (fake : nat -> bytes) (k : nat) : fake_texts fake k k = [].
Proof. unfold fake_texts. rewrite Nat.sub_diag. reflexivity. Qed.

Lemma fake_texts_snoc (fake : nat -> bytes) (k k' : nat) :
  (k <= k')%nat ->
  fake_texts fake k (S k') = fake_texts fake k k' ++ [fake k' ++ [LF]].
Proof.
  intros H. unfold fake_texts. replace (S k' - k)%nat with (S (k' - k)) by lia.
  rewrite seq_S, map_app. simpl. repeat f_equal. lia.
Qed.

Lemma fake_texts_app (fake : nat -> bytes) (k k' k'' : nat) :
  (k <= k')%nat -> (k' <= k'')%nat ->
  fake_texts fake k k'' = fake_texts fake k k' ++ fake_texts fake k' k''.
Proof.
  intros H1 H2. unfold fake_texts.
  replace (k'' - k)%nat with ((k' - k) + (k'' - k'))%nat by lia.
  rewrite seq_app, map_app. repeat f_equal. lia.
Qed.

Lemma len_concat_snoc (out : list bytes) (s : bytes) :
  len (concat (out ++ [s])) = len (concat out) + len s.
Proof. rewrite concat_app, len_app. simpl. rewrite app_nil_r. reflexivity. Qed.

Lemma gen_block_loop_spec (fake : nat -> bytes) (approx_bytes : Z) (k0 k : nat)
  (pre acc : list bytes) (total : Z) :
  (k0 <= k)%nat ->
  acc = pre ++ fake_texts fake k0 k ->
  total = len (concat acc) ->
  (k = k0 \/ total - len (fake (k - 1)%nat ++ [LF]) < approx_bytes) ->
  exists k',
    gen_block_loop fake approx_bytes k acc total = (pre ++ fake_texts fake k0 k', k')
    /\ (k <= k')%nat
    /\ approx_bytes <= len (concat (pre ++ fake_texts fake k0 k'))
    /\ (k' = k0
        \/ len (concat (pre ++ fake_texts fake k0 k'))
           - len (fake (k' - 1)%nat ++ [LF]) < approx_bytes).
Proof.
  funelim (gen_block_loop fake approx_bytes k acc total); intros Hk Hacc Htotal Hmin.
  - destruct (H k0 pre) as (k' & Hrun & Hle & Hsize & Hlast).
    + lia.
    + rewrite fake_texts_snoc by exact Hk. rewrite Hacc, <- app_assoc. reflexivity.
    + rewrite len_concat_snoc, Htotal. reflexivity.
    + right. replace (S k - 1)%nat with k by lia. lia.
    + exists k'. split; [exact Hrun|]. split; [lia|]. split; assumption.
  - exists k. rewrite <- Hacc. split; [reflexivity|]. split; [lia|].
    split; [lia|]. rewrite <- Htotal. exact Hmin.
Qed.

Lemma gen_block_spec (fake : nat -> bytes) (approx_bytes : Z) (k : nat) :
  exists k',
    gen_block fake approx_bytes k = (concat (fake_texts fake k k'), k')
    /\ (k <= k')%nat
    /\ approx_bytes <= len (concat (fake_texts fake k k'))
    /\ (k' = k
        \/ len (concat (fake_texts fake k k')) - len (fake (k' - 1)%nat ++ [LF])
           < approx_bytes).
Proof.
  destruct (gen_block_loop_spec fake approx_bytes k k [] [] 0)
    as (k' & Hrun & Hle & Hsize & Hlast).
  - lia.
  - rewrite fake_texts_none. reflexivity.
  - reflexivity.
  - left. reflexivity.
  - cbn [app] in *. exists k'. unfold gen_block. rewrite Hrun. auto.
Qed.

(** X24: a block is whole texts of the [Faker], each with a line feed
    behind it, in the order of the calls.  It has the size asked for at least,
    and without its last text less than that: texts are added only while the
    block is too small.  No call is made, and the block is empty, exactly when
    the size asked for is not positive. *)
Theorem gen_block_reaches_the_size_with_whole_texts (fake : nat -> bytes)
  (approx_bytes : Z) (k : nat) :
  exists k',
    gen_block fake approx_bytes k = (concat (fake_texts fake k k'), k')
    /\ (k <= k')%nat
    /\ approx_bytes <= len (concat (fake_texts fake k k'))
    /\ (k' = k
        \/ len (concat (fake_texts fake k k')) - len (fake (k' - 1)%nat ++ [LF])
           < approx_bytes)
    /\ (k' = k <-> approx_bytes <= 0).
Proof.
  destruct (gen_block_spec fake approx_bytes k) as (k' & Hrun & Hle & Hsize & Hlast).
  exists k'. split; [exact Hrun|]. split; [exact Hle|]. split; [exact Hsize|].
  split; [exact Hlast|]. split.
  - intros ->. rewrite fake_texts_none in Hsize. exact Hsize.
  - intros Hneg. destruct Hlast as [E|Hlast]; [exact E|].
    destruct (Nat.eq_dec k' k) as [E|E]; [exact E|]. exfalso.
    replace k' with (S (k' - 1)) in Hlast at 1 by lia.
    rewrite fake_texts_snoc, len_concat_snoc in Hlast by lia.
    pose proof (len_nonneg (concat (fake_texts fake k (k' - 1)))). lia.
Qed.

Example gen_block_of_eight_bytes :
  gen_block fake_hola 8 0 = (lit "hola" ++ [LF] ++ lit "hola" ++ [LF], 2%nat).
Proof. vm_compute. reflexivity. Qed.

(** ** The part of a process *)

Lemma worker_loop_spec (fake : nat -> bytes) (bytes_goal : Z) (k : nat)
  (content : bytes) (written : Z) :
  content = concat (fake_texts fake 0 k) ->
  written = len content ->
  (k = 0%nat \/ written - len (fake (k - 1)%nat ++ [LF]) < bytes_goal) ->
  exists k',
    worker_loop fake bytes_goal k content written
    = (concat (fake_texts fake 0 k'), len (concat (fake_texts fake 0 k')))
    /\ (k <= k')%nat
    /\ bytes_goal <= len (concat (fake_texts fake 0 k'))
    /\ (k' = 0%nat
        \/ len (concat (fake_texts fake 0 k')) - len (fake (k' - 1)%nat ++ [LF])
           < bytes_goal).
Proof.
  funelim (worker_loop fake bytes_goal k content written); intros Hcontent Hwritten Hmin.
  - set (bs := if bytes_goal - written >? BLOCK_TARGET then BLOCK_TARGET
               else bytes_goal - written) in *.
    assert (Hbs : 1 <= bs <= bytes_goal - written).
    { unfold bs. destruct (Z.gtb_spec (bytes_goal - written) BLOCK_TARGET);
        unfold BLOCK_TARGET in *; lia. }
    destruct (gen_block_spec fake bs k) as (k1 & Hrun & Hle & Hsize & Hlast).
    rewrite Hrun in H. cbn [fst snd] in H.
    assert (Hk1 : (k < k1)%nat).
    { destruct (Nat.eq_dec k1 k) as [E|E]; [|lia]. subst k1.
      rewrite fake_texts_none in Hsize. simpl in Hsize. unfold len in Hsize.
      simpl in Hsize. lia. }
    destruct Hlast as [E|Hlast]; [lia|].
    assert (Happ : content ++ concat (fake_texts fake k k1)
                   = concat (fake_texts fake 0 k1)).
    { rewrite Hcontent, (fake_texts_app fake 0 k k1), concat_app by lia. reflexivity. }
    destruct H as (k' & Hloop & Hle' & Hgoal & Hlast').
    + exact Happ.
    + rewrite len_app, Hwritten. reflexivity.
    + right. rewrite Hwritten. lia.
    + exists k'. split; [|split; [lia|split; assumption]].
      rewrite Hrun. exact Hloop.
  - exists k. rewrite <- Hcontent, <- Hwritten. split; [reflexivity|].
    split; [lia|]. split; [lia | exact Hmin].
Qed.

(** X25: in a directory that exists a process writes its part and reports
    its index, the path of the part and the size of the part.  The part is
    whole texts of its [Faker], each with a line feed behind it, in the order
    of the calls; it has the bytes of the quota at least, and without its last
    text less than that.  No other file changes. *)
Theorem worker_writes_whole_texts_up_to_the_goal (fake : nat -> bytes)
  (fs : filesystem) (idx bytes_goal : Z) (tmp_dir : str) :
  In tmp_dir (dirs fs) ->
  exists fs' k content,
    worker fake fs idx bytes_goal tmp_dir
    = Ok (fs', (idx, (tmp_dir, part_name idx), len content))
    /\ read_file fs' (tmp_dir, part_name idx) = Ok content
    /\ content = concat (fake_texts fake 0 k)
    /\ bytes_goal <= len content
    /\ (k = 0%nat \/ len content - len (fake (k - 1)%nat ++ [LF]) < bytes_goal)
    /\ dirs fs' = dirs fs
    /\ forall q, q <> (tmp_dir, part_name idx) -> read_file fs' q = read_file fs q.
Proof.
  intros Hdir.
  destruct (worker_loop_spec fake bytes_goal 0 [] 0) as (k & Hloop & _ & Hgoal & Hlast);
    [reflexivity | reflexivity | left; reflexivity |].
  destruct (write_file_ok fs (tmp_dir, part_name idx) (concat (fake_texts fake 0 k)) Hdir)
    as [fs' Hw].
  exists fs', k, (concat (fake_texts fake 0 k)).
  split; [|split; [|split; [reflexivity|split; [exact Hgoal|split; [exact Hlast|split]]]]].
  - unfold worker. rewrite Hloop, Hw. reflexivity.
  - eapply read_write_same, Hw.
  - eapply write_file_dirs, Hw.
  - intros q Hq. eapply read_write_other; eauto.
Qed.

Lemma worker_writes_whole_texts_example :
  In (lit "tmp") (dirs two_parts)
  /\ exists fs' k content,
       worker fake_hola two_parts 7 12 (lit "tmp")
       = Ok (fs', (7, (lit "tmp", part_name 7), len content))
       /\ read_file fs' (lit "tmp", part_name 7) = Ok content
       /\ content = concat (fake_texts fake_hola 0 k)
       /\ 12 <= len content
       /\ (k = 0%nat \/ len content - len (fake_hola (k - 1)%nat ++ [LF]) < 12)
       /\ dirs fs' = dirs two_parts
       /\ forall q, q <> (lit "tmp", part_name 7) -> read_file fs' q = read_file two_parts q.
Proof.
  split; [left; reflexivity|].
  apply (worker_writes_whole_texts_up_to_the_goal fake_hola two_parts 7 12 (lit "tmp")).
  left. reflexivity.
Defined.

Example worker_of_twelve_bytes :
  worker fake_hola data_dir 7 12 (lit "datos")
  = Ok ({| dirs := [lit "datos"];
           files := [((lit "datos", lit "parte_007.txt"),
                      lit "hola" ++ [LF] ++ lit "hola" ++ [LF] ++ lit "hola" ++ [LF])] |},
        (7, (lit "datos", lit "parte_007.txt"), 15)).
Proof. vm_compute. reflexivity. Qed.

(** ** Joining the parts *)

Lemma append_chunks (final : path) (chunks : list bytes) (fs : filesystem) (s : bytes) :
  read_file fs final = Ok s ->
  In (fst final) (dirs fs) ->
  exists fs',
    fold_left (fun acc chunk => fs' <- acc ;; append_file fs' final chunk) chunks (Ok fs)
    = Ok fs'
    /\ read_file fs' final = Ok (s ++ concat chunks)
    /\ dirs fs' = dirs fs
    /\ forall q, q <> final -> read_file fs' q = read_file fs q.
Proof.
  revert fs s. induction chunks as [|c chunks IH]; intros fs s Hread Hdir.
  - exists fs. simpl. rewrite app_nil_r. auto.
  - destruct (write_file_ok fs final (s ++ c) Hdir) as [fs1 Hw].
    destruct (IH fs1 (s ++ c)) as (fs' & Hfold & Hfinal & Hdirs & Hframe).
    + eapply read_write_same, Hw.
    + rewrite (write_file_dirs _ _ _ _ Hw). exact Hdir.
    + assert (Hstep : append_file fs final c = Ok fs1).
      { unfold append_file. rewrite Hread. exact Hw. }
      exists fs'. cbn [fold_left bind]. rewrite Hstep. split; [exact Hfold|].
      split; [rewrite Hfinal; cbn [concat]; rewrite app_assoc; reflexivity|].
      split; [rewrite Hdirs; eapply write_file_dirs; eauto|].
      intros q Hq. rewrite Hframe by exact Hq. eapply read_write_other; eauto.
Qed.

Lemma copy_part_run (fs : filesystem) (final p : path) (s data : bytes) :
  read_file fs final = Ok s ->
  In (fst final) (dirs fs) ->
  read_file fs p = Ok data ->
  exists fs',
    copy_part fs final p = Ok fs'
    /\ read_file fs' final = Ok (s ++ data)
    /\ dirs fs' = dirs fs
    /\ forall q, q <> final -> read_file fs' q = read_file fs q.
Proof.
  intros Hfinal Hdir Hp.
  destruct (append_chunks final (blocks COPY_CHUNK data) fs s Hfinal Hdir)
    as (fs' & Hfold & Hread & Hdirs & Hframe).
  exists fs'. unfold copy_part. rewrite Hp. cbn [bind].
  rewrite blocks_concat in Hread by (unfold COPY_CHUNK; lia). auto.
Qed.

Lemma fold_raise {A B : Type} (f : outcome A -> B -> outcome A) (l : list B) (x : exn) :
  (forall b, f (Raise x) b = Raise x) -> fold_left f l (Raise x) = Raise x.
Proof.
  intros Hf. induction l as [|b l IH]; [reflexivity|]. simpl. rewrite Hf. exact IH.
Qed.

Lemma Forall2_impl_in {A B : Type} (P Q : A -> B -> Prop) (l : list A) (l' : list B) :
  (forall a b, In a l -> P a b -> Q a b) -> Forall2 P l l' -> Forall2 Q l l'.
Proof.
  intros H F. induction F as [|a b l l' Hab F IH]; constructor.
  - apply H; [left; reflexivity | exact Hab].
  - apply IH. intros a' b' Hin. apply H. right. exact Hin.
Qed.

Lemma copy_parts_run (final : path) (ps : list path) (datas : list bytes)
  (fs : filesystem) (s : bytes) :
  read_file fs final = Ok s ->
  In (fst final) (dirs fs) ->
  ~ In final ps ->
  Forall2 (fun p data => read_file fs p = Ok data) ps datas ->
  exists fs',
    fold_left (fun acc p => fs' <- acc ;; copy_part fs' final p) ps (Ok fs) = Ok fs'
    /\ read_file fs' final = Ok (s ++ concat datas)
    /\ dirs fs' = dirs fs
    /\ forall q, q <> final -> read_file fs' q = read_file fs q.
Proof.
  revert datas fs s. induction ps as [|p ps IH]; intros datas fs s Hfinal Hdir Hnot Hparts.
  - inversion Hparts; subst. exists fs. simpl. rewrite app_nil_r. auto.
  - inversion Hparts as [|p' data ps' datas' Hp Hrest]; subst.
    destruct (copy_part_run fs final p s data Hfinal Hdir Hp)
      as (fs1 & Hcopy & Hfinal1 & Hdirs1 & Hframe1).
    destruct (IH datas' fs1 (s ++ data)) as (fs' & Hfold & Hread & Hdirs & Hframe).
    + exact Hfinal1.
    + rewrite Hdirs1. exact Hdir.
    + intros Hin. apply Hnot. right. exact Hin.
    + apply (Forall2_impl_in _ _ _ _ (fun q d Hin Hq => eq_trans (Hframe1 q
               (fun E => Hnot (or_intror (eq_ind q (fun x => In x ps) Hin final E)))) Hq)
               Hrest).
    + exists fs'. cbn [fold_left bind]. rewrite Hcopy. split; [exact Hfold|].
      split; [rewrite Hread; cbn [concat]; rewrite app_assoc; reflexivity|].
      split; [congruence|]. intros q Hq. rewrite Hframe, Hframe1 by exact Hq.
      reflexivity.
Qed.

Lemma concat_files_run (fs : filesystem) (part_paths : list path)
  (final_path : path) (datas : list bytes) :
  In (fst final_path) (dirs fs) ->
  ~ In final_path part_paths ->
  Forall2 (fun p data => read_file fs p = Ok data) part_paths datas ->
  exists fs',
    concat_files fs part_paths final_path = Ok fs'
    /\ read_file fs' final_path = Ok (concat datas)
    /\ dirs fs' = dirs fs
    /\ forall q, q <> final_path -> read_file fs' q = read_file fs q.
Proof.
  intros Hdir Hnot Hparts.
  destruct (write_file_ok fs final_path [] Hdir) as [fs0 Hw].
  destruct (copy_parts_run final_path part_paths datas fs0 [])
    as (fs' & Hfold & Hread & Hdirs & Hframe).
  - eapply read_write_same, Hw.
  - rewrite (write_file_dirs _ _ _ _ Hw). exact Hdir.
  - exact Hnot.
  - apply (Forall2_impl_in _ _ _ _ (fun q d Hin Hq =>
             eq_trans (read_write_other _ _ _ q _ Hw
               (fun E => Hnot (eq_ind q (fun x => In x part_paths) Hin final_path E))) Hq)
             Hparts).
  - exists fs'. unfold concat_files. rewrite Hw. cbn [bind].
    split; [exact Hfold|]. split; [exact Hread|].
    split; [rewrite Hdirs; eapply write_file_dirs; eauto|].
    intros q Hq. rewrite Hframe by exact Hq. eapply read_write_other; eauto.
Qed.

(** X26: when the directory of the final file exists, every part can be
    read and the final file is not one of the parts, [concat_files] returns
    and the final file holds the parts one after the other, in the order of
    the list, whatever it held before; no other file changes. *)
Theorem concat_files_joins_the_parts (fs : filesystem) (part_paths : list path)
  (final_path : path) (datas : list bytes) :
  In (fst final_path) (dirs fs) ->
  ~ In final_path part_paths ->
  Forall2 (fun p data => read_file fs p = Ok data) part_paths datas ->
  exists fs',
    concat_files fs part_paths final_path = Ok fs'
    /\ read_file fs' final_path = Ok (concat datas)
    /\ dirs fs' = dirs fs
    /\ forall q, q <> final_path -> read_file fs' q = read_file fs q.
Proof. apply concat_files_run. Qed.

Lemma concat_files_joins_the_parts_example :
  In (fst (lit "datos", lit "todo.txt")) (dirs two_parts)
  /\ ~ In (lit "datos", lit "todo.txt")
        [(lit "tmp", lit "parte_001.txt"); (lit "tmp", lit "parte_000.txt")]
  /\ Forall2 (fun p data => read_file two_parts p = Ok data)
       [(lit "tmp", lit "parte_001.txt"); (lit "tmp", lit "parte_000.txt")]
       [lit "dos" ++ [LF]; lit "uno" ++ [LF]]
  /\ exists fs',
       concat_files two_parts
         [(lit "tmp", lit "parte_001.txt"); (lit "tmp", lit "parte_000.txt")]
         (lit "datos", lit "todo.txt")
       = Ok fs'
       /\ read_file fs' (lit "datos", lit "todo.txt")
          = Ok (concat [lit "dos" ++ [LF]; lit "uno" ++ [LF]])
       /\ dirs fs' = dirs two_parts
       /\ forall q, q <> (lit "datos", lit "todo.txt") ->
                    read_file fs' q = read_file two_parts q.
Proof.
  assert (Hdir : In (fst (lit "datos", lit "todo.txt")) (dirs two_parts))
    by (right; left; reflexivity).
  assert (Hnot : ~ In (lit "datos", lit "todo.txt")
                   [(lit "tmp", lit "parte_001.txt"); (lit "tmp", lit "parte_000.txt")])
    by (intros [E|[E|[]]]; discriminate E).
  assert (Hparts : Forall2 (fun p data => read_file two_parts p = Ok data)
                     [(lit "tmp", lit "parte_001.txt"); (lit "tmp", lit "parte_000.txt")]
                     [lit "dos" ++ [LF]; lit "uno" ++ [LF]])
    by (repeat constructor).
  split; [exact Hdir|]. split; [exact Hnot|]. split; [exact Hparts|].
  exact (concat_files_joins_the_parts two_parts _ _ _ Hdir Hnot Hparts).
Defined.

Lemma write_file_only (fs : filesystem) (final : path) (s : bytes) :
  only_final final fs (write_file fs final s).
Proof.
  destruct (write_file fs final s) as [fs'|x] eqn:E; simpl.
  - intros q Hq. eapply read_write_other; eauto.
  - unfold write_file in E. destruct (mem (fst final) (dirs fs)); congruence.
Qed.

Lemma append_file_only (fs : filesystem) (final : path) (c : bytes) :
  only_final final fs (append_file fs final c).
Proof.
  unfold append_file. destruct (read_file fs final) as [s|x] eqn:E; cbn [bind].
  - apply write_file_only.
  - simpl. apply read_file_raise in E. tauto.
Qed.

Lemma fold_only (B : Type) (final : path) (step : filesystem -> B -> outcome filesystem)
  (l : list B) (fs : filesystem) :
  (forall fs b, only_final final fs (step fs b)) ->
  only_final final fs (fold_left (fun acc b => fs' <- acc ;; step fs' b) l (Ok fs)).
Proof.
  intros Hstep. revert fs. induction l as [|b l IH]; intros fs.
  - simpl. reflexivity.
  - cbn [fold_left bind]. specialize (Hstep fs b).
    destruct (step fs b) as [fs1|x]; simpl in Hstep.
    + specialize (IH fs1).
      destruct (fold_left _ l (Ok fs1)) as [fs2|x]; simpl in *; [|exact IH].
      intros q Hq. rewrite IH, Hstep by exact Hq. reflexivity.
    + subst x. rewrite fold_raise by reflexivity. reflexivity.
Qed.

Lemma copy_part_only (final p : path) (fs : filesystem) :
  only_final final fs (copy_part fs final p).
Proof.
  unfold copy_part. destruct (read_file fs p) as [data|x] eqn:E; cbn [bind].
  - apply fold_only. intros fs0 c. apply append_file_only.
  - simpl. apply read_file_raise in E. tauto.
Qed.

Lemma copy_parts_missing (final p : path) (ps : list path) (fs : filesystem) :
  In p ps -> p <> final ->
  read_file fs p = Raise FileNotFoundError ->
  fold_left (fun acc p => fs' <- acc ;; copy_part fs' final p) ps (Ok fs)
  = Raise FileNotFoundError.
Proof.
  intros Hin Hne. revert fs. induction ps as [|p0 ps IH]; intros fs Hp; [destruct Hin|].
  cbn [fold_left bind]. pose proof (copy_part_only final p0 fs) as Honly.
  destruct (copy_part fs final p0) as [fs1|x] eqn:E; simpl in Honly.
  - destruct Hin as [->|Hin].
    + unfold copy_part in E. rewrite Hp in E. discriminate E.
    + apply IH; [exact Hin|]. rewrite Honly by exact Hne. exact Hp.
  - subst x. apply fold_raise. reflexivity.
Qed.

(** X27: when one of the parts cannot be read, and the final file is not
    one of the parts, [concat_files] raises [FileNotFoundError], wherever the
    part stands in the list. *)
Theorem concat_files_raises_on_missing_part (fs : filesystem) (part_paths : list path)
  (final_path p : path) :
  In p part_paths ->
  ~ In final_path part_paths ->
  read_file fs p = Raise FileNotFoundError ->
  concat_files fs part_paths final_path = Raise FileNotFoundError.
Proof.
  intros Hin Hnot Hp. unfold concat_files.
  assert (Hne : p <> final_path) by (intros ->; exact (Hnot Hin)).
  pose proof (write_file_only fs final_path (@nil char)) as Honly.
  destruct (write_file fs final_path []) as [fs0|x]; simpl in Honly; cbn [bind].
  - apply (copy_parts_missing final_path p); [exact Hin | exact Hne |].
    rewrite Honly by exact Hne. exact Hp.
  - subst x. reflexivity.
Qed.

Lemma concat_files_raises_example :
  In (lit "tmp", lit "parte_002.txt")
    [(lit "tmp", lit "parte_000.txt"); (lit "tmp", lit "parte_002.txt")]
  /\ ~ In (lit "datos", lit "todo.txt")
        [(lit "tmp", lit "parte_000.txt"); (lit "tmp", lit "parte_002.txt")]
  /\ read_file two_parts (lit "tmp", lit "parte_002.txt") = Raise FileNotFoundError
  /\ concat_files two_parts
       [(lit "tmp", lit "parte_000.txt"); (lit "tmp", lit "parte_002.txt")]
       (lit "datos", lit "todo.txt")
     = Raise FileNotFoundError.
Proof.
  assert (Hin : In (lit "tmp", lit "parte_002.txt")
                  [(lit "tmp", lit "parte_000.txt"); (lit "tmp", lit "parte_002.txt")])
    by (right; left; reflexivity).
  assert (Hnot : ~ In (lit "datos", lit "todo.txt")
                   [(lit "tmp", lit "parte_000.txt"); (lit "tmp", lit "parte_002.txt")])
    by (intros [E|[E|[]]]; discriminate E).
  split; [exact Hin|]. split; [exact Hnot|]. split; [reflexivity|].
  exact (concat_files_raises_on_missing_part two_parts _ _ _ Hin Hnot eq_refl).
Defined.

(** ** The parts of all processes *)

Lemma part_name_inj (a b : Z) : 0 <= a -> 0 <= b -> part_name a = part_name b -> a = b.
Proof.
  unfold part_name. intros Ha Hb E.
  apply app_inv_head, app_inv_tail in E. eapply format_0d_inj; eauto.
Qed.

Lemma worker_run (fake : nat -> bytes) (fs : filesystem) (idx bytes_goal : Z)
  (tmp_dir : str) :
  In tmp_dir (dirs fs) ->
  exists fs',
    worker fake fs idx bytes_goal tmp_dir
    = Ok (fs', (idx, (tmp_dir, part_name idx),
                len (fst (worker_loop fake bytes_goal 0 [] 0))))
    /\ read_file fs' (tmp_dir, part_name idx) = Ok (fst (worker_loop fake bytes_goal 0 [] 0))
    /\ bytes_goal <= len (fst (worker_loop fake bytes_goal 0 [] 0))
    /\ dirs fs' = dirs fs
    /\ forall q, q <> (tmp_dir, part_name idx) -> read_file fs' q = read_file fs q.
Proof.
  intros Hdir.
  destruct (worker_loop_spec fake bytes_goal 0 [] 0) as (k & Hloop & _ & Hgoal & _);
    [reflexivity | reflexivity | left; reflexivity |].
  destruct (write_file_ok fs (tmp_dir, part_name idx) (concat (fake_texts fake 0 k)) Hdir)
    as [fs' Hw].
  exists fs'. rewrite Hloop. cbn [fst].
  split; [|split; [|split; [exact Hgoal|split]]].
  - unfold worker. rewrite Hloop, Hw. reflexivity.
  - eapply read_write_same, Hw.
  - eapply write_file_dirs, Hw.
  - intros q Hq. eapply read_write_other; eauto.
Qed.

Lemma run_workers (fakes : Z -> nat -> bytes) (tmp_dir : str) (iqs : list (Z * Z))
  (fs : filesystem) (put : list (Z * path * Z)) :
  In tmp_dir (dirs fs) ->
  Forall (fun iq => 0 <= fst iq) iqs ->
  NoDup (map fst iqs) ->
  exists fs',
    fold_left (run_worker fakes tmp_dir) iqs (Ok (fs, put))
    = Ok (fs', put ++ map (result_of fakes tmp_dir) iqs)
    /\ dirs fs' = dirs fs
    /\ (forall q, ~ In q (map (fun iq => part_path tmp_dir (fst iq)) iqs) ->
          read_file fs' q = read_file fs q)
    /\ Forall2 (fun p data => read_file fs' p = Ok data)
         (map (fun iq => part_path tmp_dir (fst iq)) iqs)
         (map (fun iq => part fakes (fst iq) (snd iq)) iqs).
Proof.
  revert fs put. induction iqs as [|[i q] iqs IH]; intros fs put Hdir Hpos Hnd.
  - exists fs. simpl. rewrite app_nil_r. repeat split; auto.
  - inversion Hpos as [|? ? Hi Hpos']; subst. inversion Hnd as [|? ? Hni Hnd']; subst.
    cbn [fst snd] in *.
    destruct (worker_run (fakes i) fs i q tmp_dir Hdir)
      as (fs1 & Hworker & Hread1 & _ & Hdirs1 & Hframe1).
    destruct (IH fs1 (put ++ [result_of fakes tmp_dir (i, q)]))
      as (fs' & Hfold & Hdirs & Hframe & Hread); [congruence | assumption | assumption |].
    assert (Hstep : run_worker fakes tmp_dir (Ok (fs, put)) (i, q)
                    = Ok (fs1, put ++ [result_of fakes tmp_dir (i, q)])).
    { unfold run_worker. cbn [bind fst snd]. rewrite Hworker. reflexivity. }
    exists fs'. cbn [fold_left map]. rewrite Hstep.
    split; [rewrite Hfold, <- app_assoc; reflexivity|].
    split; [congruence|]. split.
    + intros p Hp. rewrite Hframe by (intros Hin; apply Hp; right; exact Hin).
      apply Hframe1. intros ->. apply Hp. left. reflexivity.
    + constructor; [|exact Hread]. rewrite Hframe; [exact Hread1|].
      intros Hin. apply in_map_iff in Hin as ([j q'] & E & Hin). cbn [fst] in E.
      unfold part_path in E.
      assert (E' : part_name j = part_name i) by congruence.
      rewrite Forall_forall in Hpos'. pose proof (Hpos' _ Hin) as Hj. cbn [fst] in Hj.
      apply part_name_inj in E'; [|assumption..]. subst j.
      apply Hni. apply in_map_iff. exists (i, q'). auto.
Qed.

(** ** The order of the results *)

Lemma insert_result_perm (r : Z * path * Z) (l : list (Z * path * Z)) :
  Permutation (insert_result r l) (r :: l).
Proof.
  induction l as [|x l IH]; simpl; [apply Permutation_refl|].
  destruct (fst (fst x) <? fst (fst r)); [|apply Permutation_refl].
  etransitivity; [apply perm_skip, IH | apply perm_swap].
Qed.

Lemma sort_results_perm (l : list (Z * path * Z)) : Permutation (sort_results l) l.
Proof.
  induction l as [|r l IH]; simpl; [apply perm_nil|].
  etransitivity; [apply insert_result_perm | apply perm_skip, IH].
Qed.

Lemma insert_result_sorted (r : Z * path * Z) (l : list (Z * path * Z)) :
  StronglySorted idx_le l -> StronglySorted idx_le (insert_result r l).
Proof.
  induction 1 as [|x l Hs IH Hx]; simpl; [repeat constructor|].
  destruct (Z.ltb_spec (fst (fst x)) (fst (fst r))) as [E|E].
  - constructor; [exact IH|]. rewrite Forall_forall. intros y Hy.
    apply (Permutation_in _ (insert_result_perm r l)) in Hy.
    destruct Hy as [<-|Hy]; [unfold idx_le; lia|]. rewrite Forall_forall in Hx. auto.
  - constructor; [constructor; assumption|].
    constructor; [exact E|].
    eapply Forall_impl; [|exact Hx]. unfold idx_le. intros y Hy. lia.
Qed.

Lemma sort_results_sorted (l : list (Z * path * Z)) : StronglySorted idx_le (sort_results l).
Proof.
  induction l as [|r l IH]; simpl; [constructor | apply insert_result_sorted, IH].
Qed.

Lemma idx_sorted_strictly (l : list (Z * path * Z)) :
  StronglySorted idx_le l -> NoDup (map (fun r => fst (fst r)) l) ->
  StronglySorted idx_lt l.
Proof.
  induction 1 as [|x l Hs IH Hx]; intros Hnd; [constructor|].
  inversion Hnd as [|? ? Hni Hnd']; subst. constructor; [apply IH, Hnd'|].
  rewrite Forall_forall in *. intros y Hy. specialize (Hx y Hy).
  unfold idx_le, idx_lt in *.
  assert (fst (fst x) <> fst (fst y)); [|lia].
  intros E. apply Hni. rewrite E. apply (in_map (fun r => fst (fst r))), Hy.
Qed.

Lemma idx_sorted_unique (l1 l2 : list (Z * path * Z)) :
  StronglySorted idx_lt l1 -> StronglySorted idx_lt l2 -> Permutation l1 l2 -> l1 = l2.
Proof.
  intros H1. revert l2. induction H1 as [|x l1 Hs IH Hx]; intros l2 H2 Hp.
  - apply Permutation_nil in Hp. congruence.
  - destruct l2 as [|y l2]; [apply Permutation_sym, Permutation_nil in Hp; discriminate|].
    inversion H2 as [|? ? Hs2 Hy]; subst.
    assert (E : x = y).
    { assert (Hin1 : In x (y :: l2)) by (apply (Permutation_in _ Hp); left; reflexivity).
      assert (Hin2 : In y (x :: l1))
        by (apply (Permutation_in _ (Permutation_sym Hp)); left; reflexivity).
      destruct Hin1 as [E|Hin1]; [congruence|]. destruct Hin2 as [E|Hin2]; [congruence|].
      rewrite Forall_forall in Hx, Hy. specialize (Hx _ Hin2). specialize (Hy _ Hin1).
      unfold idx_lt in *. lia. }
    subst y. f_equal. apply IH; [exact Hs2|]. eapply Permutation_cons_inv, Hp.
Qed.

Lemma combine_fst_snd {A B : Type} (a : list A) (b : list B) :
  length a = length b -> map fst (combine a b) = a /\ map snd (combine a b) = b.
Proof.
  revert b. induction a as [|x a IH]; intros [|y b] H; try discriminate H; simpl.
  - auto.
  - injection H as H. destruct (IH b H) as [-> ->]. auto.
Qed.

Lemma enumerate_fst {A : Type} (l : list A) :
  map fst (enumerate l) = map Z.of_nat (seq 0 (length l)).
Proof.
  unfold enumerate. apply combine_fst_snd. rewrite length_map, length_seq. reflexivity.
Qed.

Lemma enumerate_snd {A : Type} (l : list A) : map snd (enumerate l) = l.
Proof.
  unfold enumerate. apply combine_fst_snd. rewrite length_map, length_seq. reflexivity.
Qed.

Lemma of_nat_seq_sorted (s n : nat) :
  StronglySorted Z.lt (map Z.of_nat (seq s n)).
Proof.
  revert s. induction n as [|n IH]; intros s; cbn [seq map]; constructor; [apply IH|].
  rewrite Forall_forall. intros z Hz. apply in_map_iff in Hz as (k & <- & Hk).
  apply in_seq in Hk. lia.
Qed.

Lemma sorted_by_idx (l : list (Z * path * Z)) :
  StronglySorted Z.lt (map (fun r => fst (fst r)) l) -> StronglySorted idx_lt l.
Proof.
  induction l as [|x l IH]; cbn [map]; intros H; [constructor|].
  inversion H as [|? ? Hs Hx]; subst. constructor; [apply IH, Hs|].
  rewrite Forall_forall in *. intros y Hy. apply Hx.
  apply (in_map (fun r => fst (fst r))), Hy.
Qed.

Lemma sorted_lt_NoDup (l : list Z) : StronglySorted Z.lt l -> NoDup l.
Proof.
  induction 1 as [|x l Hs IH Hx]; constructor; [|exact IH].
  intros Hin. rewrite Forall_forall in Hx. specialize (Hx x Hin). lia.
Qed.

(** However the results arrive, sorted they are in the order of the
    processes. *)
Lemma sort_results_completed (as_completed : list (Z * path * Z) -> list (Z * path * Z))
  (put : list (Z * path * Z)) :
  (forall l, Permutation (as_completed l) l) ->
  StronglySorted Z.lt (map (fun r => fst (fst r)) put) ->
  sort_results (as_completed put) = put.
Proof.
  intros Hperm Hput. apply idx_sorted_unique.
  - apply idx_sorted_strictly; [apply sort_results_sorted|].
    apply (Permutation_NoDup (l := map (fun r => fst (fst r)) put)).
    + apply Permutation_map, Permutation_sym.
      etransitivity; [apply sort_results_perm | apply Hperm].
    + apply sorted_lt_NoDup, Hput.
  - apply sorted_by_idx, Hput.
  - etransitivity; [apply sort_results_perm | apply Hperm].
Qed.

Lemma procs_of_pos (workers cpu_count : Z) : 0 <= cpu_count -> 1 <= procs_of workers cpu_count.
Proof.
  intros H. unfold procs_of. destruct (Z.ltb_spec 0 workers); [lia|].
  destruct (Z.eqb_spec cpu_count 0); lia.
Qed.

Lemma len_concat (l : list bytes) : len (concat l) = sum (map len l).
Proof.
  induction l as [|x l IH]; [reflexivity|]. cbn [concat map sum fold_right].
  rewrite len_app, IH. reflexivity.
Qed.

Lemma part_size (fakes : Z -> nat -> bytes) (idx quota : Z) :
  quota <= len (part fakes idx quota).
Proof.
  unfold part.
  destruct (worker_loop_spec (fakes idx) quota 0 [] 0) as (k & Hloop & _ & Hgoal & _);
    [reflexivity | reflexivity | left; reflexivity |].
  rewrite Hloop. exact Hgoal.
Qed.

Lemma sum_le {A : Type} (f g : A -> Z) (l : list A) :
  (forall a, f a <= g a) -> sum (map f l) <= sum (map g l).
Proof.
  intros H. induction l as [|a l IH]; [reflexivity|]. specialize (H a).
  cbn [map sum fold_right]. fold (sum (map f l)). fold (sum (map g l)). lia.
Qed.

Lemma parts_size (fakes : Z -> nat -> bytes) (total_bytes procs : Z) :
  1 <= procs -> total_bytes <= len (concat (parts fakes total_bytes procs)).
Proof.
  intros Hp. rewrite len_concat. unfold parts. rewrite map_map.
  pose proof (quotas_sum total_bytes procs Hp) as Hsum.
  rewrite <- Hsum at 1. rewrite <- (enumerate_snd (quotas total_bytes procs)) at 1.
  apply sum_le. intros [i q]. apply part_size.
Qed.

(** ** A whole run *)

Section GeneratorFacts.

Variable fakes : Z -> nat -> bytes.
Variable as_completed : list (Z * path * Z) -> list (Z * path * Z).
Hypothesis as_completed_perm : forall l, Permutation (as_completed l) l.

Lemma gen_main_run (fs : filesystem) (tmp_dir : str) (salida : path)
  (total_bytes workers cpu_count : Z) :
  fresh_dir fs tmp_dir ->
  In (fst salida) (dirs fs) ->
  exists fs',
    gen_main fakes as_completed fs tmp_dir salida total_bytes workers cpu_count
    = Ok (fs', (len (concat (parts fakes total_bytes (procs_of workers cpu_count))),
                len (concat (parts fakes total_bytes (procs_of workers cpu_count)))))
    /\ read_file fs' salida
       = Ok (concat (parts fakes total_bytes (procs_of workers cpu_count)))
    /\ dirs fs' = dirs fs
    /\ (forall name, read_file fs' (tmp_dir, name) = Raise FileNotFoundError)
    /\ forall q, q <> salida -> read_file fs' q = read_file fs q.
Proof.
  intros [Hfresh Hnofile] Hout.
  set (procs := procs_of workers cpu_count).
  set (iqs := enumerate (quotas total_bytes procs)).
  set (fs1 := mkdtemp fs tmp_dir).
  assert (Hidx : map fst iqs = map Z.of_nat (seq 0 (length (quotas total_bytes procs))))
    by apply enumerate_fst.
  assert (Hsorted : StronglySorted Z.lt (map fst iqs))
    by (rewrite Hidx; apply of_nat_seq_sorted).
  destruct (run_workers fakes tmp_dir iqs fs1 []) as (fs2 & Hrun & Hdirs2 & Hframe2 & Hread2).
  { left. reflexivity. }
  { rewrite Forall_forall. intros iq Hin. apply (in_map fst) in Hin. rewrite Hidx in Hin.
    apply in_map_iff in Hin as (k & <- & _). lia. }
  { apply sorted_lt_NoDup, Hsorted. }
  cbn [app] in Hrun.
  set (put := map (result_of fakes tmp_dir) iqs) in *.
  assert (Hresults : sort_results (as_completed put) = put).
  { apply sort_results_completed; [exact as_completed_perm|].
    unfold put. rewrite map_map. exact Hsorted. }
  set (part_paths := map (fun iq => part_path tmp_dir (fst iq)) iqs) in *.
  assert (Hpaths : map (fun r => snd (fst r)) put = part_paths)
    by (unfold put; rewrite map_map; reflexivity).
  assert (Hproduced : sum (map snd put) = len (concat (parts fakes total_bytes procs))).
  { rewrite len_concat. unfold put, parts. rewrite !map_map. reflexivity. }
  assert (Hne : forall name, (tmp_dir, name) <> salida).
  { intros name E. apply Hfresh. rewrite <- E in Hout. exact Hout. }
  destruct (concat_files_run fs2 part_paths salida (parts fakes total_bytes procs))
    as (fs3 & Hconcat & Hread3 & Hdirs3 & Hframe3).
  { rewrite Hdirs2. right. exact Hout. }
  { intros Hin. apply in_map_iff in Hin as (iq & E & _). exact (Hne _ E). }
  { exact Hread2. }
  set (fs4 := remove_chunks fs3 part_paths).
  assert (Hread4 : forall q,
            read_file fs4 q
            = if in_dec path_eq_dec q part_paths then Raise FileNotFoundError
              else read_file fs3 q) by (intros q; apply read_remove_chunks).
  assert (Hold : forall q, q <> salida -> read_file fs4 q = read_file fs q).
  { intros q Hq. rewrite Hread4. destruct (in_dec path_eq_dec q part_paths) as [Hin|Hnin].
    - apply in_map_iff in Hin as (iq & <- & _). symmetry. apply Hnofile.
    - rewrite Hframe3 by exact Hq. rewrite Hframe2 by exact Hnin. reflexivity. }
  assert (Hempty : existsb (in_dir tmp_dir) (files fs4) = false).
  { apply existsb_in_dir. intros name.
    apply (read_file_raise fs4 _ FileNotFoundError).
    rewrite Hold by apply Hne. apply Hnofile. }
  assert (Hdirs4 : dirs fs4 = tmp_dir :: dirs fs).
  { unfold fs4. rewrite remove_chunks_dirs, Hdirs3, Hdirs2. reflexivity. }
  set (fs5 := ignore_errors fs4 (os_rmdir fs4 tmp_dir)).
  assert (Hdirs5 : dirs fs5 = dirs fs).
  { unfold fs5, os_rmdir. rewrite Hdirs4, Hempty.
    replace (mem tmp_dir (tmp_dir :: dirs fs)) with true
      by (symmetry; apply mem_true; left; reflexivity).
    simpl. destruct (str_eq_dec tmp_dir tmp_dir); [|congruence]. simpl.
    apply filter_other_dirs, Hfresh. }
  assert (Hfinal : read_file fs5 salida = Ok (concat (parts fakes total_bytes procs))).
  { unfold fs5. rewrite read_rmdir, Hread4.
    destruct (in_dec path_eq_dec salida part_paths) as [Hin|_]; [|exact Hread3].
    apply in_map_iff in Hin as (iq & E & _). destruct (Hne _ E). }
  exists fs5. split; [|split; [exact Hfinal|split; [exact Hdirs5|split]]].
  - unfold gen_main. fold procs iqs fs1. rewrite Hrun. cbn [bind].
    rewrite Hresults, Hpaths, Hproduced, Hconcat. cbn [bind].
    unfold getsize. rewrite Hread3. cbn [bind]. reflexivity.
  - intros name. unfold fs5. rewrite read_rmdir, Hold by apply Hne. apply Hnofile.
  - intros q Hq. unfold fs5. rewrite read_rmdir. apply Hold, Hq.
Qed.

End GeneratorFacts.

Lemma data_dir_tmp_is_fresh : fresh_dir data_dir (lit "tmp").
Proof.
  split; [cbv; intuition discriminate | intros name; reflexivity].
Qed.

(** X28: a run of the generator returns when the directory of the data set
    exists, whatever the order in which the processes report.  The data set is
    the parts of the processes one after the other, in the order of the
    processes and not in that of their reports; it has the bytes asked for at
    least, its size is the number of bytes the processes reported; afterwards
    the temporary directory and the parts are gone, the directories are those
    of before, and no file other than the data set has changed. *)
Theorem generated_file_is_the_parts_in_process_order
  (fakes : Z -> nat -> bytes)
  (as_completed : list (Z * path * Z) -> list (Z * path * Z))
  (fs : filesystem) (tmp_dir : str) (salida : path) (total_bytes workers cpu_count : Z) :
  (forall l, Permutation (as_completed l) l) ->
  fresh_dir fs tmp_dir ->
  In (fst salida) (dirs fs) ->
  0 <= cpu_count ->
  exists fs' final,
    gen_main fakes as_completed fs tmp_dir salida total_bytes workers cpu_count
    = Ok (fs', (len final, len final))
    /\ final = concat (parts fakes total_bytes (procs_of workers cpu_count))
    /\ read_file fs' salida = Ok final
    /\ total_bytes <= len final
    /\ dirs fs' = dirs fs
    /\ (forall name, read_file fs' (tmp_dir, name) = Raise FileNotFoundError)
    /\ forall q, q <> salida -> read_file fs' q = read_file fs q.
Proof.
  intros Hperm Hfresh Hout Hcpu.
  destruct (gen_main_run fakes as_completed Hperm fs tmp_dir salida total_bytes workers
              cpu_count Hfresh Hout) as (fs' & Hrun & Hread & Hdirs & Htmp & Hframe).
  exists fs', (concat (parts fakes total_bytes (procs_of workers cpu_count))).
  split; [exact Hrun|]. split; [reflexivity|]. split; [exact Hread|].
  split; [apply parts_size, procs_of_pos, Hcpu|]. auto.
Qed.

Lemma generated_file_example :
  (forall l : list (Z * path * Z), Permutation (rev l) l)
  /\ fresh_dir data_dir (lit "tmp")
  /\ In (fst (lit "datos", lit "todo.txt")) (dirs data_dir)
  /\ 0 <= 4
  /\ exists fs' final,
       gen_main fakes_hola (@rev _) data_dir (lit "tmp") (lit "datos", lit "todo.txt")
         20 3 4
       = Ok (fs', (len final, len final))
       /\ final = concat (parts fakes_hola 20 (procs_of 3 4))
       /\ read_file fs' (lit "datos", lit "todo.txt") = Ok final
       /\ 20 <= len final
       /\ dirs fs' = dirs data_dir
       /\ (forall name, read_file fs' (lit "tmp", name) = Raise FileNotFoundError)
       /\ forall q, q <> (lit "datos", lit "todo.txt") ->
                    read_file fs' q = read_file data_dir q.
Proof.
  split; [intros l; apply Permutation_sym, Permutation_rev|].
  split; [exact data_dir_tmp_is_fresh|]. split; [left; reflexivity|]. split; [lia|].
  apply (generated_file_is_the_parts_in_process_order fakes_hola (@rev _) data_dir
           (lit "tmp") (lit "datos", lit "todo.txt") 20 3 4);
    [intros l; apply Permutation_sym, Permutation_rev | exact data_dir_tmp_is_fresh
    | left; reflexivity | lia].
Defined.

Example generated_file_of_twenty_bytes :
  gen_main fakes_hola (@rev _) data_dir (lit "tmp") (lit "datos", lit "todo.txt") 20 3 4
  = Ok ({| dirs := [lit "datos"];
           files := [((lit "datos", lit "todo.txt"),
                      concat (repeat (lit "hola" ++ [LF]) 6))] |},
        (30, 30)).
Proof. vm_compute. reflexivity. Qed.
